(** * talkadvantage: the meeting assistant's web front end and pipeline

    A shallow embedding of the TypeScript sources (the calendar grid of the
    library page, the file-list search filter, the curiosity engine's answer
    form, the live transcript and the recorder's chunk list) together with
    the pipeline components that the specification describes. *)

From Stdlib Require Import ZArith Bool Lia Ascii String List Sorted.
Import ListNotations.

Local Open Scope Z_scope.

(** ** JavaScript dates

    [generateCalendarDays] only goes through [new Date(year, month, date)]
    and the local-time getters [getFullYear], [getMonth], [getDate] and
    [getDay].  All four getters depend on the local calendar day alone, so a
    [Date] is represented by its local day number (days since 1970-01-01),
    and the functions below are those of ECMA-262, section 21.4.1 (Day
    Number, Year Number, Month Number, Date Number, Week Day, MakeDay).
    Local time is taken at a fixed offset from UTC and time values are not
    clipped to the +-100,000,000-day range. *)
Module JSDate.

Definition Date := Z.

Definition DaysInYear (y : Z) : Z :=
  if negb (y mod 4 =? 0) then 365
  else if negb (y mod 100 =? 0) then 366
  else if negb (y mod 400 =? 0) then 365
  else 366.

Definition DayFromYear (y : Z) : Z :=
  365 * (y - 1970) + (y - 1969) / 4 - (y - 1901) / 100 + (y - 1601) / 400.

(** The largest [y] with [DayFromYear y <= t]: an estimate from the mean
    length of a Gregorian year, corrected by at most one year. *)
Definition YearFromTime (t : Date) : Z :=
  let y0 := 1970 + (400 * t) / 146097 in
  if t <? DayFromYear y0 then y0 - 1
  else if DayFromYear (y0 + 1) <=? t then y0 + 1
  else y0.

Definition InLeapYear (t : Date) : Z :=
  if DaysInYear (YearFromTime t) =? 366 then 1 else 0.

Definition DayWithinYear (t : Date) : Z := t - DayFromYear (YearFromTime t).

Definition MonthFromTime (t : Date) : Z :=
  let d := DayWithinYear t in
  let leap := InLeapYear t in
  if d <? 31 then 0
  else if d <? 59 + leap then 1
  else if d <? 90 + leap then 2
  else if d <? 120 + leap then 3
  else if d <? 151 + leap then 4
  else if d <? 181 + leap then 5
  else if d <? 212 + leap then 6
  else if d <? 243 + leap then 7
  else if d <? 273 + leap then 8
  else if d <? 304 + leap then 9
  else if d <? 334 + leap then 10
  else 11.

Definition DateFromTime (t : Date) : Z :=
  let d := DayWithinYear t in
  let leap := InLeapYear t in
  match MonthFromTime t with
  | 0 => d + 1
  | 1 => d - 30
  | 2 => d - 58 - leap
  | 3 => d - 89 - leap
  | 4 => d - 119 - leap
  | 5 => d - 150 - leap
  | 6 => d - 180 - leap
  | 7 => d - 211 - leap
  | 8 => d - 242 - leap
  | 9 => d - 272 - leap
  | 10 => d - 303 - leap
  | _ => d - 333 - leap
  end.

Definition WeekDay (t : Date) : Z := (t + 4) mod 7.

(** Days from the start of a year to the start of its month [mn]. *)
Definition DaysBeforeMonth (leap mn : Z) : Z :=
  match mn with
  | 0 => 0
  | 1 => 31
  | 2 => 59 + leap
  | 3 => 90 + leap
  | 4 => 120 + leap
  | 5 => 151 + leap
  | 6 => 181 + leap
  | 7 => 212 + leap
  | 8 => 243 + leap
  | 9 => 273 + leap
  | 10 => 304 + leap
  | _ => 334 + leap
  end.

(** MakeDay: the day number of the first of month [mn] of year [ym], where
    [ym = year + floor(month / 12)] and [mn = month mod 12], plus
    [date - 1]. *)
Definition MakeDay (year month date : Z) : Z :=
  let ym := year + month / 12 in
  let mn := month mod 12 in
  let leap := if DaysInYear ym =? 366 then 1 else 0 in
  DayFromYear ym + DaysBeforeMonth leap mn + date - 1.

(** [new Date(year, month, date)]: a year in 0..99 stands for 1900 + year
    (ECMA-262, 21.4.2.1, step 5.j). *)
Definition newDate (year month date : Z) : Date :=
  let yr := if (0 <=? year) && (year <=? 99) then 1900 + year else year in
  MakeDay yr month date.

Definition getFullYear (t : Date) : Z := YearFromTime t.
Definition getMonth (t : Date) : Z := MonthFromTime t.
Definition getDate (t : Date) : Z := DateFromTime t.
Definition getDay (t : Date) : Z := WeekDay t.

End JSDate.

Import JSDate.

(** ** The calendar grid: [generateCalendarDays]

    The three [for (let i = lo; i <= hi; i++) days.push(...)] loops of the
    source share one shape.  [for_push] is that loop: the condition is
    tested before every iteration, and [for_upto] runs it with as many
    steps as the loop can take. *)
Fixpoint for_push (fuel : nat) (i hi : Z) (body : Z -> Date) (days : list Date)
  : list Date :=
  match fuel with
  | O => days
  | S k =>
      if i <=? hi then for_push k (i + 1) hi body (days ++ [body i]) else days
  end.

Definition for_upto (lo hi : Z) (body : Z -> Date) (days : list Date) : list Date :=
  for_push (Z.to_nat (hi - lo + 1)) lo hi body days.

(** The copy in the file of [FileListView] and [CalendarView], with the
    comments of the source. *)
Module CalendarView.

Definition generateCalendarDays (month : Date) : list Date :=
  let year := getFullYear month in
  let monthIndex := getMonth month in
  (* First day of the month *)
  let firstDay := newDate year monthIndex 1 in
  (* Last day of the month *)
  let lastDay := newDate year (monthIndex + 1) 0 in
  let firstDayOfWeek := getDay firstDay in
  let daysFromPrevMonth := firstDayOfWeek in
  let totalDays := 42 in
  let days := [] in
  (* Add days from previous month *)
  let prevMonth := newDate year monthIndex 0 in
  let prevMonthLastDay := getDate prevMonth in
  let days :=
    for_upto (prevMonthLastDay - daysFromPrevMonth + 1) prevMonthLastDay
      (fun i => newDate year (monthIndex - 1) i) days in
  (* Add days from current month *)
  let currentMonthDays := getDate lastDay in
  let days :=
    for_upto 1 currentMonthDays (fun i => newDate year monthIndex i) days in
  (* Add days from next month *)
  let remainingDays := totalDays - Z.of_nat (length days) in
  for_upto 1 remainingDays (fun i => newDate year (monthIndex + 1) i) days.

End CalendarView.

(** The copy at the end of the file of [LibraryPage] and the record
    page. *)
Module LibraryPage.

Definition generateCalendarDays (month : Date) : list Date :=
  let year := getFullYear month in
  let monthIndex := getMonth month in
  let firstDay := newDate year monthIndex 1 in
  let lastDay := newDate year (monthIndex + 1) 0 in
  let firstDayOfWeek := getDay firstDay in
  let daysFromPrevMonth := firstDayOfWeek in
  let totalDays := 42 in
  let days := [] in
  let prevMonth := newDate year monthIndex 0 in
  let prevMonthLastDay := getDate prevMonth in
  let days :=
    for_upto (prevMonthLastDay - daysFromPrevMonth + 1) prevMonthLastDay
      (fun i => newDate year (monthIndex - 1) i) days in
  let currentMonthDays := getDate lastDay in
  let days :=
    for_upto 1 currentMonthDays (fun i => newDate year monthIndex i) days in
  let remainingDays := totalDays - Z.of_nat (length days) in
  for_upto 1 remainingDays (fun i => newDate year (monthIndex + 1) i) days.

End LibraryPage.

(** [consecutive start n]: the [n] days [start], [start + 1], ... *)
Definition consecutive (start : Date) (n : nat) : list Date :=
  map (fun k => start + Z.of_nat k) (seq 0 n).

(** 6 March 2025, the date of the first mock recording, is a Thursday;
    the day before 1 March 2000 is 29 February; the day before 1 January
    1970 is 31 December 1969. *)
Example newDate_2025_03_06 :
  let d := newDate 2025 2 6 in
  (getFullYear d, getMonth d, getDate d, getDay d) = (2025, 2, 6, 4).
Proof. reflexivity. Qed.

Example newDate_day_zero :
  getDate (newDate 2000 2 0) = 29 /\ getDate (newDate 1900 2 0) = 28 /\
  (getFullYear (newDate 1970 0 0), getMonth (newDate 1970 0 0),
   getDate (newDate 1970 0 0)) = (1969, 11, 31).
Proof. repeat split. Qed.

(** The grid of March 2025: 23..28 February, 1..31 March, 1..5 April. *)
Example grid_march_2025 :
  map getDate (CalendarView.generateCalendarDays (newDate 2025 2 6))
  = [23; 24; 25; 26; 27; 28;
     1; 2; 3; 4; 5; 6; 7; 8; 9; 10; 11; 12; 13; 14; 15; 16; 17; 18; 19; 20;
     21; 22; 23; 24; 25; 26; 27; 28; 29; 30; 31;
     1; 2; 3; 4; 5].
Proof. vm_compute. reflexivity. Qed.

(** *** Facts about the date functions *)
Section DateFacts.

Lemma DayFromYear_succ (y : Z) :
  DayFromYear (y + 1) = DayFromYear y + DaysInYear y.
Proof.
  unfold DayFromYear, DaysInYear.
  replace (y + 1 - 1969) with (y - 1968) by lia.
  replace (y + 1 - 1901) with (y - 1900) by lia.
  replace (y + 1 - 1601) with (y - 1600) by lia.
  assert (H4 : (y - 1968) / 4 = (y - 1969) / 4 + (if y mod 4 =? 0 then 1 else 0)).
  { destruct (Z.eqb_spec (y mod 4) 0); Z.div_mod_to_equations; lia. }
  assert (H100 : (y - 1900) / 100 = (y - 1901) / 100 + (if y mod 100 =? 0 then 1 else 0)).
  { destruct (Z.eqb_spec (y mod 100) 0); Z.div_mod_to_equations; lia. }
  assert (H400 : (y - 1600) / 400 = (y - 1601) / 400 + (if y mod 400 =? 0 then 1 else 0)).
  { destruct (Z.eqb_spec (y mod 400) 0); Z.div_mod_to_equations; lia. }
  rewrite H4, H100, H400.
  assert (y mod 400 = 0 -> y mod 100 = 0) by (intros; Z.div_mod_to_equations; lia).
  assert (y mod 100 = 0 -> y mod 4 = 0) by (intros; Z.div_mod_to_equations; lia).
  destruct (Z.eqb_spec (y mod 4) 0), (Z.eqb_spec (y mod 100) 0),
    (Z.eqb_spec (y mod 400) 0); cbn [negb]; lia.
Qed.

Lemma DaysInYear_bounds (y : Z) : 365 <= DaysInYear y <= 366.
Proof.
  unfold DaysInYear.
  destruct (y mod 4 =? 0), (y mod 100 =? 0), (y mod 400 =? 0); simpl; lia.
Qed.

Lemma DayFromYear_mono (y y' : Z) : y <= y' -> DayFromYear y <= DayFromYear y'.
Proof.
  intros H. unfold DayFromYear. Z.div_mod_to_equations. lia.
Qed.

Lemma YearFromTime_spec (t : Date) :
  DayFromYear (YearFromTime t) <= t < DayFromYear (YearFromTime t + 1).
Proof.
  unfold YearFromTime.
  set (y0 := 1970 + 400 * t / 146097).
  assert (Hlo : DayFromYear (y0 - 1) <= t).
  { unfold DayFromYear, y0. Z.div_mod_to_equations. lia. }
  assert (Hhi : t < DayFromYear (y0 + 2)).
  { unfold DayFromYear, y0. Z.div_mod_to_equations. lia. }
  destruct (Z.ltb_spec t (DayFromYear y0)).
  - replace (y0 - 1 + 1) with y0 by lia. lia.
  - destruct (Z.leb_spec (DayFromYear (y0 + 1)) t).
    + replace (y0 + 1 + 1) with (y0 + 2) by lia. lia.
    + lia.
Qed.

Lemma YearFromTime_unique (t : Date) (y : Z) :
  DayFromYear y <= t < DayFromYear (y + 1) -> YearFromTime t = y.
Proof.
  intros [Hlo Hhi].
  pose proof (YearFromTime_spec t) as [Hlo' Hhi'].
  destruct (Z.lt_trichotomy (YearFromTime t) y) as [Hlt | [Heq | Hgt]].
  - pose proof (DayFromYear_mono (YearFromTime t + 1) y ltac:(lia)). lia.
  - exact Heq.
  - pose proof (DayFromYear_mono (y + 1) (YearFromTime t) ltac:(lia)). lia.
Qed.

(** The leap-day flag of a year, as [MakeDay] and [InLeapYear] compute it. *)
Definition leapOf (y : Z) : Z := if DaysInYear y =? 366 then 1 else 0.

Lemma leapOf_cases (y : Z) :
  (leapOf y = 0 /\ DaysInYear y = 365) \/ (leapOf y = 1 /\ DaysInYear y = 366).
Proof.
  unfold leapOf. pose proof (DaysInYear_bounds y).
  destruct (Z.eqb_spec (DaysInYear y) 366); lia.
Qed.

(** Length of month [mn] (0..11) in a year with leap flag [leap]. *)
Definition DaysInMonth (leap mn : Z) : Z :=
  match mn with
  | 1 => 28 + leap
  | 3 | 5 | 8 | 10 => 30
  | _ => 31
  end.

Ltac month_cases m :=
  let H := fresh in
  assert (H : m = 0 \/ m = 1 \/ m = 2 \/ m = 3 \/ m = 4 \/ m = 5 \/ m = 6 \/
              m = 7 \/ m = 8 \/ m = 9 \/ m = 10 \/ m = 11) by lia;
  repeat (destruct H as [H | H]; [subst m | ]); [ .. | subst m].

Lemma DaysBeforeMonth_succ (leap mn : Z) :
  0 <= mn <= 10 ->
  DaysBeforeMonth leap (mn + 1) = DaysBeforeMonth leap mn + DaysInMonth leap mn.
Proof.
  intros H.
  month_cases mn; try lia;
    match goal with
    | |- context [DaysBeforeMonth _ (?a + 1)] =>
        let v := eval vm_compute in (a + 1) in change (a + 1) with v
    end;
    cbn [DaysBeforeMonth DaysInMonth]; lia.
Qed.

Lemma DaysBeforeMonth_last (leap : Z) :
  DaysBeforeMonth leap 11 + DaysInMonth leap 11 = 365 + leap.
Proof. cbn [DaysBeforeMonth DaysInMonth]. lia. Qed.

(** Months counted from January of year 0: month [n] is month [n mod 12]
    of year [n / 12], which is how [MakeDay] normalises its arguments. *)
Definition FirstOfMonth (n : Z) : Date := MakeDay 0 n 1.

Definition MonthLength (n : Z) : Z := DaysInMonth (leapOf (n / 12)) (n mod 12).

Lemma FirstOfMonth_eq (y m : Z) :
  0 <= m <= 11 ->
  FirstOfMonth (12 * y + m) = DayFromYear y + DaysBeforeMonth (leapOf y) m.
Proof.
  intros Hm. unfold FirstOfMonth, MakeDay, leapOf.
  replace ((12 * y + m) / 12) with y by (Z.div_mod_to_equations; lia).
  replace ((12 * y + m) mod 12) with m by (Z.div_mod_to_equations; lia).
  rewrite Z.add_0_l. lia.
Qed.

Lemma MakeDay_FirstOfMonth (y m d : Z) :
  MakeDay y m d = FirstOfMonth (12 * y + m) + d - 1.
Proof.
  unfold FirstOfMonth, MakeDay.
  replace ((12 * y + m) / 12) with (y + m / 12) by (Z.div_mod_to_equations; lia).
  replace ((12 * y + m) mod 12) with (m mod 12) by (Z.div_mod_to_equations; lia).
  rewrite Z.add_0_l. lia.
Qed.

Lemma month_decompose (n : Z) : n = 12 * (n / 12) + n mod 12 /\ 0 <= n mod 12 <= 11.
Proof. Z.div_mod_to_equations. lia. Qed.

Lemma MonthLength_bounds (n : Z) : 28 <= MonthLength n <= 31.
Proof.
  unfold MonthLength.
  destruct (month_decompose n) as [_ Hm].
  destruct (leapOf_cases (n / 12)) as [[-> _] | [-> _]];
    generalize dependent (n mod 12); intros m Hm;
    month_cases m; cbn [DaysInMonth]; lia.
Qed.

Lemma FirstOfMonth_succ (n : Z) :
  FirstOfMonth (n + 1) = FirstOfMonth n + MonthLength n.
Proof.
  destruct (month_decompose n) as [Hn Hm].
  unfold MonthLength.
  set (y := n / 12) in *. set (m := n mod 12) in *.
  destruct (Z.eq_dec m 11) as [E | E].
  - replace (n + 1) with (12 * (y + 1) + 0) by lia.
    rewrite Hn at 1. rewrite !FirstOfMonth_eq by lia.
    rewrite DayFromYear_succ, E.
    pose proof (DaysBeforeMonth_last (leapOf y)).
    destruct (leapOf_cases y) as [[? ?] | [? ?]];
      cbn [DaysBeforeMonth DaysInMonth] in *; lia.
  - replace (n + 1) with (12 * y + (m + 1)) by lia.
    rewrite Hn at 1. rewrite !FirstOfMonth_eq by lia.
    rewrite DaysBeforeMonth_succ by lia. lia.
Qed.

Lemma FirstOfMonth_pred (n : Z) :
  FirstOfMonth (n - 1) = FirstOfMonth n - MonthLength (n - 1).
Proof.
  pose proof (FirstOfMonth_succ (n - 1)) as H.
  replace (n - 1 + 1) with n in H by lia. lia.
Qed.

Lemma FirstOfMonth_mono (n n' : Z) : n <= n' -> FirstOfMonth n <= FirstOfMonth n'.
Proof.
  intros H. replace n' with (n + Z.of_nat (Z.to_nat (n' - n))) by lia.
  induction (Z.to_nat (n' - n)) as [| k IH].
  - rewrite Z.add_0_r. lia.
  - replace (n + Z.of_nat (S k)) with (n + Z.of_nat k + 1) by lia.
    rewrite FirstOfMonth_succ.
    pose proof (MonthLength_bounds (n + Z.of_nat k)). lia.
Qed.

Lemma DayWithinYear_bounds (t : Date) :
  0 <= DayWithinYear t < 365 + InLeapYear t.
Proof.
  unfold DayWithinYear, InLeapYear. fold (leapOf (YearFromTime t)).
  pose proof (YearFromTime_spec t) as H. rewrite DayFromYear_succ in H.
  destruct (leapOf_cases (YearFromTime t)) as [[? ?] | [? ?]]; lia.
Qed.

Lemma InLeapYear_cases (t : Date) : InLeapYear t = 0 \/ InLeapYear t = 1.
Proof.
  unfold InLeapYear. destruct (DaysInYear (YearFromTime t) =? 366); lia.
Qed.

Ltac split_lt a b :=
  destruct (Z.ltb_spec a b); [cbn [DaysBeforeMonth DaysInMonth]; lia | ].

Lemma MonthFromTime_spec (t : Date) :
  0 <= MonthFromTime t <= 11 /\
  DaysBeforeMonth (InLeapYear t) (MonthFromTime t) <= DayWithinYear t
    < DaysBeforeMonth (InLeapYear t) (MonthFromTime t)
      + DaysInMonth (InLeapYear t) (MonthFromTime t).
Proof.
  unfold MonthFromTime.
  pose proof (DayWithinYear_bounds t) as Hd.
  pose proof (InLeapYear_cases t) as Hl.
  set (d := DayWithinYear t) in *. set (leap := InLeapYear t) in *.
  split_lt d 31. split_lt d (59 + leap). split_lt d (90 + leap).
  split_lt d (120 + leap). split_lt d (151 + leap). split_lt d (181 + leap).
  split_lt d (212 + leap). split_lt d (243 + leap). split_lt d (273 + leap).
  split_lt d (304 + leap). split_lt d (334 + leap).
  cbn [DaysBeforeMonth DaysInMonth]. lia.
Qed.

Lemma DateFromTime_spec (t : Date) :
  DateFromTime t
  = DayWithinYear t - DaysBeforeMonth (InLeapYear t) (MonthFromTime t) + 1.
Proof.
  unfold DateFromTime.
  destruct (MonthFromTime_spec t) as [Hm _].
  set (m := MonthFromTime t) in *. clearbody m.
  month_cases m; cbn [DaysBeforeMonth]; lia.
Qed.

(** Every day lies in exactly one month, the one its getters report. *)
Lemma month_of_day (t : Date) :
  let n := 12 * getFullYear t + getMonth t in
  0 <= getMonth t <= 11 /\
  FirstOfMonth n <= t < FirstOfMonth (n + 1) /\
  getDate t = t - FirstOfMonth n + 1.
Proof.
  unfold getFullYear, getMonth, getDate.
  destruct (MonthFromTime_spec t) as [Hm Hd].
  pose proof (DateFromTime_spec t) as Hdate.
  cbv zeta. rewrite FirstOfMonth_succ.
  unfold MonthLength.
  replace ((12 * YearFromTime t + MonthFromTime t) / 12) with (YearFromTime t)
    by (Z.div_mod_to_equations; lia).
  replace ((12 * YearFromTime t + MonthFromTime t) mod 12) with (MonthFromTime t)
    by (Z.div_mod_to_equations; lia).
  rewrite FirstOfMonth_eq by lia.
  unfold InLeapYear in *. fold (leapOf (YearFromTime t)) in *.
  unfold DayWithinYear in *. lia.
Qed.

Lemma month_unique (t : Date) (n : Z) :
  FirstOfMonth n <= t < FirstOfMonth (n + 1) ->
  12 * getFullYear t + getMonth t = n.
Proof.
  intros [Hlo Hhi].
  destruct (month_of_day t) as (_ & [Hlo' Hhi'] & _).
  set (n' := 12 * getFullYear t + getMonth t) in *.
  destruct (Z.lt_trichotomy n' n) as [Hlt | [Heq | Hgt]].
  - pose proof (FirstOfMonth_mono (n' + 1) n ltac:(lia)). lia.
  - exact Heq.
  - pose proof (FirstOfMonth_mono (n + 1) n' ltac:(lia)). lia.
Qed.

Lemma getters_in_month (t : Date) (n : Z) :
  FirstOfMonth n <= t < FirstOfMonth (n + 1) ->
  getFullYear t = n / 12 /\ getMonth t = n mod 12 /\
  getDate t = t - FirstOfMonth n + 1.
Proof.
  intros H. pose proof (month_unique t n H) as Hn.
  destruct (month_of_day t) as (Hm & _ & Hd).
  rewrite Hn in Hd. repeat split; try exact Hd;
    Z.div_mod_to_equations; lia.
Qed.

End DateFacts.

(** *** The grid computed by [generateCalendarDays] *)
Section CalendarGrid.

Lemma for_push_spec (fuel : nat) (i hi : Z) (body : Z -> Date) (days : list Date) :
  fuel = Z.to_nat (hi - i + 1) ->
  for_push fuel i hi body days = days ++ map body (consecutive i fuel).
Proof.
  revert i days. induction fuel as [| k IH]; intros i days Hf.
  - cbn. now rewrite app_nil_r.
  - cbn [for_push]. destruct (Z.leb_spec i hi); [| lia].
    rewrite IH by lia. rewrite <- app_assoc. f_equal.
    unfold consecutive. cbn [seq map app]. rewrite Z.add_0_r. f_equal.
    rewrite <- seq_shift, !map_map. apply map_ext. intros a. f_equal. lia.
Qed.

Lemma for_upto_spec (lo hi : Z) (body : Z -> Date) (days : list Date) :
  for_upto lo hi body days
  = days ++ map body (consecutive lo (Z.to_nat (hi - lo + 1))).
Proof. unfold for_upto. now apply for_push_spec. Qed.

Lemma map_consecutive (body : Z -> Date) (lo start : Z) (n : nat) :
  (forall k, 0 <= k < Z.of_nat n -> body (lo + k) = start + k) ->
  map body (consecutive lo n) = consecutive start n.
Proof.
  intros H. unfold consecutive. rewrite map_map.
  apply map_ext_in. intros a Ha. apply in_seq in Ha. apply H. lia.
Qed.

Lemma consecutive_length (start : Date) (n : nat) :
  length (consecutive start n) = n.
Proof. unfold consecutive. now rewrite length_map, length_seq. Qed.

Lemma consecutive_In (start : Date) (n : nat) (d : Date) :
  In d (consecutive start n) <-> start <= d < start + Z.of_nat n.
Proof.
  unfold consecutive. rewrite in_map_iff. split.
  - intros (k & <- & Hk). apply in_seq in Hk. lia.
  - intros H. exists (Z.to_nat (d - start)). split; [lia |].
    apply in_seq. lia.
Qed.

Lemma consecutive_S (start : Date) (n : nat) :
  consecutive start (S n) = start :: consecutive (start + 1) n.
Proof.
  unfold consecutive. cbn [seq map]. rewrite Z.add_0_r. f_equal.
  rewrite <- seq_shift, map_map. apply map_ext. intros a. lia.
Qed.

Lemma consecutive_app (start : Date) (n m : nat) :
  consecutive start n ++ consecutive (start + Z.of_nat n) m
  = consecutive start (n + m).
Proof.
  revert start. induction n as [| n IH]; intros start.
  - cbn [Nat.add Z.of_nat]. rewrite Z.add_0_r. reflexivity.
  - cbn [Nat.add]. rewrite !consecutive_S. cbn [app]. f_equal.
    rewrite <- IH. do 2 f_equal. lia.
Qed.

(** The year that [new Date(year, ...)] uses. *)
Definition fullYearOf (year : Z) : Z :=
  if (0 <=? year) && (year <=? 99) then 1900 + year else year.

Lemma newDate_FirstOfMonth (year month date : Z) :
  newDate year month date
  = FirstOfMonth (12 * fullYearOf year + month) + date - 1.
Proof. unfold newDate. fold (fullYearOf year). apply MakeDay_FirstOfMonth. Qed.

Lemma getDate_last (n : Z) : getDate (FirstOfMonth (n + 1) - 1) = MonthLength n.
Proof.
  pose proof (FirstOfMonth_succ n). pose proof (MonthLength_bounds n).
  destruct (getters_in_month (FirstOfMonth (n + 1) - 1) n) as (_ & _ & ->); lia.
Qed.

Lemma WeekDay_bounds (t : Date) : 0 <= WeekDay t <= 6.
Proof. unfold WeekDay. Z.div_mod_to_equations. lia. Qed.

(** The grid for the month that the constructor calls designate: month
    [monthIndex] of year [fullYearOf year]. *)
Lemma grid_of_month (month : Date) :
  let n := 12 * fullYearOf (getFullYear month) + getMonth month in
  let first := FirstOfMonth n in
  let dow := Z.to_nat (getDay first) in
  let len := Z.to_nat (MonthLength n) in
  CalendarView.generateCalendarDays month
  = consecutive (first - getDay first) dow
      ++ consecutive first len
      ++ consecutive (FirstOfMonth (n + 1)) (42 - dow - len).
Proof.
  intros n first dow len.
  unfold CalendarView.generateCalendarDays. cbv zeta.
  rewrite !newDate_FirstOfMonth. fold n.
  replace (12 * fullYearOf (getFullYear month) + (getMonth month + 1))
    with (n + 1) by (unfold n; lia).
  replace (FirstOfMonth n + 1 - 1) with first by (unfold first; lia).
  replace (FirstOfMonth (n + 1) + 0 - 1) with (FirstOfMonth (n + 1) - 1) by lia.
  replace (FirstOfMonth n + 0 - 1) with (FirstOfMonth (n - 1 + 1) - 1)
    by (replace (n - 1 + 1) with n by lia; lia).
  rewrite !getDate_last.
  pose proof (WeekDay_bounds first) as Hdow. fold (getDay first) in Hdow.
  pose proof (MonthLength_bounds n) as Hlen.
  pose proof (MonthLength_bounds (n - 1)) as Hprev.
  pose proof (FirstOfMonth_pred n) as Hpred.
  rewrite !for_upto_spec. cbn [app].
  replace (Z.to_nat (MonthLength (n - 1)
                     - (MonthLength (n - 1) - getDay first + 1) + 1))
    with dow by (unfold dow; lia).
  replace (Z.to_nat (MonthLength n - 1 + 1)) with len by (unfold len; lia).
  rewrite (map_consecutive _ _ (first - getDay first) dow).
  2:{ intros k Hk. rewrite newDate_FirstOfMonth.
      replace (12 * fullYearOf (getFullYear month) + (getMonth month - 1))
        with (n - 1) by (unfold n; lia).
      unfold first. lia. }
  rewrite (map_consecutive _ _ first len).
  2:{ intros k Hk. rewrite newDate_FirstOfMonth. fold n. unfold first. lia. }
  rewrite length_app, !consecutive_length.
  replace (Z.to_nat (42 - Z.of_nat (dow + len) - 1 + 1))
    with (42 - dow - len)%nat by lia.
  rewrite (map_consecutive _ _ (FirstOfMonth (n + 1)) (42 - dow - len)).
  2:{ intros k Hk. rewrite newDate_FirstOfMonth.
      replace (12 * fullYearOf (getFullYear month) + (getMonth month + 1))
        with (n + 1) by (unfold n; lia).
      lia. }
  now rewrite <- app_assoc.
Qed.

Lemma grid_length (month : Date) :
  length (CalendarView.generateCalendarDays month) = 42%nat.
Proof.
  rewrite grid_of_month. cbv zeta.
  set (n := 12 * fullYearOf (getFullYear month) + getMonth month).
  pose proof (WeekDay_bounds (FirstOfMonth n)) as Hdow.
  pose proof (MonthLength_bounds n) as Hlen.
  rewrite !length_app, !consecutive_length. unfold getDay. lia.
Qed.

(** The two copies are the same function. *)
Lemma generateCalendarDays_copies (month : Date) :
  LibraryPage.generateCalendarDays month = CalendarView.generateCalendarDays month.
Proof.
  unfold LibraryPage.generateCalendarDays, CalendarView.generateCalendarDays.
  reflexivity.
Qed.

Lemma in_month_iff (n : Z) (d : Date) :
  FirstOfMonth n <= d < FirstOfMonth (n + 1) <->
  12 * getFullYear d + getMonth d = n.
Proof.
  split.
  - apply month_unique.
  - intros <-. now destruct (month_of_day d) as (_ & H & _).
Qed.

(** For a month whose year is not one of 0..99 the grid is as the calendar
    wants it: the last days of the previous month, one for every weekday
    before the first of the month, then the month itself from its first to
    its last day, then the first days of the next month, 42 days in all. *)
Theorem generateCalendarDays_grid (month : Date) :
  ~ (0 <= getFullYear month <= 99) ->
  let n := 12 * getFullYear month + getMonth month in
  exists (first : Date) (prev cur next : list Date),
    CalendarView.generateCalendarDays month = prev ++ cur ++ next /\
    LibraryPage.generateCalendarDays month = prev ++ cur ++ next /\
    length (prev ++ cur ++ next) = 42%nat /\
    (getFullYear first = getFullYear month /\ getMonth first = getMonth month /\
     getDate first = 1) /\
    Z.of_nat (length prev) = getDay first /\
    prev = consecutive (first - getDay first) (length prev) /\
    (forall d, In d prev -> 12 * getFullYear d + getMonth d = n - 1) /\
    cur = consecutive first (length cur) /\
    (forall d, In d cur <->
       getFullYear d = getFullYear month /\ getMonth d = getMonth month) /\
    next = consecutive (first + Z.of_nat (length cur)) (length next) /\
    (forall d, In d next -> 12 * getFullYear d + getMonth d = n + 1).
Proof.
  intros Hy n.
  assert (Hfy : fullYearOf (getFullYear month) = getFullYear month).
  { unfold fullYearOf.
    destruct (Z.leb_spec 0 (getFullYear month)),
      (Z.leb_spec (getFullYear month) 99); cbn [andb]; lia. }
  pose proof (grid_of_month month) as Hgrid. cbv zeta in Hgrid.
  pose proof (grid_length month) as Hlen42.
  rewrite Hfy in Hgrid. fold n in Hgrid.
  destruct (month_of_day month) as (Hm & _ & _).
  pose proof (WeekDay_bounds (FirstOfMonth n)) as Hdow.
  fold (getDay (FirstOfMonth n)) in Hdow.
  pose proof (MonthLength_bounds n) as Hlen.
  pose proof (MonthLength_bounds (n - 1)) as Hprev.
  pose proof (MonthLength_bounds (n + 1)) as Hnext.
  pose proof (FirstOfMonth_succ n) as Hs.
  pose proof (FirstOfMonth_succ (n + 1)) as Hs'.
  pose proof (FirstOfMonth_pred n) as Hp.
  set (first := FirstOfMonth n) in *.
  set (dow := Z.to_nat (getDay first)) in *.
  set (len := Z.to_nat (MonthLength n)) in *.
  exists first, (consecutive (first - getDay first) dow),
    (consecutive first len), (consecutive (FirstOfMonth (n + 1)) (42 - dow - len)).
  rewrite !consecutive_length.
  split; [exact Hgrid |].
  split; [rewrite generateCalendarDays_copies; exact Hgrid |].
  split; [rewrite <- Hgrid; exact Hlen42 |].
  split.
  { destruct (getters_in_month first n) as (Hy1 & Hm1 & Hd1);
      [unfold first; lia |].
    rewrite Hy1, Hm1, Hd1. subst first n.
    repeat split; Z.div_mod_to_equations; lia. }
  split; [unfold dow; lia |].
  split; [reflexivity |].
  split.
  { intros d Hd. apply consecutive_In in Hd. apply in_month_iff.
    replace (n - 1 + 1) with n by lia. fold first. unfold dow in Hd. lia. }
  split; [reflexivity |].
  split.
  { intros d. rewrite consecutive_In.
    replace (first + Z.of_nat len) with (FirstOfMonth (n + 1))
      by (unfold len; lia).
    unfold first. rewrite in_month_iff.
    destruct (month_of_day d) as (Hmd & _ & _). unfold n. lia. }
  split; [do 2 f_equal; unfold len; lia |].
  intros d Hd. apply consecutive_In in Hd. apply in_month_iff.
  unfold dow, len in Hd. lia.
Qed.

(** C8, where the code departs from it.  For a date of June of the year
    50 (what [setFullYear(50)] leaves in a [Date]) the constructor calls
    read the year 50 as 1950: the grid has its 42 dates, but they are
    those of June 1950, and the days of the given month are not among
    them. *)
Theorem generateCalendarDays_year_50 :
  let month := MakeDay 50 5 15 in
  getFullYear month = 50 /\ getMonth month = 5 /\
  length (CalendarView.generateCalendarDays month) = 42%nat /\
  (forall d, In d (CalendarView.generateCalendarDays month) ->
     getFullYear d = 1950) /\
  ~ (forall d, getFullYear d = getFullYear month /\ getMonth d = getMonth month ->
       In d (CalendarView.generateCalendarDays month)).
Proof.
  cbv zeta. split; [vm_compute; reflexivity |].
  split; [vm_compute; reflexivity |].
  split; [vm_compute; reflexivity |].
  split.
  - intros d Hd.
    assert (H : forallb (fun d => getFullYear d =? 1950)
                  (CalendarView.generateCalendarDays (MakeDay 50 5 15)) = true)
      by (vm_compute; reflexivity).
    rewrite forallb_forall in H. apply Z.eqb_eq. exact (H d Hd).
  - intros H. specialize (H (MakeDay 50 5 1)).
    assert (Hin : In (MakeDay 50 5 1)
                    (CalendarView.generateCalendarDays (MakeDay 50 5 15)))
      by (apply H; vm_compute; split; reflexivity).
    assert (Hall : forallb (fun d => negb (d =? MakeDay 50 5 1))
                  (CalendarView.generateCalendarDays (MakeDay 50 5 15)) = true)
      by (vm_compute; reflexivity).
    rewrite forallb_forall in Hall. specialize (Hall _ Hin).
    cbv beta in Hall. rewrite Z.eqb_refl in Hall. discriminate.
Qed.

End CalendarGrid.

(** ** JavaScript strings

    A string is the list of its code units.  The code units are taken from
    the range 0..255 (Latin-1), on which [toLowerCase] and the white space
    that [trim] removes are given below as ECMA-262 defines them. *)
Module JSString.

Definition jsstring := list ascii.

Definition str (s : string) : jsstring := list_ascii_of_string s.

(** [s.startsWith(p)]. *)
Fixpoint startsWith (s p : jsstring) {struct p} : bool :=
  match p, s with
  | [], _ => true
  | _ :: _, [] => false
  | c :: p', d :: s' => Ascii.eqb c d && startsWith s' p'
  end.

(** [s.includes(sub)]: [sub] starts at some position of [s]. *)
Fixpoint includes (s sub : jsstring) : bool :=
  startsWith s sub ||
  match s with
  | [] => false
  | _ :: s' => includes s' sub
  end.

(** [s.split(sep)] for a separator of one code unit. *)
Fixpoint split (sep : ascii) (s : jsstring) : list jsstring :=
  match s with
  | [] => [[]]
  | c :: s' =>
      if Ascii.eqb c sep then [] :: split sep s'
      else match split sep s' with
           | [] => [[c]]
           | w :: ws => (c :: w) :: ws
           end
  end.

(** [s.substring(1)]. *)
Definition substring1 (s : jsstring) : jsstring := tl s.

Definition lowerUnit (c : ascii) : ascii :=
  let n := nat_of_ascii c in
  if ((65 <=? n) && (n <=? 90))%nat then ascii_of_nat (n + 32)
  else if ((192 <=? n) && (n <=? 222) && negb (n =? 215))%nat
       then ascii_of_nat (n + 32)
  else c.

(** [s.toLowerCase()]. *)
Definition toLowerCase (s : jsstring) : jsstring := map lowerUnit s.

(** WhiteSpace and LineTerminator code units: TAB, LF, VT, FF, CR, SP and
    NBSP. *)
Definition isWhiteSpace (c : ascii) : bool :=
  let n := nat_of_ascii c in
  ((9 <=? n) && (n <=? 13) || (n =? 32) || (n =? 160))%nat.

Fixpoint trimStart (s : jsstring) : jsstring :=
  match s with
  | [] => []
  | c :: s' => if isWhiteSpace c then trimStart s' else s
  end.

Definition trimEnd (s : jsstring) : jsstring := rev (trimStart (rev s)).

(** [s.trim()]. *)
Definition trim (s : jsstring) : jsstring := trimEnd (trimStart s).

(** Truthiness of a string: [Boolean(s)], and [!s] is its negation. *)
Definition truthy (s : jsstring) : bool :=
  match s with
  | [] => false
  | _ :: _ => true
  end.

(** [parts.join(sep)]. *)
Fixpoint join (sep : ascii) (parts : list jsstring) : jsstring :=
  match parts with
  | [] => []
  | [w] => w
  | w :: ws => w ++ sep :: join sep ws
  end.

End JSString.

Import JSString.

(** ** The file list of the library: [FileListView] *)
Module FileListView.

Record Recording := {
  id : jsstring;
  title : jsstring;
  date : Date;
  duration : jsstring;
  hasTranscript : bool;
  hasFullTranscript : bool;
  hasAnalysis : bool
}.

(** The callback of [recordings.filter(...)]. *)
Definition keeps (searchQuery : jsstring) (recording : Recording) : bool :=
  if negb (truthy searchQuery) then true
  else if includes searchQuery (str "*") then
    (* Handle exact match with * *)
    let exactTerms := filter truthy (split "*" searchQuery) in
    forallb (fun term => includes (title recording) term) exactTerms
  else if includes searchQuery (str "-") then
    (* Handle exclusion with - *)
    let terms := split " " searchQuery in
    let includedTerms :=
      filter (fun term => negb (startsWith term (str "-"))) terms in
    let excludedTerms :=
      map substring1 (filter (fun term => startsWith term (str "-")) terms) in
    let includeMatch :=
      (length includedTerms =? 0)%nat ||
      existsb (fun term =>
                 includes (toLowerCase (title recording)) (toLowerCase term))
        includedTerms in
    let excludeMatch :=
      existsb (fun term =>
                 includes (toLowerCase (title recording)) (toLowerCase term))
        excludedTerms in
    includeMatch && negb excludeMatch
  else
    (* Regular search *)
    includes (toLowerCase (title recording)) (toLowerCase searchQuery).

Definition filteredRecordings (recordings : list Recording)
    (searchQuery : jsstring) : list Recording :=
  filter (keeps searchQuery) recordings.

End FileListView.

(** [sub] occurs in [s]. *)
Definition Substring (sub s : jsstring) : Prop :=
  exists pre post, s = pre ++ sub ++ post.

(** [frags] are the pieces into which the separator [sep] cuts [q]: glued
    back with [sep] they give [q], and none of them contains [sep]. *)
Definition Separated (sep : ascii) (q : jsstring) (frags : list jsstring) : Prop :=
  frags <> [] /\ join sep frags = q /\ Forall (fun w => ~ In sep w) frags.

Example split_stars :
  split "*" (str "a**b*") = [str "a"; []; str "b"; []] /\
  split "*" [] = [[]].
Proof. split; reflexivity. Qed.

Example toLowerCase_title :
  toLowerCase (str "Client Interview - Project Alpha")
  = str "client interview - project alpha".
Proof. reflexivity. Qed.

Example trim_spaces : trim (str "  a b  ") = str "a b".
Proof. reflexivity. Qed.

(** The exclusion branch: "team -weekly" drops a title with "weekly" in
    it. *)
Example keeps_exclusion :
  let r := {| FileListView.id := str "1";
              FileListView.title := str "Weekly Team Meeting";
              FileListView.date := newDate 2025 2 6;
              FileListView.duration := str "45:12";
              FileListView.hasTranscript := true;
              FileListView.hasFullTranscript := true;
              FileListView.hasAnalysis := true |} in
  FileListView.keeps (str "team -weekly") r = false /\
  FileListView.keeps (str "team -client") r = true.
Proof. split; reflexivity. Qed.

(** *** Facts about the string functions *)
Section StringFacts.

Lemma ascii_eqb_true (c d : ascii) : Ascii.eqb c d = true <-> c = d.
Proof. apply Ascii.eqb_eq. Qed.

Lemma startsWith_spec (s p : jsstring) :
  startsWith s p = true <-> exists post, s = p ++ post.
Proof.
  revert s. induction p as [| c p IH]; intros s; cbn [startsWith].
  - split; [intros _; now exists s | reflexivity].
  - destruct s as [| d s].
    + split; [discriminate | intros (post & H); discriminate].
    + rewrite andb_true_iff, ascii_eqb_true, IH. split.
      * intros (-> & post & ->). now exists post.
      * intros (post & H). injection H as -> ->. split; [reflexivity |].
        now exists post.
Qed.

Lemma includes_spec (s sub : jsstring) :
  includes s sub = true <-> Substring sub s.
Proof.
  unfold Substring. induction s as [| d s IH]; cbn [includes];
    rewrite orb_true_iff, startsWith_spec.
  - split.
    + intros [(post & H) | H]; [| discriminate]. now exists [], post.
    + intros (pre & post & H). left.
      destruct pre; [now exists post | discriminate].
  - rewrite IH. split.
    + intros [(post & H) | (pre & post & H)].
      * now exists [], post.
      * exists (d :: pre), post. now rewrite H.
    + intros (pre & post & H). destruct pre as [| e pre].
      * left. now exists post.
      * right. injection H as _ H. now exists pre, post.
Qed.

Lemma includes_unit (s : jsstring) (c : ascii) :
  includes s [c] = true <-> In c s.
Proof.
  rewrite includes_spec. unfold Substring. split.
  - intros (pre & post & ->). apply in_or_app. right. now left.
  - intros H. apply in_split in H as (pre & post & ->). now exists pre, post.
Qed.

Lemma includes_unit_false (s : jsstring) (c : ascii) :
  includes s [c] = false <-> ~ In c s.
Proof.
  rewrite <- includes_unit. destruct (includes s [c]); split; intros H;
    try discriminate; try reflexivity; try (intros H'; discriminate).
  now contradiction H.
Qed.

Lemma truthy_spec (w : jsstring) : truthy w = true <-> w <> [].
Proof. destruct w; cbn; split; intros H; congruence. Qed.

Lemma split_nonempty (sep : ascii) (s : jsstring) : split sep s <> [].
Proof.
  induction s as [| c s IH]; cbn [split]; [discriminate |].
  destruct (Ascii.eqb c sep); [discriminate |].
  destruct (split sep s); discriminate.
Qed.

Lemma split_sepfree (sep : ascii) (w : jsstring) :
  ~ In sep w -> split sep w = [w].
Proof.
  induction w as [| c w IH]; intros H; cbn [split]; [reflexivity |].
  destruct (Ascii.eqb_spec c sep) as [-> | _].
  - contradiction H. now left.
  - rewrite IH; [reflexivity |]. intros Hin. apply H. now right.
Qed.

Lemma split_app (sep : ascii) (w rest : jsstring) :
  ~ In sep w -> split sep (w ++ sep :: rest) = w :: split sep rest.
Proof.
  induction w as [| c w IH]; intros H; cbn [split app].
  - now rewrite Ascii.eqb_refl.
  - destruct (Ascii.eqb_spec c sep) as [-> | _].
    + contradiction H. now left.
    + rewrite IH; [reflexivity |]. intros Hin. apply H. now right.
Qed.

Lemma Separated_unique (sep : ascii) (q : jsstring) (frags : list jsstring) :
  Separated sep q frags -> frags = split sep q.
Proof.
  intros (Hne & <- & Hfree).
  induction Hfree as [| w ws Hw Hws IH]; [contradiction |].
  destruct ws as [| w' ws'].
  - cbn [join]. symmetry. now apply split_sepfree.
  - change (join sep (w :: w' :: ws')) with (w ++ sep :: join sep (w' :: ws')).
    rewrite split_app by exact Hw. f_equal. apply IH. discriminate.
Qed.

Lemma Separated_split (sep : ascii) (q : jsstring) :
  Separated sep q (split sep q).
Proof.
  split; [apply split_nonempty |].
  induction q as [| c q (IHj & IHf)]; cbn [split].
  - split; [reflexivity | repeat constructor; intros []].
  - destruct (Ascii.eqb_spec c sep) as [-> | Hc].
    + split.
      * pose proof (split_nonempty sep q) as Hne.
        destruct (split sep q) as [| w ws] eqn:E; [contradiction |].
        change (join sep ([] :: w :: ws)) with ([] ++ sep :: join sep (w :: ws)).
        now rewrite IHj.
      * constructor; [intros [] | exact IHf].
    + pose proof (split_nonempty sep q) as Hne.
      destruct (split sep q) as [| w ws] eqn:E; [contradiction |].
      split.
      * rewrite <- IHj. destruct ws; reflexivity.
      * inversion IHf as [| ? ? Hw Hws]; subst. constructor; [| exact Hws].
        intros [H | H]; [now apply Hc | now apply Hw].
Qed.

End StringFacts.

(** *** The search filter of the file list *)
Section SearchFilter.

Import FileListView.

Lemma keeps_star (q : jsstring) (r : Recording) :
  In "*"%char q ->
  keeps q r = true <->
  forall frag, In frag (split "*" q) -> frag <> [] -> Substring frag (title r).
Proof.
  intros Hstar. unfold keeps.
  assert (Ht : truthy q = true) by (destruct q; [contradiction | reflexivity]).
  rewrite Ht. cbn [negb].
  change (str "*") with ["*"%char].
  apply includes_unit in Hstar. rewrite Hstar.
  rewrite forallb_forall. split.
  - intros H frag Hin Hne. apply includes_spec, H.
    apply filter_In. split; [exact Hin | now apply truthy_spec].
  - intros H term Hin. apply filter_In in Hin as [Hin Htr].
    apply includes_spec, H; [exact Hin | now apply truthy_spec].
Qed.

Lemma keeps_plain (q : jsstring) (r : Recording) :
  ~ In "*"%char q -> ~ In "-"%char q ->
  keeps q r = true <-> Substring (toLowerCase q) (toLowerCase (title r)).
Proof.
  intros Hstar Hdash. unfold keeps.
  destruct q as [| c q'] eqn:E.
  - cbn. split; [| reflexivity]. intros _.
    now exists [], (toLowerCase (title r)).
  - rewrite <- E in *. assert (Ht : truthy q = true) by now subst q.
    rewrite Ht. cbn [negb].
    change (str "*") with ["*"%char]. change (str "-") with ["-"%char].
    apply includes_unit_false in Hstar, Hdash. rewrite Hstar, Hdash.
    apply includes_spec.
Qed.

(** The first of the page's [mockRecordings]. *)
Definition weeklyTeamMeeting : Recording :=
  {| id := str "1";
     title := str "Weekly Team Meeting";
     date := newDate 2025 2 6;
     duration := str "45:12";
     hasTranscript := true;
     hasFullTranscript := true;
     hasAnalysis := true |}.

(** C10.  With a [*] in the query a recording is kept exactly when every
    nonempty piece between the stars occurs in its title as it is written;
    with neither [*] nor [-] in the query it is kept exactly when the
    lower-cased query occurs in the lower-cased title.  The two branches
    differ on case: "weekly" finds "Weekly Team Meeting", "weekly*" does
    not. *)
Theorem filteredRecordings_search :
  (forall (recordings : list Recording) (q : jsstring) (frags : list jsstring)
          (r : Recording),
      In "*"%char q -> Separated "*" q frags ->
      In r (filteredRecordings recordings q) <->
      In r recordings /\
      forall frag, In frag frags -> frag <> [] -> Substring frag (title r)) /\
  (forall (recordings : list Recording) (q : jsstring) (r : Recording),
      ~ In "*"%char q -> ~ In "-"%char q ->
      In r (filteredRecordings recordings q) <->
      In r recordings /\ Substring (toLowerCase q) (toLowerCase (title r))) /\
  (filteredRecordings [weeklyTeamMeeting] (str "weekly") = [weeklyTeamMeeting] /\
   filteredRecordings [weeklyTeamMeeting] (str "weekly*") = []).
Proof.
  split; [| split].
  - intros recordings q frags r Hstar Hsep.
    apply Separated_unique in Hsep. subst frags.
    unfold filteredRecordings. rewrite filter_In.
    now rewrite (keeps_star q r Hstar).
  - intros recordings q r Hstar Hdash.
    unfold filteredRecordings. rewrite filter_In.
    now rewrite (keeps_plain q r Hstar Hdash).
  - split; vm_compute; reflexivity.
Qed.

Lemma filteredRecordings_search_witness :
  In weeklyTeamMeeting
    (filteredRecordings [weeklyTeamMeeting] (str "Team*Meet")) /\
  In weeklyTeamMeeting
    (filteredRecordings [weeklyTeamMeeting] (str "team meet")).
Proof.
  split.
  - apply (proj1 filteredRecordings_search [weeklyTeamMeeting]
             (str "Team*Meet") [str "Team"; str "Meet"] weeklyTeamMeeting).
    + vm_compute. tauto.
    + split; [discriminate | split; [reflexivity |]].
      repeat constructor; vm_compute; intuition discriminate.
    + split; [now left |].
      intros frag [<- | [<- | []]] _.
      * now exists (str "Weekly "), (str " Meeting").
      * now exists (str "Weekly Team "), (str "ing").
  - apply (proj1 (proj2 filteredRecordings_search) [weeklyTeamMeeting]
             (str "team meet") weeklyTeamMeeting).
    + vm_compute. intuition discriminate.
    + vm_compute. intuition discriminate.
    + split; [now left |].
      now exists (str "weekly "), (str "ing").
Defined.

End SearchFilter.

(** ** The curiosity engine's answer form: [CuriosityEngine]

    [questions] and [currentAnswer] are the two pieces of component state;
    an event handler is a function from the state at the time of the event
    to the state after it.  Question ids are the integer literals that
    [generateQuestions] hands out, so [===] on them is [Z.eqb]. *)
Module CuriosityEngine.

Record Question := {
  id : Z;
  text : jsstring;
  answered : option bool;
  answer : option jsstring
}.

Record State := {
  questions : list Question;
  currentAnswer : jsstring
}.

Definition generateQuestions (st : State) : State :=
  {| questions :=
       [ {| id := 1;
            text := str "What are the main risks to the project timeline?";
            answered := None; answer := None |};
         {| id := 2;
            text := str "How will the additional features impact the development resources?";
            answered := None; answer := None |};
         {| id := 3;
            text := str "What specific user experience concerns were mentioned?";
            answered := None; answer := None |};
         {| id := 4;
            text := str "Who will be responsible for the follow-up meeting?";
            answered := None; answer := None |} ];
     currentAnswer := currentAnswer st |}.

(** [{ ...q, answered: true, answer: currentAnswer }]. *)
Definition withAnswer (q : Question) (a : jsstring) : Question :=
  {| id := id q; text := text q; answered := Some true; answer := Some a |}.

Definition submitAnswer (st : State) (qid : Z) : State :=
  if negb (truthy (trim (currentAnswer st))) then st
  else
    {| questions :=
         map (fun q => if id q =? qid then withAnswer q (currentAnswer st) else q)
           (questions st);
       currentAnswer := [] |}.

Definition skipQuestion (st : State) (qid : Z) : State :=
  {| questions := filter (fun q => negb (id q =? qid)) (questions st);
     currentAnswer := currentAnswer st |}.

End CuriosityEngine.

(** A string of white space only (the empty string among them). *)
Definition Blank (s : jsstring) : Prop := Forall (fun c => isWhiteSpace c = true) s.

Section AnswerForm.

Import CuriosityEngine.

Lemma trimStart_nil (s : jsstring) : trimStart s = [] <-> Blank s.
Proof.
  unfold Blank. induction s as [| c s IH]; cbn [trimStart].
  - split; [constructor | reflexivity].
  - destruct (isWhiteSpace c) eqn:E.
    + rewrite IH. split; [now constructor | now inversion 1].
    + split; [discriminate |].
      intros H. apply Forall_inv in H.
      cbv beta in H. rewrite E in H. discriminate.
Qed.

Lemma trimStart_head (s : jsstring) (c : ascii) (s' : jsstring) :
  trimStart s = c :: s' -> isWhiteSpace c = false.
Proof.
  induction s as [| d s IH]; cbn [trimStart]; [discriminate |].
  destruct (isWhiteSpace d) eqn:E; [exact IH |].
  intros H. injection H as <- _. exact E.
Qed.

Lemma Blank_rev (s : jsstring) : Blank (rev s) <-> Blank s.
Proof.
  unfold Blank. rewrite !Forall_forall.
  split; intros H c Hc; apply H; [now apply in_rev in Hc | now apply in_rev].
Qed.

Lemma trim_nil (s : jsstring) : trim s = [] <-> Blank s.
Proof.
  unfold trim, trimEnd. split.
  - intros H. apply (f_equal (@rev ascii)) in H. rewrite rev_involutive in H.
    cbn [rev] in H. apply (proj1 (trimStart_nil _)) in H.
    apply (proj1 (Blank_rev _)) in H.
    destruct (trimStart s) as [| c s'] eqn:E.
    + now apply trimStart_nil.
    + apply trimStart_head in E. apply Forall_inv in H.
      cbv beta in H. rewrite E in H. discriminate.
  - intros H. apply trimStart_nil in H. now rewrite H.
Qed.

Lemma blank_guard (s : jsstring) : negb (truthy (trim s)) = true <-> Blank s.
Proof.
  rewrite <- trim_nil. destruct (trim s); cbn; split; congruence.
Qed.

(** C9.  With a blank current answer [submitAnswer] leaves the questions
    as they are.  With any other answer the list keeps its length and
    order, a question whose id is the argument becomes answered with the
    current answer, and every other question is the one that was there. *)
Theorem submitAnswer_frame (st : State) (qid : Z) :
  (Blank (currentAnswer st) ->
   questions (submitAnswer st qid) = questions st) /\
  (~ Blank (currentAnswer st) ->
   length (questions (submitAnswer st qid)) = length (questions st) /\
   forall (i : nat) (q : Question),
     nth_error (questions st) i = Some q ->
     nth_error (questions (submitAnswer st qid)) i
     = Some (if id q =? qid
             then {| id := id q; text := text q; answered := Some true;
                     answer := Some (currentAnswer st) |}
             else q)).
Proof.
  unfold submitAnswer. split; intros Hb.
  - apply blank_guard in Hb. now rewrite Hb.
  - destruct (negb (truthy (trim (currentAnswer st)))) eqn:E.
    + now apply blank_guard in E.
    + cbn [questions]. split; [apply length_map |].
      intros i q Hq. rewrite nth_error_map, Hq. reflexivity.
Qed.

(** The four demo questions of [generateQuestions]. *)
Definition demoQuestions : list Question :=
  questions (generateQuestions {| questions := []; currentAnswer := [] |}).

Lemma submitAnswer_frame_witness :
  questions (submitAnswer
               {| questions := demoQuestions; currentAnswer := str "  " |} 2)
  = demoQuestions /\
  nth_error
    (questions (submitAnswer
                  {| questions := demoQuestions; currentAnswer := str "Dana" |} 2))
    1
  = Some {| id := 2;
            text := str "How will the additional features impact the development resources?";
            answered := Some true; answer := Some (str "Dana") |}.
Proof.
  split.
  - apply (proj1 (submitAnswer_frame
                    {| questions := demoQuestions; currentAnswer := str "  " |} 2)).
    cbn [currentAnswer]. repeat constructor.
  - apply (proj2 (proj2 (submitAnswer_frame
                    {| questions := demoQuestions; currentAnswer := str "Dana" |} 2)
                    ltac:(cbn [currentAnswer]; intros H; apply Forall_inv in H;
                          discriminate))
             1%nat
             {| id := 2;
                text := str "How will the additional features impact the development resources?";
                answered := None; answer := None |}).
    reflexivity.
Defined.

End AnswerForm.

(** ** The live transcript: [LiveTranscript]

    The component keeps the transcript in one piece of state and, while
    [isRecording] holds, an interval whose callback reads the mutable
    [currentIndex] of the effect's closure.  The effect's cleanup clears the
    interval whenever [isRecording] changes, so at most one interval is
    live; [interval] holds its [currentIndex]. *)
Module LiveTranscript.

Definition demoTexts : list jsstring :=
  [ str "Hello and welcome to our weekly team meeting.";
    str "Today we'll be discussing the Q1 results and our plans for Q2.";
    str "Let's start by reviewing our key metrics from the last quarter.";
    str "Revenue grew by 15% compared to the previous quarter, which exceeded our target of 12%.";
    str "Customer acquisition cost decreased by 8%, which is a positive trend.";
    str "Our user retention rate remained stable at 85%, but we're aiming to improve this to 90% in Q2." ].

Record State := {
  isRecording : bool;
  transcript : jsstring;
  interval : option nat
}.

(** The component as mounted, before its effect has run. *)
Definition mounted : State :=
  {| isRecording := false; transcript := []; interval := None |}.

(** The updater [(prev) => prev + (prev ? " " : "") + text]. *)
Definition ingest (prev text : jsstring) : jsstring :=
  prev ++ (if truthy prev then str " " else []) ++ text.

(** [texts[i]] inside a string concatenation: past the end of the array it
    is [undefined], which concatenates as "undefined". *)
Definition textAt (texts : list jsstring) (i : nat) : jsstring :=
  nth i texts (str "undefined").

Inductive Event :=
| Render (recording : bool)   (* the parent renders it with this [isRecording] *)
| Tick (eager : bool).        (* the interval fires *)

(** One event.  [texts] is the array the effect declares ([demoTexts] in
    the source).

    [Render]: when the prop changes, the cleanup of the previous effect
    clears its interval and the effect runs again, starting a new interval
    at [currentIndex = 0] if the component is recording.

    [Tick]: the callback of the live interval.  React runs the updater
    either at the [setTranscript] call, when it reads [currentIndex] as the
    callback found it ([eager = true], the reading of the source from top
    to bottom), or at the next render, after [currentIndex++]. *)
Definition step (texts : list jsstring) (st : State) (e : Event) : State :=
  match e with
  | Render recording =>
      if Bool.eqb recording (isRecording st) then st
      else {| isRecording := recording;
              transcript := transcript st;
              interval := if recording then Some 0%nat else None |}
  | Tick eager =>
      match interval st with
      | None => st
      | Some currentIndex =>
          if (currentIndex <? length texts)%nat then
            let read := if eager then currentIndex else S currentIndex in
            {| isRecording := isRecording st;
               transcript := ingest (transcript st) (textAt texts read);
               interval := Some (S currentIndex) |}
          else
            {| isRecording := isRecording st;
               transcript := transcript st;
               interval := None |}
      end
  end.

Definition run (texts : list jsstring) (st : State) (events : list Event) : State :=
  fold_left (step texts) events st.

End LiveTranscript.

(** [p] is a prefix of [s]. *)
Definition Prefix (p s : jsstring) : Prop := exists rest, s = p ++ rest.

Section TranscriptFacts.

Import LiveTranscript.

Lemma Prefix_refl (s : jsstring) : Prefix s s.
Proof. exists []. now rewrite app_nil_r. Qed.

Lemma Prefix_trans (a b c : jsstring) : Prefix a b -> Prefix b c -> Prefix a c.
Proof.
  intros (r1 & ->) (r2 & ->). exists (r1 ++ r2). now rewrite app_assoc.
Qed.

Lemma ingest_Prefix (prev text : jsstring) : Prefix prev (ingest prev text).
Proof. unfold ingest. now eexists. Qed.

Lemma step_Prefix (texts : list jsstring) (st : State) (e : Event) :
  Prefix (transcript st) (transcript (step texts st e)).
Proof.
  destruct e as [recording | eager]; cbn [step].
  - destruct (Bool.eqb recording (isRecording st)); apply Prefix_refl.
  - destruct (interval st) as [currentIndex |]; [| apply Prefix_refl].
    destruct (currentIndex <? length texts)%nat; cbn [transcript].
    + apply ingest_Prefix.
    + apply Prefix_refl.
Qed.

Lemma run_Prefix (texts : list jsstring) (events : list Event) (st : State) :
  Prefix (transcript st) (transcript (run texts st events)).
Proof.
  revert st. induction events as [| e events IH]; intros st.
  - apply Prefix_refl.
  - cbn [run fold_left]. eapply Prefix_trans; [apply step_Prefix |].
    apply IH.
Qed.

(** C2.  Whatever texts the effect is given and whatever the component
    goes through, the transcript at a later point starts with the
    transcript of every earlier point: text once in the transcript is
    never rewritten. *)
Theorem transcript_monotonic (texts : list jsstring) (st : State)
    (earlier later : list Event) :
  Prefix (transcript (run texts st earlier))
         (transcript (run texts st (earlier ++ later))).
Proof.
  unfold run. rewrite fold_left_app. apply run_Prefix.
Qed.





End TranscriptFacts.

(** ** The recorder of the record page: [RecordPage]

    [startRecording], [pauseRecording], [resumeRecording] and
    [stopRecording] with the two handlers they install on the
    [MediaRecorder].  A chunk is whatever [event.data] carries; the page
    never looks inside it. *)
Module RecordPage.

Section Recorder.

Context {Chunk : Type}.

(** [MediaRecorder.state]. *)
Inductive RecorderState := inactive | recording | paused.

Record Page := {
  mediaRecorder : option RecorderState;   (* mediaRecorderRef.current *)
  onstop : bool;                          (* its onstop handler is set *)
  audioChunks : list Chunk;               (* audioChunksRef.current *)
  isRecording : bool;
  isPaused : bool;
  audioBlob : option (list Chunk)         (* the Blob that onstop made last *)
}.

Definition initial : Page :=
  {| mediaRecorder := None; onstop := false; audioChunks := [];
     isRecording := false; isPaused := false; audioBlob := None |}.

Inductive Event :=
| StartRecording (granted : bool)   (* the button; getUserMedia resolves or not *)
| PauseRecording
| ResumeRecording
| StopRecording
| DataAvailable (data : Chunk)      (* the recorder's dataavailable event *)
| Stopped.                          (* the recorder's stop event *)

Definition step (st : Page) (e : Event) : Page :=
  match e with
  | StartRecording granted =>
      if granted then
        {| mediaRecorder := Some recording; onstop := false; audioChunks := [];
           isRecording := true; isPaused := false; audioBlob := audioBlob st |}
      else st
  | PauseRecording =>
      match mediaRecorder st with
      | Some recording =>
          {| mediaRecorder := Some paused; onstop := onstop st;
             audioChunks := audioChunks st; isRecording := isRecording st;
             isPaused := true; audioBlob := audioBlob st |}
      | _ => st
      end
  | ResumeRecording =>
      match mediaRecorder st with
      | Some paused =>
          {| mediaRecorder := Some recording; onstop := onstop st;
             audioChunks := audioChunks st; isRecording := isRecording st;
             isPaused := false; audioBlob := audioBlob st |}
      | _ => st
      end
  | StopRecording =>
      match mediaRecorder st with
      | Some _ =>
          {| mediaRecorder := Some inactive; onstop := true;
             audioChunks := audioChunks st; isRecording := isRecording st;
             isPaused := isPaused st; audioBlob := audioBlob st |}
      | None => st
      end
  | DataAvailable data =>
      match mediaRecorder st with
      | Some s =>
          {| mediaRecorder := Some s; onstop := onstop st;
             audioChunks := audioChunks st ++ [data];
             isRecording := isRecording st; isPaused := isPaused st;
             audioBlob := audioBlob st |}
      | None => st
      end
  | Stopped =>
      if onstop st then
        {| mediaRecorder := mediaRecorder st; onstop := onstop st;
           audioChunks := audioChunks st; isRecording := false;
           isPaused := false; audioBlob := Some (audioChunks st) |}
      else st
  end.

Definition run (st : Page) (events : list Event) : Page :=
  fold_left step events st.

(** The chunks that the events of a recording deliver, in the order of
    their delivery. *)
Fixpoint captured (events : list Event) : list Chunk :=
  match events with
  | [] => []
  | DataAvailable data :: rest => data :: captured rest
  | _ :: rest => captured rest
  end.

Definition isStart (e : Event) : bool :=
  match e with
  | StartRecording _ => true
  | _ => false
  end.

End Recorder.

Arguments Page : clear implicits.
Arguments Event : clear implicits.

End RecordPage.

Section RecorderFacts.

Import RecordPage.

Context {Chunk : Type}.

Lemma step_keeps_recorder (st : Page Chunk) (e : Event Chunk) :
  isStart e = false -> mediaRecorder st <> None ->
  mediaRecorder (step st e) <> None.
Proof.
  intros He Hr. destruct e; try discriminate; cbn [step].
  - destruct (mediaRecorder st) as [[] |] eqn:E; cbn; congruence.
  - destruct (mediaRecorder st) as [[] |] eqn:E; cbn; congruence.
  - destruct (mediaRecorder st) eqn:E; cbn; congruence.
  - destruct (mediaRecorder st) eqn:E; cbn; congruence.
  - destruct (onstop st); cbn; congruence.
Qed.

Lemma step_chunks (st : Page Chunk) (e : Event Chunk) :
  isStart e = false -> mediaRecorder st <> None ->
  audioChunks (step st e) = audioChunks st ++ captured [e].
Proof.
  intros He Hr. destruct e; try discriminate; cbn [step captured].
  - destruct (mediaRecorder st) as [[] |]; cbn; now rewrite app_nil_r.
  - destruct (mediaRecorder st) as [[] |]; cbn; now rewrite app_nil_r.
  - destruct (mediaRecorder st); cbn; now rewrite app_nil_r.
  - destruct (mediaRecorder st); [reflexivity | contradiction].
  - destruct (onstop st); cbn; now rewrite app_nil_r.
Qed.

Lemma captured_cons (e : Event Chunk) (events : list (Event Chunk)) :
  captured (e :: events) = captured [e] ++ captured events.
Proof. destruct e; reflexivity. Qed.

Lemma run_chunks (events : list (Event Chunk)) (st : Page Chunk) :
  forallb (fun e => negb (isStart e)) events = true ->
  mediaRecorder st <> None ->
  audioChunks (run st events) = audioChunks st ++ captured events.
Proof.
  revert st. induction events as [| e events IH]; intros st Hev Hr.
  - cbn. now rewrite app_nil_r.
  - cbn [forallb] in Hev. apply andb_true_iff in Hev as [He Hev].
    apply negb_true_iff in He.
    cbn [run fold_left]. fold (run (step st e) events).
    rewrite IH; [| exact Hev | now apply step_keeps_recorder].
    rewrite step_chunks by assumption.
    now rewrite (captured_cons e events), app_assoc.
Qed.


(** C5, as the page has it.  Every chunk that a dataavailable event
    delivers is put at the end of the chunk list and stays there: after
    any number of deliveries the list is the old list followed by all the
    delivered chunks, so it is longer by their number and its oldest chunk
    is still the first. *)
Theorem chunks_all_kept (st : Page Chunk) (chunks : list Chunk) :
  mediaRecorder st <> None ->
  audioChunks (run st (map DataAvailable chunks)) = audioChunks st ++ chunks /\
  length (audioChunks (run st (map DataAvailable chunks)))
  = (length (audioChunks st) + length chunks)%nat.
Proof.
  intros Hr.
  assert (H : audioChunks (run st (map DataAvailable chunks))
              = audioChunks st ++ chunks).
  { rewrite run_chunks.
    - f_equal. induction chunks as [| a l IH]; cbn; [reflexivity | now rewrite IH].
    - apply forallb_forall. intros e He.
      apply in_map_iff in He as (c & <- & _). reflexivity.
    - exact Hr. }
  split; [exact H |]. now rewrite H, length_app.
Qed.

End RecorderFacts.

Section RecorderRuns.

Import RecordPage.


(** C5 does not hold of the page.  The chunk list has no capacity:
    whatever bound is proposed, one more chunk than the bound is queued,
    the oldest among them. *)
Lemma chunk_list_unbounded :
  ~ (exists capacity : nat,
       forall chunks : list nat,
         (length (audioChunks
                    (run (step initial (StartRecording true))
                       (map DataAvailable chunks))) <= capacity)%nat).
Proof.
  intros (capacity & H). specialize (H (repeat 0%nat (S capacity))).
  rewrite run_chunks in H.
  - cbn [step audioChunks app] in H.
    assert (Hcap : forall l : list nat, captured (map DataAvailable l) = l)
      by (induction l as [| a l IH]; cbn; [reflexivity | now rewrite IH]).
    rewrite Hcap, repeat_length in H. lia.
  - apply forallb_forall. intros e He. apply in_map_iff in He as (c & <- & _).
    reflexivity.
  - discriminate.
Qed.

Lemma chunks_all_kept_witness :
  audioChunks (run (step (@initial nat) (StartRecording true))
                 (map DataAvailable [7; 8; 9]%nat))
  = [7; 8; 9]%nat.
Proof.
  exact (proj1 (chunks_all_kept (step (@initial nat) (StartRecording true))
                  [7; 8; 9]%nat ltac:(discriminate))).
Defined.

End RecorderRuns.

(** ** The transcription link's reconnect discipline *)
Module TranscriptionLink.

(** Modelled from the spec: the [ConnectionState] enumeration of the data
    model; the link that owns it is not among the sources. *)
Inductive ConnectionState :=
  Disconnected | Connecting | Streaming | Reconnecting | Closed.

(** Modelled from the spec: the two errors the link raises,
    [ConnectionError] from a failed [connect()] and the fatal [LinkLost]. *)
Inductive LinkError := ConnectionError | LinkLost.

(** Modelled from the spec: the backoff parameters of section 4.2 (base
    1 s, factor 2, cap 30 s, jitter +-20 %) and the cap of 10 on
    reconnection attempts.  Times are in milliseconds. *)
Definition baseDelay : Z := 1000.

(** Modelled from the spec: the backoff factor. *)
Definition backoffFactor : Z := 2.

(** Modelled from the spec: the backoff cap, 30 s. *)
Definition delayCap : Z := 30000.

(** Modelled from the spec: the jitter band, in per cent. *)
Definition jitterPercent : Z := 20.

(** Modelled from the spec: the cap on reconnection attempts. *)
Definition maxAttempts : nat := 10.

(** Modelled from the spec: the delay before the retry that follows the
    [n]-th consecutive failure ([n] counted from 1), without jitter: the
    base times the factor to the [n - 1], at most the cap. *)
Definition nominalDelay (n : nat) : Z :=
  Z.min (baseDelay * backoffFactor ^ Z.of_nat (n - 1)) delayCap.

(** Modelled from the spec: jitter of +-20 %.  [jitter] is what the random
    source drew, in per cent; a draw outside the band counts as the
    nearest end of it. *)
Definition jittered (nominal jitter : Z) : Z :=
  let j := Z.max (- jitterPercent) (Z.min jitterPercent jitter) in
  nominal * (100 + j) / 100.

(** Modelled from the spec: the link, with the number of consecutive
    failed reconnection attempts, the delays it has scheduled and the
    errors it has surfaced to the session owner, oldest first. *)
Record Link := {
  state : ConnectionState;
  failures : nat;
  delays : list Z;
  surfaced : list LinkError
}.

(** Modelled from the spec: a link before [connect()]. *)
Definition fresh : Link :=
  {| state := Disconnected; failures := 0; delays := []; surfaced := [] |}.

(** Modelled from the spec: what happens to a link, [connect()] and
    [close()] from its owner and the outcomes of its connection attempts
    and of its transport. *)
Inductive Event :=
| Connect                      (* connect() is called *)
| ConnectSucceeded             (* the attempt under way succeeds *)
| ConnectFailed (jitter : Z)   (* it fails; [jitter] is the draw for the delay *)
| TransportFailure             (* the transport fails while streaming *)
| Close.                       (* close() *)

(** Modelled from the spec: the state machine of section 4.2,
    [Disconnected -> Connecting -> Streaming -> {Reconnecting -> Streaming
    | Closed}].  A failed [connect()] raises [ConnectionError] and leaves
    the link [Disconnected].  A transport failure while [Streaming] starts
    reconnecting.  A failed reconnection attempt that is not the tenth in
    a row schedules the next attempt after the jittered backoff delay; the
    tenth closes the link and surfaces [LinkLost].  [close()] closes the
    link from any state, and a closed link takes no further step. *)
Definition step (l : Link) (e : Event) : Link :=
  match state l, e with
  | Closed, _ => l
  | _, Close =>
      {| state := Closed; failures := failures l; delays := delays l;
         surfaced := surfaced l |}
  | Disconnected, Connect =>
      {| state := Connecting; failures := failures l; delays := delays l;
         surfaced := surfaced l |}
  | Connecting, ConnectSucceeded =>
      {| state := Streaming; failures := 0; delays := delays l;
         surfaced := surfaced l |}
  | Connecting, ConnectFailed _ =>
      {| state := Disconnected; failures := failures l; delays := delays l;
         surfaced := surfaced l ++ [ConnectionError] |}
  | Streaming, TransportFailure =>
      {| state := Reconnecting; failures := 0; delays := delays l;
         surfaced := surfaced l |}
  | Reconnecting, ConnectSucceeded =>
      {| state := Streaming; failures := 0; delays := delays l;
         surfaced := surfaced l |}
  | Reconnecting, ConnectFailed jitter =>
      let n := S (failures l) in
      if (maxAttempts <=? n)%nat then
        {| state := Closed; failures := n; delays := delays l;
           surfaced := surfaced l ++ [LinkLost] |}
      else
        {| state := Reconnecting; failures := n;
           delays := delays l ++ [jittered (nominalDelay n) jitter];
           surfaced := surfaced l |}
  | _, _ => l
  end.

(** Modelled from the spec: a link going through a sequence of events. *)
Definition run (l : Link) (events : list Event) : Link :=
  fold_left step events l.

(** Modelled from the spec: the link as a transport failure leaves it,
    reconnecting with no failed attempt yet. *)
Definition reconnecting : Link :=
  step (step (step fresh Connect) ConnectSucceeded) TransportFailure.

End TranscriptionLink.

Section Backoff.

Import TranscriptionLink.

(** The delays that consecutive failures schedule, the first of them being
    failure number [S f]. *)
Fixpoint backoffSchedule (f : nat) (jitters : list Z) : list Z :=
  match jitters with
  | [] => []
  | j :: rest => jittered (nominalDelay (S f)) j :: backoffSchedule (S f) rest
  end.

Lemma backoffSchedule_length (f : nat) (jitters : list Z) :
  length (backoffSchedule f jitters) = length jitters.
Proof.
  revert f. induction jitters as [| j rest IH]; intros f; cbn; [| rewrite IH];
    reflexivity.
Qed.

Lemma backoffSchedule_nth (jitters : list Z) (f k : nat) (d : Z) :
  nth_error (backoffSchedule f jitters) k = Some d ->
  exists j, d = jittered (nominalDelay (S (f + k))) j.
Proof.
  revert f k. induction jitters as [| j rest IH]; intros f k H.
  - destruct k; discriminate.
  - destruct k as [| k]; cbn in H.
    + injection H as <-. exists j. now rewrite Nat.add_0_r.
    + apply IH in H as (j' & ->). exists j'. do 3 f_equal. lia.
Qed.

Lemma nominalDelay_eq (k : nat) :
  nominalDelay (S k) = Z.min (1000 * 2 ^ Z.of_nat k) 30000.
Proof.
  unfold nominalDelay, baseDelay, backoffFactor, delayCap.
  now replace (S k - 1)%nat with k by lia.
Qed.

Lemma nominalDelay_hundreds (n : nat) : exists q, nominalDelay n = 100 * q /\ 0 < q.
Proof.
  unfold nominalDelay, baseDelay, backoffFactor, delayCap.
  pose proof (Z.pow_pos_nonneg 2 (Z.of_nat (n - 1)) ltac:(lia) ltac:(lia)).
  destruct (Z.min_spec (1000 * 2 ^ Z.of_nat (n - 1)) 30000) as [[_ ->] | [_ ->]].
  - exists (10 * 2 ^ Z.of_nat (n - 1)). lia.
  - exists 300. lia.
Qed.

Lemma jittered_band (n : nat) (j : Z) :
  4 * nominalDelay n <= 5 * jittered (nominalDelay n) j <= 6 * nominalDelay n.
Proof.
  destruct (nominalDelay_hundreds n) as (q & -> & Hq).
  unfold jittered, jitterPercent.
  set (c := Z.max (- (20)) (Z.min 20 j)).
  assert (Hc : -20 <= c <= 20) by (unfold c; lia).
  replace (100 * q * (100 + c)) with (q * (100 + c) * 100) by lia.
  rewrite Z.div_mul by lia. nia.
Qed.

Lemma run_closed (events : list Event) (l : Link) :
  state l = Closed -> run l events = l.
Proof.
  intros H. induction events as [| e events IH]; [reflexivity |].
  cbn [run fold_left]. unfold step at 2. rewrite H. exact IH.
Qed.

Lemma run_failures (jitters : list Z) (l : Link) :
  state l = Reconnecting ->
  (failures l + length jitters < maxAttempts)%nat ->
  run l (map ConnectFailed jitters)
  = {| state := Reconnecting;
       failures := failures l + length jitters;
       delays := delays l ++ backoffSchedule (failures l) jitters;
       surfaced := surfaced l |}.
Proof.
  revert l. induction jitters as [| j rest IH]; intros l Hs Hlt.
  - cbn. rewrite Nat.add_0_r, app_nil_r. destruct l; cbn in *. now subst.
  - cbn [map run fold_left length] in *. fold (run (step l (ConnectFailed j)) (map ConnectFailed rest)).
    assert (Hstep : step l (ConnectFailed j)
                    = {| state := Reconnecting; failures := S (failures l);
                         delays := delays l ++ [jittered (nominalDelay (S (failures l))) j];
                         surfaced := surfaced l |}).
    { unfold step. rewrite Hs.
      destruct (Nat.leb_spec maxAttempts (S (failures l))); [lia | reflexivity]. }
    rewrite Hstep, IH; cbn [state failures delays surfaced]; [| reflexivity | lia].
    cbn [backoffSchedule]. rewrite <- app_assoc. cbn [app].
    f_equal. lia.
Qed.

(** C6.  From a link that has just started reconnecting, a run of
    consecutive failed attempts schedules one retry delay after each of
    the first nine failures; the delay after failure [k + 1] lies within
    20 per cent of [min (1 s * 2 ^ k) 30 s]; as long as there are fewer
    than ten failures the link keeps reconnecting and surfaces nothing;
    with the tenth the link is closed, [LinkLost] is surfaced once, and no
    later failure schedules a retry or surfaces anything more. *)
Theorem reconnect_backoff (l : Link) (jitters : list Z) :
  state l = Reconnecting -> failures l = 0%nat ->
  let l' := run l (map ConnectFailed jitters) in
  (exists scheduled,
     delays l' = delays l ++ scheduled /\
     length scheduled = Nat.min (length jitters) 9 /\
     forall k d, nth_error scheduled k = Some d ->
       4 * Z.min (1000 * 2 ^ Z.of_nat k) 30000 <= 5 * d
       <= 6 * Z.min (1000 * 2 ^ Z.of_nat k) 30000) /\
  ((length jitters < 10)%nat ->
     state l' = Reconnecting /\ surfaced l' = surfaced l) /\
  ((10 <= length jitters)%nat ->
     state l' = Closed /\ surfaced l' = surfaced l ++ [LinkLost]).
Proof.
  intros Hs Hf l'.
  assert (Hband : forall js k d,
             nth_error (backoffSchedule 0 js) k = Some d ->
             4 * Z.min (1000 * 2 ^ Z.of_nat k) 30000 <= 5 * d
             <= 6 * Z.min (1000 * 2 ^ Z.of_nat k) 30000).
  { intros js k d H. apply backoffSchedule_nth in H as (j & ->).
    cbn [Nat.add]. rewrite <- nominalDelay_eq. apply jittered_band. }
  destruct (Nat.lt_ge_cases (length jitters) 10) as [Hlt | Hge].
  - assert (Hrun := run_failures jitters l Hs). rewrite Hf in Hrun.
    specialize (Hrun ltac:(unfold maxAttempts; lia)). fold l' in Hrun.
    split; [| split; [intros _ | lia]].
    + exists (backoffSchedule 0 jitters). rewrite Hrun. cbn [delays].
      split; [reflexivity |]. split; [| apply Hband].
      rewrite backoffSchedule_length. lia.
    + rewrite Hrun. now split.
  - assert (Hsplit : jitters = firstn 9 jitters ++ skipn 9 jitters)
      by (symmetry; apply firstn_skipn).
    assert (Hlen9 : length (firstn 9 jitters) = 9%nat)
      by (rewrite length_firstn; lia).
    destruct (skipn 9 jitters) as [| j10 rest] eqn:Hskip.
    { apply (f_equal (@length Z)) in Hskip. rewrite length_skipn in Hskip.
      cbn in Hskip. lia. }
    set (js9 := firstn 9 jitters) in *. clearbody js9.
    assert (Hrun := run_failures js9 l Hs).
    rewrite Hf, Hlen9 in Hrun.
    specialize (Hrun ltac:(unfold maxAttempts; lia)).
    assert (Hl' : l' = {| state := Closed; failures := 10;
                          delays := delays l ++ backoffSchedule 0 js9;
                          surfaced := surfaced l ++ [LinkLost] |}).
    { unfold l'. rewrite Hsplit, map_app. unfold run. rewrite fold_left_app.
      fold (run l (map ConnectFailed js9)). rewrite Hrun.
      cbn [map fold_left].
      match goal with |- fold_left step ?evs ?x = _ =>
        change (fold_left step evs x) with (run x evs) end.
      rewrite run_closed; reflexivity. }
    split; [| split; [lia | intros _]].
    + exists (backoffSchedule 0 js9). rewrite Hl'. cbn [delays].
      split; [reflexivity |]. split; [| apply Hband].
      rewrite backoffSchedule_length, Hlen9. lia.
    + rewrite Hl'. now split.
Qed.

Lemma reconnect_backoff_witness :
  (exists scheduled,
     delays (run reconnecting (map ConnectFailed [0; 0; 0]))
     = delays reconnecting ++ scheduled /\
     length scheduled = Nat.min 3 9 /\
     forall k d, nth_error scheduled k = Some d ->
       4 * Z.min (1000 * 2 ^ Z.of_nat k) 30000 <= 5 * d
       <= 6 * Z.min (1000 * 2 ^ Z.of_nat k) 30000) /\
  state (run reconnecting (map ConnectFailed [0; 5; -5; 0; 0; 0; 0; 0; 0; 0; 0]))
  = Closed.
Proof.
  split.
  - exact (proj1 (reconnect_backoff reconnecting [0; 0; 0] eq_refl eq_refl)).
  - exact (proj1 (proj2 (proj2 (reconnect_backoff reconnecting
                    [0; 5; -5; 0; 0; 0; 0; 0; 0; 0; 0] eq_refl eq_refl))
                    ltac:(cbn; lia))).
Defined.

(** The scenario of the spec: three failures in a row, without jitter,
    schedule 1 s, 2 s and 4 s, and the fourth attempt succeeds. *)
Example three_failures_then_success :
  let l := run reconnecting
             [ConnectFailed 0; ConnectFailed 0; ConnectFailed 0; ConnectSucceeded] in
  delays l = [1000; 2000; 4000] /\ state l = Streaming /\ surfaced l = [].
Proof. repeat split. Qed.

End Backoff.

(** ** The trigger detector *)
Module TriggerDetector.

(** Modelled from the spec: a configured trigger, its id and its phrase;
    the detector and its configuration are not among the sources. *)
Record Trigger := {
  trigger_id : nat;
  phrase : jsstring
}.

(** Modelled from the spec: the [TriggerEvent] of the data model,
    {trigger_id, matched_phrase, transcript_offset, timestamp}. *)
Record TriggerEvent := {
  event_trigger : nat;
  matched_phrase : jsstring;
  transcript_offset : nat;
  timestamp : Z
}.

(** Modelled from the spec: the event a trigger raises for a match at
    [offset]. *)
Definition eventOf (offset : nat) (now : Z) (t : Trigger) : TriggerEvent :=
  {| event_trigger := trigger_id t; matched_phrase := phrase t;
     transcript_offset := offset; timestamp := now |}.

(** Modelled from the spec: the phrase matcher of section 4.4, a
    case-insensitive match of [p] at the start of [text]. *)
Definition matchesHere (text p : jsstring) : bool :=
  startsWith (toLowerCase text) (toLowerCase p).

(** Modelled from the spec: all the configured matchers run at one
    position; every phrase that matches fires, whatever else matches
    there. *)
Definition matchesAt (config : list Trigger) (text : jsstring) (offset : nat)
    (now : Z) : list TriggerEvent :=
  map (eventOf offset now) (filter (fun t => matchesHere text (phrase t)) config).

(** Modelled from the spec: the matchers run at every position of the text
    from left to right, [offset] being the transcript offset of the
    position at hand. *)
Fixpoint scanFrom (config : list Trigger) (text : jsstring) (offset : nat)
    (now : Z) : list TriggerEvent :=
  matchesAt config text offset now ++
  match text with
  | [] => []
  | _ :: rest => scanFrom config rest (S offset) now
  end.

(** Modelled from the spec: [scan(newly_finalized_segment)] of section
    4.4, over the text of the segment alone; [start_offset] is the
    segment's offset in the transcript. *)
Definition scan (config : list Trigger) (start_offset : nat) (text : jsstring)
    (now : Z) : list TriggerEvent :=
  scanFrom config text start_offset now.

End TriggerDetector.

(** [p] occurs in [text] at position [i], letter case aside. *)
Definition OccursAt (p text : jsstring) (i : nat) : Prop :=
  exists pre mid post,
    text = pre ++ mid ++ post /\ length pre = i /\
    toLowerCase mid = toLowerCase p.

Section TriggerFacts.

Import TriggerDetector.

Definition TriggerEvent_eq_dec (x y : TriggerEvent) : {x = y} + {x <> y}.
Proof.
  decide equality.
  - apply Z.eq_dec.
  - apply Nat.eq_dec.
  - apply (list_eq_dec ascii_dec).
  - apply Nat.eq_dec.
Defined.

Lemma matchesHere_spec (text p : jsstring) :
  matchesHere text p = true <->
  exists mid post, text = mid ++ post /\ toLowerCase mid = toLowerCase p.
Proof.
  unfold matchesHere, toLowerCase. rewrite startsWith_spec. split.
  - intros (post' & H).
    exists (firstn (length p) text), (skipn (length p) text).
    split; [now rewrite firstn_skipn |].
    rewrite <- firstn_map, H, <- (length_map lowerUnit p).
    now rewrite firstn_app, Nat.sub_diag, firstn_all, app_nil_r.
  - intros (mid & post & -> & H). exists (map lowerUnit post).
    now rewrite map_app, H.
Qed.

Lemma OccursAt_0 (p text : jsstring) :
  OccursAt p text 0 <-> matchesHere text p = true.
Proof.
  rewrite matchesHere_spec. unfold OccursAt. split.
  - intros (pre & mid & post & -> & Hl & H).
    destruct pre; [| discriminate]. now exists mid, post.
  - intros (mid & post & -> & H). now exists [], mid, post.
Qed.

Lemma OccursAt_S (p : jsstring) (c : ascii) (text : jsstring) (i : nat) :
  OccursAt p (c :: text) (S i) <-> OccursAt p text i.
Proof.
  unfold OccursAt. split.
  - intros (pre & mid & post & E & Hl & H).
    destruct pre as [| d pre]; [discriminate |].
    injection E as -> ->. injection Hl as Hl. now exists pre, mid, post.
  - intros (pre & mid & post & -> & Hl & H).
    exists (c :: pre), mid, post. cbn. now rewrite Hl.
Qed.

Lemma OccursAt_nil (p : jsstring) (i : nat) :
  OccursAt p [] (S i) -> False.
Proof.
  intros (pre & mid & post & E & Hl & _). destruct pre; discriminate.
Qed.

Lemma scanFrom_In (config : list Trigger) (now : Z) (text : jsstring)
    (offset : nat) (e : TriggerEvent) :
  In e (scanFrom config text offset now) <->
  exists t i, In t config /\ OccursAt (phrase t) text i /\
              e = eventOf (offset + i) now t.
Proof.
  revert offset. induction text as [| c text IH]; intros offset;
    cbn [scanFrom]; rewrite in_app_iff; unfold matchesAt;
    rewrite in_map_iff; setoid_rewrite filter_In.
  - split.
    + intros [(t & <- & Ht & Hm) | []]. exists t, 0%nat.
      rewrite Nat.add_0_r. now rewrite OccursAt_0.
    + intros (t & i & Ht & Ho & ->). left. destruct i as [| i].
      * exists t. rewrite Nat.add_0_r. now rewrite <- OccursAt_0.
      * now apply OccursAt_nil in Ho.
  - rewrite IH. split.
    + intros [(t & <- & Ht & Hm) | (t & i & Ht & Ho & ->)].
      * exists t, 0%nat. rewrite Nat.add_0_r. now rewrite OccursAt_0.
      * exists t, (S i). rewrite OccursAt_S.
        now replace (offset + S i)%nat with (S offset + i)%nat by lia.
    + intros (t & i & Ht & Ho & ->). destruct i as [| i].
      * left. exists t. rewrite Nat.add_0_r. now rewrite <- OccursAt_0.
      * right. exists t, i. apply OccursAt_S in Ho.
        now replace (offset + S i)%nat with (S offset + i)%nat by lia.
Qed.

Lemma scanFrom_offset (config : list Trigger) (now : Z) (text : jsstring)
    (offset : nat) (e : TriggerEvent) :
  In e (scanFrom config text offset now) -> (offset <= transcript_offset e)%nat.
Proof.
  rewrite scanFrom_In. intros (t & i & _ & _ & ->). cbn. lia.
Qed.

Lemma matchesAt_offset (config : list Trigger) (now : Z) (text : jsstring)
    (offset : nat) (e : TriggerEvent) :
  In e (matchesAt config text offset now) -> transcript_offset e = offset.
Proof.
  unfold matchesAt. rewrite in_map_iff. now intros (t & <- & _).
Qed.

Lemma matchesAt_NoDup (config : list Trigger) (now : Z) (text : jsstring)
    (offset : nat) :
  NoDup (map trigger_id config) -> NoDup (matchesAt config text offset now).
Proof.
  intros H. unfold matchesAt.
  apply (NoDup_map_inv event_trigger). rewrite map_map. cbn [eventOf event_trigger].
  induction config as [| t config IH]; cbn [filter map]; [constructor |].
  inversion H as [| ? ? Hnotin Hnd]; subst.
  destruct (matchesHere text (phrase t)); [| now apply IH].
  cbn [map]. constructor; [| now apply IH].
  intros Hin. apply Hnotin. apply in_map_iff in Hin as (t' & <- & Hin).
  apply filter_In in Hin as [Hin _]. now apply in_map.
Qed.

Lemma scanFrom_NoDup (config : list Trigger) (now : Z) (text : jsstring)
    (offset : nat) :
  NoDup (map trigger_id config) -> NoDup (scanFrom config text offset now).
Proof.
  intros H. revert offset. induction text as [| c text IH]; intros offset;
    cbn [scanFrom].
  - rewrite app_nil_r. now apply matchesAt_NoDup.
  - apply NoDup_app; [now apply matchesAt_NoDup | apply IH |].
    intros e H1 H2. apply matchesAt_offset in H1.
    apply scanFrom_offset in H2. lia.
Qed.

Lemma scanFrom_sorted (config : list Trigger) (now : Z) (text : jsstring)
    (offset : nat) :
  StronglySorted le (map transcript_offset (scanFrom config text offset now)).
Proof.
  revert offset. induction text as [| c text IH]; intros offset;
    cbn [scanFrom].
  - rewrite app_nil_r. unfold matchesAt. rewrite map_map. cbn.
    induction (filter _ config); cbn; constructor; [assumption |].
    apply Forall_forall. intros x Hx. apply in_map_iff in Hx as (? & <- & _). lia.
  - rewrite map_app.
    assert (Hall : Forall (fun o => (offset <= o)%nat)
                     (map transcript_offset (scanFrom config text (S offset) now))).
    { apply Forall_forall. intros o Ho. apply in_map_iff in Ho as (e & <- & He).
      apply scanFrom_offset in He. lia. }
    specialize (IH (S offset)).
    unfold matchesAt. rewrite map_map. cbn [eventOf transcript_offset].
    induction (filter _ config) as [| t l IHl]; cbn [map app]; [exact IH |].
    constructor; [exact IHl |].
    apply Forall_app. split; [| exact Hall].
    apply Forall_forall. intros x Hx. apply in_map_iff in Hx as (? & <- & _). lia.
Qed.

(** C7.  Over the text of a newly finalized segment, with triggers of
    distinct ids: for every configured phrase and every position at which
    it occurs the scan holds exactly one event, with that trigger's id and
    phrase and with the transcript offset of that position; it holds no
    other event; and its events are in the order of their positions in
    the text.  Two phrases that overlap, or that start at the same
    position, each have their occurrence, so both fire. *)
Theorem scan_emits_every_match (config : list Trigger) (start_offset : nat)
    (text : jsstring) (now : Z) :
  NoDup (map trigger_id config) ->
  let events := scan config start_offset text now in
  (forall t i, In t config -> OccursAt (phrase t) text i ->
     count_occ TriggerEvent_eq_dec events (eventOf (start_offset + i) now t)
     = 1%nat) /\
  (forall e, In e events ->
     exists t i, In t config /\ OccursAt (phrase t) text i /\
                 e = eventOf (start_offset + i) now t) /\
  StronglySorted le (map transcript_offset events).
Proof.
  intros Hnd events. split; [| split].
  - intros t i Ht Ho.
    apply (proj1 (NoDup_count_occ' TriggerEvent_eq_dec events)).
    + now apply scanFrom_NoDup.
    + apply scanFrom_In. now exists t, i.
  - intros e He. now apply scanFrom_In in He.
  - apply scanFrom_sorted.
Qed.

(** The phrases of the spec's scenario: "[ACTION]" and a second phrase
    that is a prefix of it. *)
Definition actionTrigger : Trigger :=
  {| trigger_id := 1; phrase := str "[ACTION]" |}.

Definition actTrigger : Trigger :=
  {| trigger_id := 2; phrase := str "[ACT" |}.

Lemma scan_emits_every_match_witness :
  let text := str "let's mark this [action] item" in
  let events := scan [actionTrigger; actTrigger] 100 text 0 in
  count_occ TriggerEvent_eq_dec events (eventOf 116 0 actionTrigger) = 1%nat /\
  count_occ TriggerEvent_eq_dec events (eventOf 116 0 actTrigger) = 1%nat.
Proof.
  cbv zeta.
  pose proof (scan_emits_every_match [actionTrigger; actTrigger] 100
                (str "let's mark this [action] item") 0
                ltac:(repeat constructor; cbn; intuition discriminate))
    as (Hone & _ & _).
  split.
  - apply (Hone actionTrigger 16%nat); [now left |].
    now exists (str "let's mark this "), (str "[action]"), (str " item").
  - apply (Hone actTrigger 16%nat); [right; now left |].
    now exists (str "let's mark this "), (str "[act"), (str "ion] item").
Defined.

(** The scenario of the spec: one configured phrase, one occurrence, one
    event at its offset; with the second phrase configured too, both
    fire. *)
Example scan_action_item :
  let text := str "...let's mark this [ACTION] item..." in
  scan [actionTrigger] 0 text 0 = [eventOf 19 0 actionTrigger] /\
  scan [actionTrigger; actTrigger] 0 text 0
  = [eventOf 19 0 actionTrigger; eventOf 19 0 actTrigger].
Proof. split; reflexivity. Qed.

End TriggerFacts.

(** ** The simulated insights of the record page: [simulateAIInsights]

    What the sources have in the place of an analysis stage: an interval
    that, every five seconds, appends a canned insight to [aiInsights].
    Nothing is requested and nothing is awaited; the page keeps no handle
    on the interval, so each [startRecording] adds one that runs until its
    insights are used up.  [intervals] holds the [currentIndex] of every
    live interval.  An entry of [aiInsights] is [demoInsights[i]] as
    JavaScript reads it: [None] stands for [undefined], the element past
    the end of the array. *)
Module InsightSimulation.

Definition demoInsights : list jsstring :=
  [ str "Key topics: Revenue growth, Customer acquisition, User retention";
    str "Sentiment: Positive discussion about Q1 results";
    str "Action items detected: Improve user retention rate to 90%";
    str "Question raised: How can we reduce customer acquisition costs further?";
    str "Suggestion: Consider implementing a referral program to improve retention" ].

Record State := {
  aiInsights : list (option jsstring);
  intervals : list nat
}.

Inductive Event :=
| SimulateAIInsights             (* called by startRecording *)
| Fire (k : nat) (eager : bool). (* the k-th live interval fires *)

Fixpoint fireAt (k : nat) (intervals : list nat)
  : option (nat * list nat * list nat) :=
  match intervals, k with
  | [], _ => None
  | i :: rest, O => Some (i, [], rest)
  | i :: rest, S k' =>
      match fireAt k' rest with
      | Some (j, before, after) => Some (j, i :: before, after)
      | None => None
      end
  end.

(** [Fire]: the callback of a live interval.  The updater
    [(prev) => [...prev, demoInsights[currentIndex]]] reads the
    [currentIndex] of the closure when React runs it: at the
    [setAiInsights] call ([eager = true]) or at the next render, after
    [currentIndex++]. *)
Definition step (st : State) (e : Event) : State :=
  match e with
  | SimulateAIInsights =>
      {| aiInsights := aiInsights st; intervals := intervals st ++ [0%nat] |}
  | Fire k eager =>
      match fireAt k (intervals st) with
      | None => st
      | Some (currentIndex, before, after) =>
          if (currentIndex <? length demoInsights)%nat then
            let read := if eager then currentIndex else S currentIndex in
            {| aiInsights := aiInsights st ++ [nth_error demoInsights read];
               intervals := before ++ S currentIndex :: after |}
          else
            {| aiInsights := aiInsights st; intervals := before ++ after |}
      end
  end.

Definition run (st : State) (events : list Event) : State :=
  fold_left step events st.

End InsightSimulation.

Section InsightFacts.

Import InsightSimulation.

(** Every firing of the one interval of a recording puts an entry on the
    page, whenever its updater is run: after [n] firings there are [n]
    entries, and none has given way to a later one. *)
Lemma every_firing_delivers (eager : list bool) :
  (length eager <= length demoInsights)%nat ->
  let st := run {| aiInsights := []; intervals := [] |}
              (SimulateAIInsights :: map (Fire 0) eager) in
  length (aiInsights st) = length eager /\ intervals st = [length eager].
Proof.
  intros Hn. cbv zeta.
  repeat (destruct eager as [| [] eager];
          [split; reflexivity | | ]; cbn [length] in Hn);
    try (split; reflexivity); cbn in Hn; lia.
Qed.

End InsightFacts.

(** ** The analysis scheduler *)
Module AnalysisScheduler.

(** Modelled from the spec: the [trigger_reason] of an [AnalysisWindow];
    the scheduler is not among the sources, whose [simulateAIInsights]
    shows canned insights on a timer and sends no request. *)
Inductive TriggerReason := timer | word_count | silence | manual | trigger_phrase.

(** Modelled from the spec: the [AnalysisWindow] of the data model,
    {window_id, transcript_slice, trigger_reason, template_id}. *)
Record AnalysisWindow := {
  window_id : nat;
  slice_start : nat;
  slice_end : nat;
  trigger_reason : TriggerReason;
  template_id : nat
}.

(** Modelled from the spec: the [status] of an [AnalysisResult]. *)
Inductive Status := ok | failed | superseded.

(** Modelled from the spec: the [AnalysisResult] of the data model. *)
Record AnalysisResult := {
  result_window : nat;
  insight_text : jsstring;
  generated_questions : list jsstring;
  status : Status
}.

(** Modelled from the spec: the state per session of section 4.5,
    [idle | window_open | awaiting_result]; while awaiting, the window in
    flight and the number of retries spent on it. *)
Inductive Phase :=
| idle
| window_open
| awaiting_result (w : AnalysisWindow) (retries : nat).

(** Modelled from the spec: the bounded retry count of section 4.5. *)
Definition maxRetries : nat := 2.

(** Modelled from the spec: the scheduler of one session.  [requests] are
    the window ids for which the analysis client owes an answer,
    [submissions] every id ever handed to it; [queued] is the one pending
    window; [delivered] are the results emitted to the session, and
    [supersededIds] the windows marked superseded, both oldest first. *)
Record Scheduler := {
  phase : Phase;
  queued : option AnalysisWindow;
  next_window : nat;
  slice_from : nat;
  template : nat;
  requests : list nat;
  submissions : list nat;
  delivered : list AnalysisResult;
  supersededIds : list nat
}.

(** Modelled from the spec: the scheduler at record-start. *)
Definition initial (template0 : nat) : Scheduler :=
  {| phase := idle; queued := None; next_window := 0; slice_from := 0;
     template := template0; requests := []; submissions := [];
     delivered := []; supersededIds := [] |}.

(** Modelled from the spec: what the scheduler reacts to: finalized text,
    a boundary condition, a template switch, and the analysis client's
    answer or failure (a timeout included) for a window. *)
Inductive Event :=
| TextFinalized
| Boundary (reason : TriggerReason) (end_offset : nat)
| SwitchTemplate (t : nat)
| ClientOk (wid : nat) (text : jsstring) (questions : list jsstring)
| ClientFailed (wid : nat).

(** Modelled from the spec: handing a window to the analysis client. *)
Definition submit (s : Scheduler) (w : AnalysisWindow) (retries : nat) : Scheduler :=
  {| phase := awaiting_result w retries; queued := queued s;
     next_window := next_window s; slice_from := slice_from s;
     template := template s;
     requests := requests s ++ [window_id w];
     submissions := submissions s ++ [window_id w];
     delivered := delivered s; supersededIds := supersededIds s |}.

(** Modelled from the spec: back to [idle] once a window is done with,
    "and if a window was queued, immediately opens it". *)
Definition advance (s : Scheduler) : Scheduler :=
  let s0 :=
    {| phase := idle; queued := None;
       next_window := next_window s; slice_from := slice_from s;
       template := template s; requests := requests s;
       submissions := submissions s; delivered := delivered s;
       supersededIds := supersededIds s |} in
  match queued s with
  | Some w => submit s0 w 0
  | None => s0
  end.

(** Modelled from the spec: emitting a result to the session. *)
Definition deliver (s : Scheduler) (r : AnalysisResult) : Scheduler :=
  {| phase := phase s; queued := queued s;
     next_window := next_window s; slice_from := slice_from s;
     template := template s; requests := requests s;
     submissions := submissions s; delivered := delivered s ++ [r];
     supersededIds := supersededIds s |}.

(** Modelled from the spec: the answer to request [wid] is in; it is no
    longer owed. *)
Definition answered (s : Scheduler) (wid : nat) : Scheduler :=
  {| phase := phase s; queued := queued s;
     next_window := next_window s; slice_from := slice_from s;
     template := template s; requests := remove Nat.eq_dec wid (requests s);
     submissions := submissions s; delivered := delivered s;
     supersededIds := supersededIds s |}.

(** Modelled from the spec: the rules of section 4.5.  A boundary
    condition closes the current window; the new [AnalysisWindow] is
    submitted if nothing is awaited and queued otherwise, taking the place
    of a window queued before it, which is marked superseded.  Success
    emits the result with [status = ok] and moves on; failure retries the
    same window up to [maxRetries] times, then emits [status = failed] and
    moves on.  An answer that is not for the window awaited is discarded.
    A template switch applies to windows opened after it. *)
Definition step (s : Scheduler) (e : Event) : Scheduler :=
  match e with
  | TextFinalized =>
      match phase s with
      | idle =>
          {| phase := window_open; queued := queued s;
             next_window := next_window s; slice_from := slice_from s;
             template := template s; requests := requests s;
             submissions := submissions s; delivered := delivered s;
             supersededIds := supersededIds s |}
      | _ => s
      end
  | SwitchTemplate t =>
      {| phase := phase s; queued := queued s;
         next_window := next_window s; slice_from := slice_from s;
         template := t; requests := requests s;
         submissions := submissions s; delivered := delivered s;
         supersededIds := supersededIds s |}
  | Boundary reason end_offset =>
      let w := {| window_id := next_window s; slice_start := slice_from s;
                  slice_end := end_offset; trigger_reason := reason;
                  template_id := template s |} in
      let s1 :=
        {| phase := phase s; queued := queued s;
           next_window := S (next_window s); slice_from := end_offset;
           template := template s; requests := requests s;
           submissions := submissions s; delivered := delivered s;
           supersededIds := supersededIds s |} in
      match phase s with
      | awaiting_result _ _ =>
          {| phase := phase s1; queued := Some w;
             next_window := next_window s1; slice_from := slice_from s1;
             template := template s1; requests := requests s1;
             submissions := submissions s1; delivered := delivered s1;
             supersededIds :=
               supersededIds s1 ++
               match queued s with
               | Some old => [window_id old]
               | None => []
               end |}
      | _ => submit s1 w 0
      end
  | ClientOk wid text questions =>
      if existsb (Nat.eqb wid) (requests s) then
        let s1 := answered s wid in
        match phase s with
        | awaiting_result w _ =>
            if (window_id w =? wid)%nat then
              advance (deliver s1 {| result_window := wid; insight_text := text;
                                     generated_questions := questions;
                                     status := ok |})
            else s1
        | _ => s1
        end
      else s
  | ClientFailed wid =>
      if existsb (Nat.eqb wid) (requests s) then
        let s1 := answered s wid in
        match phase s with
        | awaiting_result w retries =>
            if (window_id w =? wid)%nat then
              if (retries <? maxRetries)%nat then submit s1 w (S retries)
              else
                advance (deliver s1 {| result_window := wid; insight_text := [];
                                       generated_questions := [];
                                       status := failed |})
            else s1
        | _ => s1
        end
      else s
  end.

(** Modelled from the spec: a session's scheduler going through a
    sequence of events. *)
Definition run (s : Scheduler) (events : list Event) : Scheduler :=
  fold_left step events s.

End AnalysisScheduler.

Section SchedulerFacts.

Import AnalysisScheduler.

(** What holds of a scheduler throughout a session. *)
Record Inv (s : Scheduler) : Prop := {
  inv_phase :
    match phase s with
    | awaiting_result w _ =>
        requests s = [window_id w] /\ In (window_id w) (submissions s)
    | _ => requests s = [] /\ queued s = None
    end;
  inv_submissions : forall i, In i (submissions s) -> (i < next_window s)%nat;
  inv_superseded : forall i, In i (supersededIds s) -> (i < next_window s)%nat;
  inv_queued :
    forall w, queued s = Some w ->
      (window_id w < next_window s)%nat /\
      ~ In (window_id w) (submissions s) /\
      ~ In (window_id w) (supersededIds s);
  inv_apart : forall i, In i (supersededIds s) -> ~ In i (submissions s);
  inv_delivered :
    forall r, In r (delivered s) ->
      In (result_window r) (submissions s) /\ status r <> superseded
}.

Lemma Inv_initial (template0 : nat) : Inv (initial template0).
Proof.
  constructor; cbn.
  - now split.
  - intros i [].
  - intros i [].
  - discriminate.
  - intros i [].
  - intros r [].
Qed.

Lemma existsb_eqb_In (wid : nat) (l : list nat) :
  existsb (Nat.eqb wid) l = true <-> In wid l.
Proof.
  rewrite existsb_exists. split.
  - intros (x & Hx & E). apply Nat.eqb_eq in E. now subst.
  - intros H. exists wid. split; [exact H | apply Nat.eqb_refl].
Qed.

Lemma remove_single (wid : nat) : remove Nat.eq_dec wid [wid] = [].
Proof. cbn. destruct (Nat.eq_dec wid wid); [reflexivity | contradiction]. Qed.

Lemma Inv_advance (s : Scheduler) :
  requests s = [] ->
  (forall i, In i (submissions s) -> (i < next_window s)%nat) ->
  (forall i, In i (supersededIds s) -> (i < next_window s)%nat) ->
  (forall w, queued s = Some w ->
     (window_id w < next_window s)%nat /\
     ~ In (window_id w) (submissions s) /\
     ~ In (window_id w) (supersededIds s)) ->
  (forall i, In i (supersededIds s) -> ~ In i (submissions s)) ->
  (forall r, In r (delivered s) ->
     In (result_window r) (submissions s) /\ status r <> superseded) ->
  Inv (advance s).
Proof.
  intros Hreq Hsub Hsup Hq Hap Hdel. unfold advance.
  destruct (queued s) as [w |] eqn:E.
  - destruct (Hq w eq_refl) as (Hw1 & Hw2 & Hw3).
    constructor; cbn.
    + rewrite Hreq. split; [reflexivity |]. apply in_or_app. right. now left.
    + intros i Hi. apply in_app_or in Hi as [Hi | [<- | []]]; auto.
    + exact Hsup.
    + discriminate.
    + intros i Hi Hin. apply in_app_or in Hin as [Hin | [<- | []]].
      * now apply (Hap i).
      * contradiction.
    + intros r Hr. destruct (Hdel r Hr) as [H1 H2]. split; [| exact H2].
      apply in_or_app. now left.
  - constructor; cbn; auto; discriminate.
Qed.

Lemma Inv_step (s : Scheduler) (e : Event) : Inv s -> Inv (step s e).
Proof.
  intros [Hph Hsub Hsup Hq Hap Hdel].
  destruct e as [| reason end_offset | t | wid text questions | wid];
    cbn [step].
  - destruct (phase s) eqn:E;
      constructor; cbn; rewrite ?E; auto.
  - destruct (phase s) as [| | w retries] eqn:E.
    + destruct Hph as [Hreq Hnone]. constructor; cbn.
      * rewrite Hreq. split; [reflexivity |]. apply in_or_app. right. now left.
      * intros i Hi. apply in_app_or in Hi as [Hi | [<- | []]];
          [apply Hsub in Hi |]; lia.
      * intros i Hi. apply Hsup in Hi. lia.
      * rewrite Hnone. discriminate.
      * intros i Hi Hin. apply in_app_or in Hin as [Hin | [<- | []]].
        -- now apply (Hap i).
        -- apply Hsup in Hi. lia.
      * intros r Hr. destruct (Hdel r Hr) as [H1 H2]. split; [| exact H2].
        apply in_or_app. now left.
    + destruct Hph as [Hreq Hnone]. constructor; cbn.
      * rewrite Hreq. split; [reflexivity |]. apply in_or_app. right. now left.
      * intros i Hi. apply in_app_or in Hi as [Hi | [<- | []]];
          [apply Hsub in Hi |]; lia.
      * intros i Hi. apply Hsup in Hi. lia.
      * rewrite Hnone. discriminate.
      * intros i Hi Hin. apply in_app_or in Hin as [Hin | [<- | []]].
        -- now apply (Hap i).
        -- apply Hsup in Hi. lia.
      * intros r Hr. destruct (Hdel r Hr) as [H1 H2]. split; [| exact H2].
        apply in_or_app. now left.
    + constructor; cbn.
      * exact Hph.
      * intros i Hi. apply Hsub in Hi. lia.
      * intros i Hi. apply in_app_or in Hi as [Hi | Hi].
        -- apply Hsup in Hi. lia.
        -- destruct (queued s) as [old |] eqn:Eq; [| destruct Hi].
           destruct Hi as [<- | []]. destruct (Hq old eq_refl). lia.
      * intros w' Hw'. injection Hw' as <-. cbn. split; [lia |]. split.
        -- intros Hin. apply Hsub in Hin. lia.
        -- intros Hin. apply in_app_or in Hin as [Hin | Hin].
           ++ apply Hsup in Hin. lia.
           ++ destruct (queued s) as [old |] eqn:Eq; [| destruct Hin].
              destruct Hin as [Hin | []]. destruct (Hq old eq_refl). lia.
      * intros i Hi. apply in_app_or in Hi as [Hi | Hi]; [now apply Hap |].
        destruct (queued s) as [old |] eqn:Eq; [| destruct Hi].
        destruct Hi as [<- | []]. now destruct (Hq old eq_refl) as (_ & ? & _).
      * exact Hdel.
  - constructor; cbn; auto.
  - destruct (existsb (Nat.eqb wid) (requests s)) eqn:Ex;
      [| now constructor].
    apply existsb_eqb_In in Ex.
    destruct (phase s) as [| | w retries] eqn:E.
    + destruct Hph as [Hreq _]. rewrite Hreq in Ex. destruct Ex.
    + destruct Hph as [Hreq _]. rewrite Hreq in Ex. destruct Ex.
    + destruct Hph as [Hreq Hin]. rewrite Hreq in Ex.
      destruct Ex as [<- | []]. rewrite Nat.eqb_refl.
      apply Inv_advance; cbn; auto.
      * rewrite Hreq. apply remove_single.
      * intros r Hr. apply in_app_or in Hr as [Hr | [<- | []]]; auto.
        cbn. split; [exact Hin | discriminate].
  - destruct (existsb (Nat.eqb wid) (requests s)) eqn:Ex;
      [| now constructor].
    apply existsb_eqb_In in Ex.
    destruct (phase s) as [| | w retries] eqn:E.
    + destruct Hph as [Hreq _]. rewrite Hreq in Ex. destruct Ex.
    + destruct Hph as [Hreq _]. rewrite Hreq in Ex. destruct Ex.
    + destruct Hph as [Hreq Hin]. rewrite Hreq in Ex.
      destruct Ex as [<- | []]. rewrite Nat.eqb_refl.
      destruct (retries <? maxRetries)%nat.
      * constructor; cbn.
        -- rewrite Hreq, remove_single. split; [reflexivity |].
           apply in_or_app. now left.
        -- intros i Hi. apply in_app_or in Hi as [Hi | [<- | []]]; auto.
        -- exact Hsup.
        -- intros w' Hw'. destruct (Hq w' Hw') as (H1 & H2 & H3).
           split; [exact H1 |]. split; [| exact H3].
           intros Hi. apply in_app_or in Hi as [Hi | [Hi | []]]; [auto |].
           apply H2. now rewrite <- Hi.
        -- intros i Hi Hi'. apply in_app_or in Hi' as [Hi' | [<- | []]].
           ++ now apply (Hap i).
           ++ now apply (Hap _ Hi).
        -- intros r Hr. destruct (Hdel r Hr) as [H1 H2]. split; [| exact H2].
           apply in_or_app. now left.
      * apply Inv_advance; cbn; auto.
        -- rewrite Hreq. apply remove_single.
        -- intros r Hr. apply in_app_or in Hr as [Hr | [<- | []]]; auto.
           cbn. split; [exact Hin | discriminate].
Qed.

Lemma Inv_run (events : list Event) (s : Scheduler) : Inv s -> Inv (run s events).
Proof.
  revert s. induction events as [| e events IH]; intros s H; [exact H |].
  cbn [run fold_left]. apply IH. now apply Inv_step.
Qed.

Lemma run_snoc (s : Scheduler) (events : list Event) (e : Event) :
  run s (events ++ [e]) = step (run s events) e.
Proof. unfold run. now rewrite fold_left_app. Qed.

Lemma superseded_step (s : Scheduler) (e : Event) (i : nat) :
  In i (supersededIds s) -> In i (supersededIds (step s e)).
Proof.
  intros H. destruct e as [| reason end_offset | t | wid text questions | wid];
    cbn [step].
  - destruct (phase s); exact H.
  - destruct (phase s); cbn; [exact H | exact H |].
    apply in_or_app. now left.
  - exact H.
  - destruct (existsb (Nat.eqb wid) (requests s)); [| exact H].
    destruct (phase s) as [| | w retries]; try exact H.
    destruct (window_id w =? wid)%nat; [| exact H].
    unfold advance. cbn. destruct (queued s); exact H.
  - destruct (existsb (Nat.eqb wid) (requests s)); [| exact H].
    destruct (phase s) as [| | w retries]; try exact H.
    destruct (window_id w =? wid)%nat; [| exact H].
    destruct (retries <? maxRetries)%nat; [exact H |].
    unfold advance. cbn. destruct (queued s); exact H.
Qed.

Lemma superseded_run (events : list Event) (s : Scheduler) (i : nat) :
  In i (supersededIds s) -> In i (supersededIds (run s events)).
Proof.
  revert s. induction events as [| e events IH]; intros s H; [exact H |].
  cbn [run fold_left]. apply IH. now apply superseded_step.
Qed.

(** The events of a burst of boundary conditions. *)
Definition boundaries (bs : list (TriggerReason * nat)) : list Event :=
  map (fun b => Boundary (fst b) (snd b)) bs.

Lemma run_boundaries (bs : list (TriggerReason * nat)) (s : Scheduler)
    (w : AnalysisWindow) (retries : nat) :
  phase s = awaiting_result w retries ->
  let s' := run s (boundaries bs) in
  phase s' = awaiting_result w retries /\
  requests s' = requests s /\
  delivered s' = delivered s /\
  next_window s' = (next_window s + length bs)%nat /\
  (forall k, (S k < length bs)%nat ->
     In (next_window s + k)%nat (supersededIds s')) /\
  (forall reason end_offset bs', bs = bs' ++ [(reason, end_offset)] ->
     exists lastw,
       queued s' = Some lastw /\
       window_id lastw = (next_window s + length bs')%nat /\
       trigger_reason lastw = reason /\ slice_end lastw = end_offset).
Proof.
  intros Hph. induction bs as [| [reason end_offset] bs IH] using rev_ind.
  - cbn. repeat split; try lia; try assumption.
    intros r e bs' H. now destruct bs'.
  - cbv zeta in *. unfold boundaries in *. rewrite map_app. cbn [map fst snd].
    rewrite run_snoc.
    destruct IH as (IH1 & IH2 & IH3 & IH4 & IH5 & IH6).
    set (s1 := run s (map (fun b => Boundary (fst b) (snd b)) bs)) in *.
    cbn [step]. rewrite IH1. cbn.
    rewrite length_app. cbn [length].
    repeat split; try assumption; try lia.
    + intros k Hk. apply in_or_app.
      destruct (Nat.eq_dec (S k) (length bs)) as [E | E].
      * right. destruct bs as [| b bs0] using rev_ind; [discriminate |].
        destruct b as [r0 e0].
        destruct (IH6 r0 e0 bs0 eq_refl) as (lastw & Hq & Hid & _).
        rewrite Hq. left. rewrite Hid. rewrite length_app in E. cbn in E. lia.
      * left. apply IH5. lia.
    + intros r e bs' H. apply app_inj_tail in H as [<- H].
      injection H as <- <-. eexists. split; [reflexivity |]. cbn.
      rewrite IH4. repeat split.
Qed.

(** C1.  Throughout a session the analysis client owes the scheduler at
    most one answer; a result is delivered only for a window that was
    submitted, never for one marked superseded; and when boundary
    conditions fire while an answer is awaited, the request in flight
    stays the only one, the window of the last firing is the one queued,
    those of the earlier firings are superseded, and once the awaited
    answer is in, it is the last-queued window that is submitted, while no
    result is ever delivered for the superseded ones. *)
Theorem at_most_one_in_flight (template0 : nat) (events : list Event) :
  let s := run (initial template0) events in
  (length (requests s) <= 1)%nat /\
  (forall r, In r (delivered s) ->
     ~ In (result_window r) (supersededIds s) /\ status r <> superseded) /\
  (forall w retries burst reason end_offset text questions,
     phase s = awaiting_result w retries ->
     let s' := run s (boundaries (burst ++ [(reason, end_offset)])) in
     phase s' = awaiting_result w retries /\
     requests s' = [window_id w] /\
     (forall k, (k < length burst)%nat ->
        In (next_window s + k)%nat (supersededIds s')) /\
     exists lastw,
       queued s' = Some lastw /\
       window_id lastw = (next_window s + length burst)%nat /\
       trigger_reason lastw = reason /\ slice_end lastw = end_offset /\
       let s'' := step s' (ClientOk (window_id w) text questions) in
       phase s'' = awaiting_result lastw 0 /\
       requests s'' = [window_id lastw] /\
       delivered s''
       = delivered s ++ [{| result_window := window_id w; insight_text := text;
                            generated_questions := questions; status := ok |}] /\
       forall later r k, In r (delivered (run s'' later)) ->
         (k < length burst)%nat -> result_window r <> (next_window s + k)%nat).
Proof.
  intros s.
  assert (HI : Inv s) by (apply Inv_run, Inv_initial).
  split; [| split].
  - destruct HI as [Hph _ _ _ _ _].
    destruct (phase s); destruct Hph as [-> _]; cbn; lia.
  - intros r Hr. destruct HI as [_ _ _ _ Hap Hdel].
    destruct (Hdel r Hr) as [H1 H2]. split; [| exact H2].
    intros Hin. now apply (Hap _ Hin).
  - intros w retries burst reason end_offset text questions Hph s'.
    destruct (run_boundaries (burst ++ [(reason, end_offset)]) s w retries Hph)
      as (H1 & H2 & H3 & H4 & H5 & H6).
    fold s' in H1, H2, H3, H4, H5, H6.
    assert (Hreq : requests s = [window_id w]).
    { destruct HI as [Hp _ _ _ _ _]. rewrite Hph in Hp. tauto. }
    assert (Hsup : forall k, (k < length burst)%nat ->
                     In (next_window s + k)%nat (supersededIds s')).
    { intros k Hk. apply H5. rewrite length_app. cbn. lia. }
    split; [exact H1 |]. split; [congruence |]. split; [exact Hsup |].
    destruct (H6 reason end_offset burst eq_refl) as (lastw & Hq & Hid & Hr & He).
    exists lastw. split; [exact Hq |]. split; [exact Hid |].
    split; [exact Hr |]. split; [exact He |].
    assert (Hstep : step s' (ClientOk (window_id w) text questions)
                    = submit
                        {| phase := idle; queued := None;
                           next_window := next_window s';
                           slice_from := slice_from s'; template := template s';
                           requests := [];
                           submissions := submissions s';
                           delivered :=
                             delivered s' ++
                             [{| result_window := window_id w; insight_text := text;
                                 generated_questions := questions; status := ok |}];
                           supersededIds := supersededIds s' |} lastw 0).
    { cbn [step]. rewrite H2, Hreq. cbn [existsb]. rewrite Nat.eqb_refl.
      cbn [orb]. rewrite H1, Nat.eqb_refl.
      unfold advance, deliver, answered. cbn. rewrite Hq, H2, Hreq.
      now rewrite remove_single. }
    cbv zeta. rewrite Hstep. cbn [submit phase requests delivered app].
    split; [reflexivity |]. split; [reflexivity |].
    split; [now rewrite H3 |].
    intros later r k Hin Hk Heq.
    rewrite <- Hstep in Hin.
    set (s3 := run (step s' (ClientOk (window_id w) text questions)) later) in *.
    assert (HI3 : Inv s3).
    { unfold s3, s'. apply Inv_run, Inv_step, Inv_run, HI. }
    destruct HI3 as [_ _ _ _ Hap3 Hdel3].
    destruct (Hdel3 r Hin) as [Hsub3 _].
    apply (Hap3 (result_window r)); [| exact Hsub3].
    rewrite Heq. unfold s3. apply superseded_run, superseded_step.
    now apply Hsup.
Qed.

Lemma at_most_one_in_flight_witness :
  let s := run (initial 7) [Boundary timer 10] in
  let s' := run s (boundaries [(manual, 20%nat); (silence, 30%nat);
                               (word_count, 40%nat)]) in
  requests s' = [0%nat] /\
  (forall k, (k < 2)%nat -> In (1 + k)%nat (supersededIds s')) /\
  exists lastw,
    queued s' = Some lastw /\ window_id lastw = 3%nat /\
    requests (step s' (ClientOk 0 (str "insight") [])) = [window_id lastw].
Proof.
  cbv zeta.
  destruct (proj2 (proj2 (at_most_one_in_flight 7 [Boundary timer 10]))
              {| window_id := 0; slice_start := 0; slice_end := 10;
                 trigger_reason := timer; template_id := 7 |}
              0%nat [(manual, 20%nat); (silence, 30%nat)] word_count 40%nat
              (str "insight") [] eq_refl)
    as (_ & Hreq & Hsup & lastw & Hq & Hid & _ & _ & _ & Hreq' & _).
  split; [exact Hreq |]. split; [exact Hsup |].
  exists lastw. split; [exact Hq |]. split; [exact Hid | exact Hreq'].
Defined.

(** A burst as the spec describes it: four boundary firings, the first
    submitted, the last kept, the two between superseded. *)
Example burst_of_four :
  let s := run (initial 7)
             [Boundary timer 10; Boundary manual 20; Boundary silence 30;
              Boundary word_count 40; ClientOk 0 (str "insight") []] in
  requests s = [3%nat] /\ supersededIds s = [1; 2]%nat /\
  map result_window (delivered s) = [0%nat] /\ submissions s = [0; 3]%nat.
Proof. repeat split. Qed.

End SchedulerFacts.

(** * Further properties of the sources *)

(** ** Lists *)

Lemma filter_all {A : Type} (f : A -> bool) (l : list A) :
  (forall x, In x l -> f x = true) -> filter f l = l.
Proof.
  induction l as [| a l IH]; intros H; cbn; [reflexivity |].
  rewrite (H a (or_introl eq_refl)), IH; [reflexivity |].
  intros x Hx. apply H. now right.
Qed.

Lemma filter_none {A : Type} (f : A -> bool) (l : list A) :
  (forall x, In x l -> f x = false) -> filter f l = [].
Proof.
  induction l as [| a l IH]; intros H; cbn; [reflexivity |].
  rewrite (H a (or_introl eq_refl)). apply IH.
  intros x Hx. apply H. now right.
Qed.

(** ** Dates as time values

    A [Date] object holds a time value, the milliseconds since the epoch
    in UTC, or NaN when it is an Invalid Date.  The functions are those of
    ECMA-262, section 21.4.1: [Day], [TimeWithinDay], [LocalTime], [UTC],
    [MakeDate] and [TimeClip], over the day-number functions of [JSDate]
    ([YearFromTime(t)] of the standard is [YearFromTime (Day t)] here, and
    so on).  The time zone of the host enters through [LocalTZA(t, isUTC)],
    the offset of local time from UTC in milliseconds at the UTC time [t]
    or at the local time [t].

    The numbers that the calendar code computes with are integers or NaN:
    [None] is NaN. *)
Module JSTime.

Definition msPerDay : Z := 86400000.

Definition Day (t : Z) : Z := t / msPerDay.

Definition TimeWithinDay (t : Z) : Z := t mod msPerDay.

Definition MakeDate (day time : Z) : Z := day * msPerDay + time.

Definition Number := option Z.

(** A [Date] object, by its time value. *)
Definition DateObject := Number.

(** [TimeClip]: a time more than 8.64e15 ms from the epoch is NaN. *)
Definition TimeClip (time : Z) : Number :=
  if Z.abs time <=? 8640000000000000 then Some time else None.

Record TimeZone := {
  LocalTZA : Z -> bool -> Z
}.

(** [a + b], [a - b], [a <= b] and [a === b] on numbers: NaN makes a sum
    NaN and a comparison false. *)
Definition plus (a b : Number) : Number :=
  match a, b with
  | Some x, Some y => Some (x + y)
  | _, _ => None
  end.

Definition minus (a b : Number) : Number :=
  match a, b with
  | Some x, Some y => Some (x - y)
  | _, _ => None
  end.

Definition strictEquals (a b : Number) : bool :=
  match a, b with
  | Some x, Some y => x =? y
  | _, _ => false
  end.

(** [for (let i = lo; i <= hi; i++) days.push(body(i))]: with NaN for a
    bound the test fails at once. *)
Fixpoint forPush {A : Type} (fuel : nat) (i hi : Z) (body : Number -> A)
    (days : list A) : list A :=
  match fuel with
  | O => days
  | S k =>
      if i <=? hi then forPush k (i + 1) hi body (days ++ [body (Some i)])
      else days
  end.

Definition forUpto {A : Type} (lo hi : Number) (body : Number -> A)
    (days : list A) : list A :=
  match lo, hi with
  | Some l, Some h => forPush (Z.to_nat (h - l + 1)) l h body days
  | _, _ => days
  end.

Section Zone.

Variable tz : TimeZone.

Definition LocalTime (t : Z) : Z := t + LocalTZA tz t true.

Definition UTC (t : Z) : Z := t - LocalTZA tz t false.

(** The local calendar day of a date, [Day(LocalTime(t))], and the four
    getters, which are the day-number functions of [JSDate] at that
    day. *)
Definition localDay (date : DateObject) : Number :=
  option_map (fun t => Day (LocalTime t)) date.

Definition getFullYear (date : DateObject) : Number :=
  option_map JSDate.getFullYear (localDay date).

Definition getMonth (date : DateObject) : Number :=
  option_map JSDate.getMonth (localDay date).

Definition getDate (date : DateObject) : Number :=
  option_map JSDate.getDate (localDay date).

Definition getDay (date : DateObject) : Number :=
  option_map JSDate.getDay (localDay date).

(** [new Date(year, month, date)] (21.4.2.1): NaN for an argument gives
    an Invalid Date; [JSDate.newDate] is [MakeDay] with the two-digit-year
    rule; the time within the day is 0. *)
Definition construct (year month date : Number) : DateObject :=
  match year, month, date with
  | Some y, Some m, Some dt => TimeClip (UTC (MakeDate (newDate y m dt) 0))
  | _, _, _ => None
  end.

(** [Date.prototype.setMonth(month)] (21.4.4.25), by the time value it
    leaves in the date. *)
Definition setMonth (date : DateObject) (month : Number) : DateObject :=
  match date, month with
  | Some t, Some m =>
      let t := LocalTime t in
      let newDate :=
        MakeDate (MakeDay (YearFromTime (Day t)) m (DateFromTime (Day t)))
          (TimeWithinDay t) in
      TimeClip (UTC newDate)
  | _, _ => None
  end.

End Zone.

(** The time zones in which local time never differs from UTC by more
    than a day and the conversion of a local time to UTC and back stays
    on the calendar day it started from.  A zone at a fixed offset is one;
    so is a zone whose clocks are put forward and back within a day.  A
    zone that has skipped a calendar day, as Pacific/Apia did on 30
    December 2011, is not. *)
Definition Civil (tz : TimeZone) : Prop :=
  (forall t isUTC, Z.abs (LocalTZA tz t isUTC) <= msPerDay) /\
  (forall t, Day (LocalTime tz (UTC tz t)) = Day t).

(** Local time at the fixed offset of [offset] milliseconds. *)
Definition fixedOffset (offset : Z) : TimeZone :=
  {| LocalTZA := fun _ _ => offset |}.

End JSTime.

(** ** The calendar grid on the page

    [generateCalendarDays] over time values (the two copies in the
    sources are the same text), and what the two pages do with its dates:
    the grid is laid out seven to a row under the headers Sun .. Sat, and
    a cell is dimmed unless
    [date.getMonth() === currentMonth.getMonth()]. *)
Module Calendar.

Import JSTime.

Definition generateCalendarDays (tz : TimeZone) (month : DateObject)
  : list DateObject :=
  let year := getFullYear tz month in
  let monthIndex := getMonth tz month in
  (* First day of the month *)
  let firstDay := construct tz year monthIndex (Some 1) in
  (* Last day of the month *)
  let lastDay := construct tz year (plus monthIndex (Some 1)) (Some 0) in
  let firstDayOfWeek := getDay tz firstDay in
  let daysFromPrevMonth := firstDayOfWeek in
  let totalDays := Some 42 in
  let days := [] in
  (* Add days from previous month *)
  let prevMonth := construct tz year monthIndex (Some 0) in
  let prevMonthLastDay := getDate tz prevMonth in
  let days :=
    forUpto (plus (minus prevMonthLastDay daysFromPrevMonth) (Some 1))
      prevMonthLastDay
      (fun i => construct tz year (minus monthIndex (Some 1)) i) days in
  (* Add days from current month *)
  let currentMonthDays := getDate tz lastDay in
  let days :=
    forUpto (Some 1) currentMonthDays
      (fun i => construct tz year monthIndex i) days in
  (* Add days from next month *)
  let remainingDays := minus totalDays (Some (Z.of_nat (length days))) in
  forUpto (Some 1) remainingDays
    (fun i => construct tz year (plus monthIndex (Some 1)) i) days.

(** [const isCurrentMonth = date.getMonth() === currentMonth.getMonth()]. *)
Definition isCurrentMonth (tz : TimeZone) (currentMonth date : DateObject)
  : bool :=
  strictEquals (getMonth tz date) (getMonth tz currentMonth).

End Calendar.

(** At the end of the range of [Date], 13 September 275760 in UTC, the
    month's last day is out of range: the grid is one date of August and
    forty-one Invalid Dates, and no cell belongs to the current month. *)
Example grid_at_the_end_of_time :
  let utc := JSTime.fixedOffset 0 in
  let month := Some 8640000000000000 in
  Calendar.generateCalendarDays utc month
  = Some (99999987 * JSTime.msPerDay) :: repeat None 41 /\
  filter (Calendar.isCurrentMonth utc month)
    (Calendar.generateCalendarDays utc month) = [].
Proof. split; vm_compute; reflexivity. Qed.

(** *** The grid by local days *)
Section GridByDay.

Lemma grid_consecutive (month : Date) :
  let n := 12 * fullYearOf (getFullYear month) + getMonth month in
  CalendarView.generateCalendarDays month
  = consecutive (FirstOfMonth n - getDay (FirstOfMonth n)) 42.
Proof.
  intros n. rewrite grid_of_month. fold n.
  pose proof (WeekDay_bounds (FirstOfMonth n)) as Hdow.
  fold (getDay (FirstOfMonth n)) in Hdow.
  pose proof (MonthLength_bounds n) as Hlen.
  pose proof (FirstOfMonth_succ n) as Hs.
  set (first := FirstOfMonth n) in *.
  set (dow := Z.to_nat (getDay first)).
  set (len := Z.to_nat (MonthLength n)).
  set (base := first - getDay first).
  assert (E2 : FirstOfMonth (n + 1) = first + Z.of_nat len)
    by (unfold len; lia).
  assert (E1 : first = base + Z.of_nat dow) by (unfold base, dow; lia).
  rewrite E2, (consecutive_app first len).
  rewrite E1 at 1. rewrite (consecutive_app base dow).
  f_equal. unfold dow, len. lia.
Qed.

Lemma consecutive_nth (start : Date) (n i : nat) (d : Date) :
  nth_error (consecutive start n) i = Some d -> d = start + Z.of_nat i.
Proof.
  unfold consecutive. intros H.
  rewrite nth_error_map, nth_error_seq in H.
  destruct (Nat.ltb_spec i n); [| discriminate].
  cbn in H. now injection H as <-.
Qed.

Lemma grid_weeks_by_day (month : Date) :
  exists start,
    CalendarView.generateCalendarDays month = consecutive start 42 /\
    getDay start = 0.
Proof.
  pose proof (grid_consecutive month) as H. cbv zeta in H.
  set (n := 12 * fullYearOf (getFullYear month) + getMonth month) in *.
  set (first := FirstOfMonth n) in *.
  exists (first - getDay first). split; [exact H |].
  unfold getDay, WeekDay. Z.div_mod_to_equations. lia.
Qed.

Lemma current_month_by_day (month : Date) :
  exists (first : Date) (len : nat),
    filter (fun d => getMonth d =? getMonth month)
      (CalendarView.generateCalendarDays month)
    = consecutive first len /\
    getDate first = 1 /\ getMonth first = getMonth month /\
    28 <= Z.of_nat len <= 31 /\
    getDate (first + Z.of_nat len) = 1 /\
    nth_error (CalendarView.generateCalendarDays month) (Z.to_nat (getDay first))
    = Some first.
Proof.
  pose proof (grid_of_month month) as Hgrid. cbv zeta in Hgrid.
  set (n := 12 * fullYearOf (getFullYear month) + getMonth month) in *.
  destruct (month_of_day month) as (Hm & _ & _).
  pose proof (WeekDay_bounds (FirstOfMonth n)) as Hdow.
  fold (getDay (FirstOfMonth n)) in Hdow.
  pose proof (MonthLength_bounds n) as Hlen.
  pose proof (MonthLength_bounds (n - 1)) as Hprev.
  pose proof (MonthLength_bounds (n + 1)) as Hnext.
  pose proof (FirstOfMonth_succ n) as Hs.
  pose proof (FirstOfMonth_succ (n + 1)) as Hs'.
  pose proof (FirstOfMonth_pred n) as Hp.
  set (first := FirstOfMonth n) in *.
  set (dow := Z.to_nat (getDay first)) in *.
  set (len := Z.to_nat (MonthLength n)) in *.
  assert (Hmod : n mod 12 = getMonth month)
    by (unfold n; Z.div_mod_to_equations; lia).
  exists first, len.
  split; [| split; [| split; [| split; [| split]]]].
  - rewrite Hgrid, !filter_app.
    rewrite (filter_none _ (consecutive (first - getDay first) dow)).
    2:{ intros d Hd. apply consecutive_In in Hd.
        destruct (getters_in_month d (n - 1)) as (_ & Hmd & _).
        { replace (n - 1 + 1) with n by lia. fold first. unfold dow in Hd. lia. }
        apply Z.eqb_neq. rewrite Hmd, <- Hmod.
        Z.div_mod_to_equations. lia. }
    rewrite (filter_all _ (consecutive first len)).
    2:{ intros d Hd. apply consecutive_In in Hd.
        destruct (getters_in_month d n) as (_ & Hmd & _).
        { fold first. unfold len in Hd. lia. }
        apply Z.eqb_eq. congruence. }
    rewrite filter_none.
    2:{ intros d Hd. apply consecutive_In in Hd.
        destruct (getters_in_month d (n + 1)) as (_ & Hmd & _).
        { unfold dow, len in Hd. lia. }
        apply Z.eqb_neq. rewrite Hmd, <- Hmod.
        Z.div_mod_to_equations. lia. }
    cbn [app]. now rewrite app_nil_r.
  - destruct (getters_in_month first n) as (_ & _ & ->); [unfold first |]; lia.
  - destruct (getters_in_month first n) as (_ & -> & _); [unfold first; lia |].
    exact Hmod.
  - unfold len. lia.
  - replace (first + Z.of_nat len) with (FirstOfMonth (n + 1))
      by (unfold len; lia).
    destruct (getters_in_month (FirstOfMonth (n + 1)) (n + 1)) as (_ & _ & ->);
      lia.
  - rewrite Hgrid. fold dow.
    rewrite nth_error_app2 by (rewrite consecutive_length; lia).
    rewrite consecutive_length, Nat.sub_diag.
    destruct len as [| len'] eqn:E; [lia |].
    rewrite consecutive_S. reflexivity.
Qed.

Lemma getDate_bounds (t : Date) : 1 <= getDate t <= 31.
Proof.
  destruct (month_of_day t) as (_ & H & Hd). cbv zeta in H, Hd.
  pose proof (FirstOfMonth_succ (12 * getFullYear t + getMonth t)).
  pose proof (MonthLength_bounds (12 * getFullYear t + getMonth t)). lia.
Qed.

(** The firsts of the months from December -271821 to January 275760 lie
    well inside the range of [Date], which ends 100,000,000 days from the
    epoch on either side. *)
Lemma FirstOfMonth_range (k : Z) :
  -3261841 <= k <= 3309120 -> -99999775 <= FirstOfMonth k <= 99999744.
Proof.
  intros [Hlo Hhi].
  pose proof (FirstOfMonth_mono _ _ Hlo) as H1.
  pose proof (FirstOfMonth_mono _ _ Hhi) as H2.
  assert (E1 : FirstOfMonth (-3261841) = -99999775) by (vm_compute; reflexivity).
  assert (E2 : FirstOfMonth 3309120 = 99999744) by (vm_compute; reflexivity).
  lia.
Qed.

Lemma newDate_range (Y M m' dt : Z) :
  -271820 <= Y <= 275759 -> 0 <= M <= 11 -> M - 1 <= m' <= M + 1 ->
  -100 <= dt <= 100 ->
  -99999998 <= newDate Y m' dt <= 99999998.
Proof.
  intros HY HM Hm' Hdt. rewrite newDate_FirstOfMonth.
  assert (Hfy : -271820 <= fullYearOf Y <= 275759).
  { unfold fullYearOf.
    destruct (Z.leb_spec 0 Y), (Z.leb_spec Y 99); cbn [andb]; lia. }
  pose proof (FirstOfMonth_range (12 * fullYearOf Y + m') ltac:(lia)). lia.
Qed.

Lemma year_range_days (D : Date) :
  -271820 <= getFullYear D <= 275759 -> -99999744 <= D < 99999744.
Proof.
  unfold getFullYear. intros [Hlo Hhi].
  pose proof (YearFromTime_spec D) as [H1 H2].
  pose proof (DayFromYear_mono _ _ Hlo) as H3.
  pose proof (DayFromYear_mono (YearFromTime D + 1) 275760 ltac:(lia)) as H4.
  assert (E1 : DayFromYear (-271820) = -99999744) by (vm_compute; reflexivity).
  assert (E2 : DayFromYear 275760 = 99999744) by (vm_compute; reflexivity).
  lia.
Qed.

End GridByDay.

(** *** From time values to local days *)
Section TimeValueFacts.

Variable tz : JSTime.TimeZone.
Hypothesis civil : JSTime.Civil tz.

Lemma Day_MakeDate (day time : Z) :
  0 <= time < JSTime.msPerDay -> JSTime.Day (JSTime.MakeDate day time) = day.
Proof.
  unfold JSTime.Day, JSTime.MakeDate, JSTime.msPerDay.
  intros H. Z.div_mod_to_equations. lia.
Qed.

Lemma clip_local (day time : Z) :
  -99999998 <= day <= 99999998 -> 0 <= time < JSTime.msPerDay ->
  exists t,
    JSTime.TimeClip (JSTime.UTC tz (JSTime.MakeDate day time)) = Some t /\
    JSTime.Day (JSTime.LocalTime tz t) = day.
Proof.
  intros Hday Htime. destruct civil as [Hoff Hback].
  exists (JSTime.UTC tz (JSTime.MakeDate day time)). split.
  - unfold JSTime.TimeClip, JSTime.UTC.
    pose proof (Hoff (JSTime.MakeDate day time) false) as H.
    unfold JSTime.MakeDate, JSTime.msPerDay in *.
    destruct (Z.leb_spec
                (Z.abs (day * 86400000 + time
                        - JSTime.LocalTZA tz (day * 86400000 + time) false))
                8640000000000000); [reflexivity | lia].
  - rewrite Hback. now apply Day_MakeDate.
Qed.

Lemma localDay_construct (y m d : Z) :
  -99999998 <= newDate y m d <= 99999998 ->
  JSTime.localDay tz (JSTime.construct tz (Some y) (Some m) (Some d))
  = Some (newDate y m d).
Proof.
  intros H. unfold JSTime.construct.
  destruct (clip_local (newDate y m d) 0 H) as (t & -> & Ht);
    [unfold JSTime.msPerDay; lia |].
  cbn [JSTime.localDay option_map]. now rewrite Ht.
Qed.

Lemma localDay_setMonth (date : JSTime.DateObject) (D m : Z) :
  JSTime.localDay tz date = Some D ->
  -99999998 <= MakeDay (YearFromTime D) m (DateFromTime D) <= 99999998 ->
  JSTime.localDay tz (JSTime.setMonth tz date (Some m))
  = Some (MakeDay (YearFromTime D) m (DateFromTime D)).
Proof.
  intros HD H. destruct date as [t |]; [| discriminate].
  cbn [JSTime.localDay option_map] in HD. injection HD as HD.
  unfold JSTime.setMonth. cbv zeta. rewrite HD.
  destruct (clip_local (MakeDay (YearFromTime D) m (DateFromTime D))
              (JSTime.TimeWithinDay (JSTime.LocalTime tz t)) H)
    as (t' & -> & Ht').
  { unfold JSTime.TimeWithinDay, JSTime.msPerDay. Z.div_mod_to_equations. lia. }
  cbn [JSTime.localDay option_map]. now rewrite Ht'.
Qed.

Lemma forPush_spec {A : Type} (fuel : nat) (i hi : Z)
    (body : JSTime.Number -> A) (days : list A) :
  fuel = Z.to_nat (hi - i + 1) ->
  JSTime.forPush fuel i hi body days
  = days ++ map (fun k => body (Some k)) (consecutive i fuel).
Proof.
  revert i days. induction fuel as [| k IH]; intros i days Hf.
  - cbn. now rewrite app_nil_r.
  - cbn [JSTime.forPush]. destruct (Z.leb_spec i hi); [| lia].
    rewrite IH by lia. rewrite <- app_assoc. f_equal.
    rewrite consecutive_S. reflexivity.
Qed.

Lemma forUpto_by_day (lo hi : Z) (body' : JSTime.Number -> JSTime.DateObject)
    (body : Z -> Date) (days' : list JSTime.DateObject) (days : list Date) :
  map (JSTime.localDay tz) days' = map Some days ->
  (forall i, lo <= i <= hi -> JSTime.localDay tz (body' (Some i)) = Some (body i)) ->
  map (JSTime.localDay tz) (JSTime.forUpto (Some lo) (Some hi) body' days')
  = map Some (for_upto lo hi body days).
Proof.
  intros Hdays Hbody. unfold JSTime.forUpto.
  rewrite forPush_spec by reflexivity. rewrite for_upto_spec.
  rewrite !map_app, Hdays. f_equal. rewrite !map_map.
  apply map_ext_in. intros i Hi. apply consecutive_In in Hi.
  apply Hbody. lia.
Qed.

(** The two grids for a year and a month index that are given. *)
Lemma grid_by_day_of (Y M : Z) :
  -271820 <= Y <= 275759 -> 0 <= M <= 11 ->
  forall dow prevLast last : Z,
  dow = getDay (newDate Y M 1) ->
  prevLast = getDate (newDate Y M 0) ->
  last = getDate (newDate Y (M + 1) 0) ->
  forall days1' days1 days2' days2,
  days1' = JSTime.forUpto (Some (prevLast - dow + 1)) (Some prevLast)
             (fun i => JSTime.construct tz (Some Y) (Some (M - 1)) i) [] ->
  days1 = for_upto (prevLast - dow + 1) prevLast
            (fun i => newDate Y (M - 1) i) [] ->
  days2' = JSTime.forUpto (Some 1) (Some last)
             (fun i => JSTime.construct tz (Some Y) (Some M) i) days1' ->
  days2 = for_upto 1 last (fun i => newDate Y M i) days1 ->
  map (JSTime.localDay tz)
    (JSTime.forUpto (Some 1) (Some (42 - Z.of_nat (length days2')))
       (fun i => JSTime.construct tz (Some Y) (Some (M + 1)) i) days2')
  = map Some
      (for_upto 1 (42 - Z.of_nat (length days2))
         (fun i => newDate Y (M + 1) i) days2).
Proof.
  intros HY HM dow prevLast last Edow Eprev Elast days1' days1 days2' days2
    E1' E1 E2' E2.
  assert (Hdow : 0 <= dow <= 6) by (rewrite Edow; apply WeekDay_bounds).
  assert (Hprev : 1 <= prevLast <= 31) by (rewrite Eprev; apply getDate_bounds).
  assert (Hlast : 1 <= last <= 31) by (rewrite Elast; apply getDate_bounds).
  clear Edow Eprev Elast.
  assert (H1 : map (JSTime.localDay tz) days1' = map Some days1).
  { rewrite E1', E1. apply forUpto_by_day; [reflexivity |].
    intros i Hi. apply localDay_construct. apply (newDate_range Y M); lia. }
  assert (H2 : map (JSTime.localDay tz) days2' = map Some days2).
  { rewrite E2', E2. apply forUpto_by_day; [exact H1 |].
    intros i Hi. apply localDay_construct. apply (newDate_range Y M); lia. }
  assert (Hlen : length days2' = length days2).
  { apply (f_equal (@length _)) in H2. now rewrite !length_map in H2. }
  rewrite Hlen.
  apply forUpto_by_day; [exact H2 |].
  intros i Hi. apply localDay_construct. apply (newDate_range Y M); lia.
Qed.

(** In a civil time zone, for a month of a year that lies wholly inside
    the range of [Date], the grid over time values shows, cell by cell,
    the local days of the grid over day numbers. *)
Lemma grid_by_day (month : JSTime.DateObject) (D : Date) :
  JSTime.localDay tz month = Some D ->
  -271820 <= getFullYear D <= 275759 ->
  map (JSTime.localDay tz) (Calendar.generateCalendarDays tz month)
  = map Some (CalendarView.generateCalendarDays D).
Proof.
  intros HD HY.
  destruct (month_of_day D) as (HM & _ & _).
  unfold Calendar.generateCalendarDays, CalendarView.generateCalendarDays.
  unfold JSTime.getFullYear, JSTime.getMonth, JSTime.getDay, JSTime.getDate.
  rewrite HD. cbn [option_map JSTime.plus JSTime.minus].
  generalize dependent (getFullYear D). intros Y HY.
  generalize dependent (getMonth D). intros M HM.
  rewrite !localDay_construct by (apply (newDate_range Y M); lia).
  cbn [option_map JSTime.plus JSTime.minus].
  now apply (grid_by_day_of Y M HY HM _ _ _ eq_refl eq_refl eq_refl
               _ _ _ _ eq_refl eq_refl eq_refl eq_refl).
Qed.

Lemma localDay_year (month : JSTime.DateObject) (year : Z) :
  JSTime.getFullYear tz month = Some year ->
  exists D, JSTime.localDay tz month = Some D /\ getFullYear D = year.
Proof.
  unfold JSTime.getFullYear. destruct (JSTime.localDay tz month) as [D |];
    [| discriminate].
  cbn [option_map]. intros H. injection H as <-. now exists D.
Qed.

End TimeValueFacts.

(** *** The grid that the pages lay out *)
Section CalendarFacts.

Lemma fixedOffset_civil (offset : Z) :
  Z.abs offset <= JSTime.msPerDay -> JSTime.Civil (JSTime.fixedOffset offset).
Proof.
  intros H. split.
  - intros t isUTC. exact H.
  - intros t. unfold JSTime.LocalTime, JSTime.UTC. cbn [JSTime.LocalTZA JSTime.fixedOffset].
    f_equal. lia.
Qed.

Lemma filter_by_day (tz : JSTime.TimeZone) (f' : JSTime.DateObject -> bool)
    (f : Date -> bool) (l' : list JSTime.DateObject) (l : list Date) :
  map (JSTime.localDay tz) l' = map Some l ->
  (forall d' d, In d' l' -> JSTime.localDay tz d' = Some d -> f' d' = f d) ->
  map (JSTime.localDay tz) (filter f' l') = map Some (filter f l).
Proof.
  revert l. induction l' as [| d' l' IH]; intros l Hmap Hf.
  - destruct l; [reflexivity | discriminate].
  - destruct l as [| d l]; [discriminate |].
    cbn [map] in Hmap. injection Hmap as Hd Hmap.
    cbn [filter]. rewrite (Hf d' d (or_introl eq_refl) Hd).
    destruct (f d); cbn [map]; rewrite ?Hd; [f_equal |]; apply IH;
      try exact Hmap; intros x y Hx; apply Hf; now right.
Qed.

(** In a civil time zone, for a month of a year that lies wholly within
    the range of [Date] (-271820 to 275759), the grid is six full weeks:
    42 dates on 42 consecutive local days of which the first is a Sunday,
    so that the cell at position [i] falls on weekday [i mod 7], the
    column whose header names it. *)
Theorem grid_rows_are_weeks (tz : JSTime.TimeZone) (month : JSTime.DateObject)
    (year : Z) :
  JSTime.Civil tz ->
  JSTime.getFullYear tz month = Some year ->
  -271820 <= year <= 275759 ->
  exists start,
    map (JSTime.localDay tz) (Calendar.generateCalendarDays tz month)
    = map Some (consecutive start 42) /\
    JSDate.getDay start = 0 /\
    forall i d,
      nth_error (Calendar.generateCalendarDays tz month) i = Some d ->
      JSTime.getDay tz d = Some (Z.of_nat i mod 7).
Proof.
  intros Hcivil Hyear Hrange.
  destruct (localDay_year tz month year Hyear) as (D & HD & HY).
  pose proof (grid_by_day tz Hcivil month D HD ltac:(lia)) as Hmap.
  destruct (grid_weeks_by_day D) as (start & Hgrid & Hsun).
  rewrite Hgrid in Hmap.
  exists start. split; [exact Hmap |]. split; [exact Hsun |].
  intros i d Hd.
  apply (f_equal (fun l => nth_error l i)) in Hmap.
  rewrite !nth_error_map, Hd in Hmap. cbn [option_map] in Hmap.
  destruct (nth_error (consecutive start 42) i) as [x |] eqn:Ex;
    [| discriminate].
  cbn [option_map] in Hmap. injection Hmap as Hx.
  apply consecutive_nth in Ex. subst x.
  unfold JSTime.getDay. rewrite Hx. cbn [option_map]. f_equal.
  unfold JSDate.getDay, WeekDay in *. Z.div_mod_to_equations. lia.
Qed.

Lemma grid_rows_are_weeks_witness :
  let tz := JSTime.fixedOffset 3600000 in
  let month := JSTime.construct tz (Some 2025) (Some 2) (Some 6) in
  exists start,
    map (JSTime.localDay tz) (Calendar.generateCalendarDays tz month)
    = map Some (consecutive start 42) /\
    JSDate.getDay start = 0 /\
    forall i d,
      nth_error (Calendar.generateCalendarDays tz month) i = Some d ->
      JSTime.getDay tz d = Some (Z.of_nat i mod 7).
Proof.
  exact (grid_rows_are_weeks (JSTime.fixedOffset 3600000)
           (JSTime.construct (JSTime.fixedOffset 3600000)
              (Some 2025) (Some 2) (Some 6))
           2025
           (fixedOffset_civil 3600000 ltac:(vm_compute; discriminate))
           ltac:(vm_compute; reflexivity)
           ltac:(lia)).
Defined.

(** Under the same conditions, the cells that are not dimmed are the days
    of one whole month, from a first of the month to the day before the
    next first, in the month index of [currentMonth], and the first of
    them stands in the column of its weekday in the first row. *)
Theorem current_month_cells (tz : JSTime.TimeZone) (month : JSTime.DateObject)
    (year : Z) :
  JSTime.Civil tz ->
  JSTime.getFullYear tz month = Some year ->
  -271820 <= year <= 275759 ->
  exists (first : Date) (len : nat),
    map (JSTime.localDay tz)
      (filter (Calendar.isCurrentMonth tz month)
         (Calendar.generateCalendarDays tz month))
    = map Some (consecutive first len) /\
    JSDate.getDate first = 1 /\
    JSTime.getMonth tz month = Some (JSDate.getMonth first) /\
    28 <= Z.of_nat len <= 31 /\
    JSDate.getDate (first + Z.of_nat len) = 1 /\
    option_map (JSTime.localDay tz)
      (nth_error (Calendar.generateCalendarDays tz month)
         (Z.to_nat (JSDate.getDay first)))
    = Some (Some first).
Proof.
  intros Hcivil Hyear Hrange.
  destruct (localDay_year tz month year Hyear) as (D & HD & HY).
  pose proof (grid_by_day tz Hcivil month D HD ltac:(lia)) as Hmap.
  destruct (current_month_by_day D)
    as (first & len & Hfilter & Hfirst & Hmonth & Hlen & Hnext & Hnth).
  exists first, len.
  split; [| split; [exact Hfirst | split; [| split; [exact Hlen |
            split; [exact Hnext |]]]]].
  - rewrite <- Hfilter. apply filter_by_day; [exact Hmap |].
    intros d' d _ Hd. unfold Calendar.isCurrentMonth, JSTime.getMonth.
    rewrite Hd, HD. reflexivity.
  - unfold JSTime.getMonth. rewrite HD. cbn [option_map]. f_equal.
    symmetry. exact Hmonth.
  - apply (f_equal (fun l => nth_error l (Z.to_nat (JSDate.getDay first))))
      in Hmap.
    rewrite !nth_error_map, Hnth in Hmap. exact Hmap.
Qed.

Lemma current_month_cells_witness :
  let tz := JSTime.fixedOffset 3600000 in
  let month := JSTime.construct tz (Some 2025) (Some 2) (Some 6) in
  exists (first : Date) (len : nat),
    map (JSTime.localDay tz)
      (filter (Calendar.isCurrentMonth tz month)
         (Calendar.generateCalendarDays tz month))
    = map Some (consecutive first len) /\
    JSDate.getDate first = 1 /\ 28 <= Z.of_nat len <= 31.
Proof.
  destruct (current_month_cells (JSTime.fixedOffset 3600000)
              (JSTime.construct (JSTime.fixedOffset 3600000)
                 (Some 2025) (Some 2) (Some 6))
              2025
              (fixedOffset_civil 3600000 ltac:(vm_compute; discriminate))
              ltac:(vm_compute; reflexivity)
              ltac:(lia))
    as (first & len & H1 & H2 & _ & H4 & _).
  exists first, len. split; [exact H1 |]. split; [exact H2 | exact H4].
Defined.

(** Under the same conditions and for a year that is not one of 0..99,
    the grid is as the calendar wants it: the last days of the previous
    month, one for every weekday before the first of the month, then the
    month itself from its first to its last day, then the first days of
    the next month, 42 dates in all. *)
Theorem grid_shows_the_month (tz : JSTime.TimeZone) (month : JSTime.DateObject)
    (year monthIndex : Z) :
  JSTime.Civil tz ->
  JSTime.getFullYear tz month = Some year ->
  JSTime.getMonth tz month = Some monthIndex ->
  -271820 <= year <= 275759 ->
  ~ (0 <= year <= 99) ->
  let n := 12 * year + monthIndex in
  exists (first : Date) (prev cur next : list Date),
    map (JSTime.localDay tz) (Calendar.generateCalendarDays tz month)
    = map Some (prev ++ cur ++ next) /\
    length (prev ++ cur ++ next) = 42%nat /\
    (JSDate.getFullYear first = year /\ JSDate.getMonth first = monthIndex /\
     JSDate.getDate first = 1) /\
    Z.of_nat (length prev) = JSDate.getDay first /\
    prev = consecutive (first - JSDate.getDay first) (length prev) /\
    (forall d, In d prev ->
       12 * JSDate.getFullYear d + JSDate.getMonth d = n - 1) /\
    cur = consecutive first (length cur) /\
    (forall d, In d cur <->
       JSDate.getFullYear d = year /\ JSDate.getMonth d = monthIndex) /\
    next = consecutive (first + Z.of_nat (length cur)) (length next) /\
    (forall d, In d next ->
       12 * JSDate.getFullYear d + JSDate.getMonth d = n + 1).
Proof.
  intros Hcivil Hyear Hmonth Hrange Hcentury n.
  destruct (localDay_year tz month year Hyear) as (D & HD & HY).
  assert (HM : JSDate.getMonth D = monthIndex).
  { unfold JSTime.getMonth in Hmonth. rewrite HD in Hmonth.
    cbn [option_map] in Hmonth. now injection Hmonth. }
  pose proof (grid_by_day tz Hcivil month D HD ltac:(lia)) as Hmap.
  destruct (generateCalendarDays_grid D ltac:(lia))
    as (first & prev & cur & next & H1 & _ & H3 & H4 & H5 & H6 & H7 & H8
        & H9 & H10 & H11).
  rewrite H1 in Hmap. rewrite HY, HM in *.
  exists first, prev, cur, next.
  split; [exact Hmap |]. split; [exact H3 |]. split; [exact H4 |].
  split; [exact H5 |]. split; [exact H6 |]. split; [exact H7 |].
  split; [exact H8 |]. split; [exact H9 |]. split; [exact H10 | exact H11].
Qed.

Lemma grid_shows_the_month_witness :
  let tz := JSTime.fixedOffset 3600000 in
  let month := JSTime.construct tz (Some 2025) (Some 2) (Some 6) in
  exists (first : Date) (prev cur next : list Date),
    map (JSTime.localDay tz) (Calendar.generateCalendarDays tz month)
    = map Some (prev ++ cur ++ next) /\
    Z.of_nat (length prev) = JSDate.getDay first /\
    (forall d, In d cur <->
       JSDate.getFullYear d = 2025 /\ JSDate.getMonth d = 2).
Proof.
  destruct (grid_shows_the_month (JSTime.fixedOffset 3600000)
              (JSTime.construct (JSTime.fixedOffset 3600000)
                 (Some 2025) (Some 2) (Some 6))
              2025 2
              (fixedOffset_civil 3600000 ltac:(vm_compute; discriminate))
              ltac:(vm_compute; reflexivity)
              ltac:(vm_compute; reflexivity)
              ltac:(lia) ltac:(lia))
    as (first & prev & cur & next & H1 & _ & _ & H5 & _ & _ & _ & H9 & _).
  exists first, prev, cur, next.
  split; [exact H1 |]. split; [exact H5 | exact H9].
Defined.

End CalendarFacts.

(** ** Recordings of a day

    Both pages pick the recordings of a day by comparing [getDate()],
    [getMonth()] and [getFullYear()]; the library page does it over its
    [mockRecordings], [CalendarView] over its [recordings] prop. *)
Module DayStatus.

Import FileListView.

(** The comparison written out in [getRecordingsForDate], [getDateStatus],
    [isSelected] and the three [mockRecordings.some(...)] of the grid. *)
Definition sameDay (a b : Date) : bool :=
  (getDate a =? getDate b) && (getMonth a =? getMonth b)
  && (getFullYear a =? getFullYear b).

Definition mockRecordings : list Recording :=
  [ {| id := str "1"; title := str "Weekly Team Meeting";
       date := newDate 2025 2 6; duration := str "45:12";
       hasTranscript := true; hasFullTranscript := true; hasAnalysis := true |};
    {| id := str "2"; title := str "Client Interview - Project Alpha";
       date := newDate 2025 2 6; duration := str "32:47";
       hasTranscript := true; hasFullTranscript := false; hasAnalysis := false |};
    {| id := str "3"; title := str "Product Planning Session";
       date := newDate 2025 2 4; duration := str "1:12:33";
       hasTranscript := true; hasFullTranscript := true; hasAnalysis := true |};
    {| id := str "4"; title := str "Marketing Strategy Discussion";
       date := newDate 2025 2 2; duration := str "28:05";
       hasTranscript := true; hasFullTranscript := false; hasAnalysis := false |};
    {| id := str "5"; title := str "Quarterly Planning - Q1 2025";
       date := newDate 2025 1 28; duration := str "1:45:22";
       hasTranscript := true; hasFullTranscript := true; hasAnalysis := true |};
    {| id := str "6"; title := str "User Research Interviews";
       date := newDate 2025 1 24; duration := str "52:18";
       hasTranscript := true; hasFullTranscript := true; hasAnalysis := true |} ].

(** [getRecordingsForDate] of the library page; [None] is [null]. *)
Definition getRecordingsForDate (date0 : option Date) : list Recording :=
  match date0 with
  | None => []
  | Some d => filter (fun recording => sameDay (date recording) d) mockRecordings
  end.

(** [getDateStatus] of [CalendarView]. *)
Definition getDateStatus (recordings : list Recording) (d : Date) : jsstring :=
  let recordingsForDate :=
    filter (fun recording => sameDay (date recording) d) recordings in
  if (length recordingsForDate =? 0)%nat then str "none"
  else
    let hasFullTranscript' := existsb hasFullTranscript recordingsForDate in
    let hasPartialTranscript :=
      existsb (fun r => hasTranscript r && negb (hasFullTranscript r))
        recordingsForDate in
    if hasFullTranscript' then str "transcript"
    else if hasPartialTranscript then str "partial"
    else str "recording".

Definition strEq (a b : jsstring) : bool :=
  if list_eq_dec ascii_dec a b then true else false.

(** The status class that [CalendarView] passes to [cn(...)]:
    [dateStatus === "recording" && "has-recording"], and so on; the empty
    string when none of the three applies. *)
Definition calendarViewClass (recordings : list Recording) (d : Date) : jsstring :=
  let dateStatus := getDateStatus recordings d in
  if strEq dateStatus (str "recording") then str "has-recording"
  else if strEq dateStatus (str "partial") then str "has-partial"
  else if strEq dateStatus (str "transcript") then str "has-transcript"
  else [].

(** [statusClass] of a cell of the library page's grid, over the list that
    the page reads ([mockRecordings] there). *)
Definition statusClass (recordings : list Recording) (d : Date) : jsstring :=
  let hasRecordings := existsb (fun r => sameDay (date r) d) recordings in
  let hasTranscripts :=
    existsb (fun r => sameDay (date r) d && hasTranscript r) recordings in
  let hasPartialTranscripts :=
    existsb (fun r => sameDay (date r) d && hasTranscript r
                      && negb (hasFullTranscript r)) recordings in
  if hasTranscripts && negb hasPartialTranscripts then str "has-transcript"
  else if hasPartialTranscripts then str "has-partial"
  else if hasRecordings then str "has-recording"
  else [].

End DayStatus.

Section DayFacts.

Import FileListView DayStatus.

Lemma sameDay_eq (a b : Date) : sameDay a b = true <-> a = b.
Proof.
  unfold sameDay. split.
  - intros H. apply andb_true_iff in H as [H Hy].
    apply andb_true_iff in H as [Hd Hm].
    apply Z.eqb_eq in Hd, Hm, Hy.
    destruct (month_of_day a) as (_ & _ & Ha).
    destruct (month_of_day b) as (_ & _ & Hb).
    cbv zeta in Ha, Hb. rewrite Hy, Hm in Ha. lia.
  - intros ->. now rewrite !Z.eqb_refl.
Qed.

(** [getRecordingsForDate] returns the mock recordings dated the given
    day and no other, in the order of the list; for a date of another day
    or for [null] it returns none of them. *)
Theorem getRecordingsForDate_exact (date0 : option Date) (r : Recording) :
  In r (getRecordingsForDate date0) <->
  In r mockRecordings /\ date0 = Some (date r).
Proof.
  destruct date0 as [d |]; unfold getRecordingsForDate.
  - rewrite filter_In, sameDay_eq. split.
    + intros [H <-]. now split.
    + intros [H E]. injection E as ->. now split.
  - split; [intros [] | intros [_ E]; discriminate].
Qed.

Lemma existsb_filter {A : Type} (p q : A -> bool) (l : list A) :
  existsb p (filter q l) = existsb (fun x => q x && p x) l.
Proof.
  induction l as [| a l IH]; cbn; [reflexivity |].
  destruct (q a); cbn; now rewrite IH.
Qed.

Lemma length_filter_zero {A : Type} (q : A -> bool) (l : list A) :
  (length (filter q l) =? 0)%nat = negb (existsb q l).
Proof.
  induction l as [| a l IH]; cbn; [reflexivity |].
  destruct (q a); cbn; [reflexivity | exact IH].
Qed.

Lemma existsb_same {A : Type} (f g : A -> bool) (l : list A) :
  (forall x, f x = g x) -> existsb f l = existsb g l.
Proof.
  intros H. induction l as [| a l IH]; cbn; [reflexivity |].
  now rewrite H, IH.
Qed.

(** The four questions the two pages ask of a day. *)
Definition dayHas (p : Recording -> bool) (recordings : list Recording)
    (d : Date) : bool :=
  existsb (fun r => sameDay (date r) d && p r) recordings.

Lemma calendarViewClass_flags (recordings : list Recording) (d : Date) :
  calendarViewClass recordings d
  = if negb (dayHas (fun _ => true) recordings d) then []
    else if dayHas hasFullTranscript recordings d then str "has-transcript"
    else if dayHas (fun r => hasTranscript r && negb (hasFullTranscript r))
              recordings d
         then str "has-partial"
    else str "has-recording".
Proof.
  unfold calendarViewClass, getDateStatus, dayHas. cbv zeta.
  rewrite length_filter_zero, !existsb_filter.
  rewrite (existsb_same (fun r => sameDay (date r) d && true)
             (fun r => sameDay (date r) d)) by (intros; apply andb_true_r).
  destruct (existsb (fun r => sameDay (date r) d) recordings); cbn [negb];
    [| reflexivity].
  destruct (existsb (fun x => sameDay (date x) d && hasFullTranscript x)
              recordings); [reflexivity |].
  destruct (existsb _ recordings); reflexivity.
Qed.

Lemma statusClass_flags (recordings : list Recording) (d : Date) :
  statusClass recordings d
  = if dayHas hasTranscript recordings d
       && negb (dayHas (fun r => hasTranscript r && negb (hasFullTranscript r))
                  recordings d)
    then str "has-transcript"
    else if dayHas (fun r => hasTranscript r && negb (hasFullTranscript r))
              recordings d
         then str "has-partial"
    else if dayHas (fun _ => true) recordings d then str "has-recording"
    else [].
Proof.
  unfold statusClass, dayHas. cbv zeta.
  rewrite (existsb_same (fun r => sameDay (date r) d && true)
             (fun r => sameDay (date r) d)) by (intros; apply andb_true_r).
  rewrite (existsb_same
             (fun r => sameDay (date r) d && hasTranscript r
                       && negb (hasFullTranscript r))
             (fun r => sameDay (date r) d
                       && (hasTranscript r && negb (hasFullTranscript r))))
    by (intros; now rewrite andb_assoc).
  reflexivity.
Qed.

Lemma dayHas_transcript (recordings : list Recording) (d : Date) :
  (forall r, In r recordings ->
     hasFullTranscript r = true -> hasTranscript r = true) ->
  dayHas hasTranscript recordings d
  = dayHas hasFullTranscript recordings d
    || dayHas (fun r => hasTranscript r && negb (hasFullTranscript r))
         recordings d.
Proof.
  unfold dayHas. induction recordings as [| a l IH]; intros Hwf;
    cbn [existsb]; [reflexivity |].
  rewrite IH by (intros r Hr; apply Hwf; now right).
  specialize (Hwf a (or_introl eq_refl)).
  destruct (sameDay (date a) d), (hasTranscript a), (hasFullTranscript a);
    cbn; try reflexivity;
    try (specialize (Hwf eq_refl); discriminate);
    destruct (existsb _ l), (existsb _ l); reflexivity.
Qed.

Lemma dayHas_any (p : Recording -> bool) (recordings : list Recording) (d : Date) :
  dayHas p recordings d = true -> dayHas (fun _ => true) recordings d = true.
Proof.
  unfold dayHas. rewrite !existsb_exists. intros (r & Hr & H).
  exists r. split; [exact Hr |].
  apply andb_true_iff in H as [H _]. now rewrite H.
Qed.

Lemma dayHas_spec (p : Recording -> bool) (recordings : list Recording) (d : Date) :
  dayHas p recordings d = true <->
  exists r, In r recordings /\ date r = d /\ p r = true.
Proof.
  unfold dayHas. rewrite existsb_exists. split.
  - intros (r & Hr & H). apply andb_true_iff in H as [H1 H2].
    apply sameDay_eq in H1. now exists r.
  - intros (r & Hr & H1 & H2). exists r. split; [exact Hr |].
    apply andb_true_iff. split; [now apply sameDay_eq | exact H2].
Qed.

(** The two pages colour a day alike except when it holds both a
    recording with a full transcript and one with a partial transcript:
    then [CalendarView] shows it as "has-transcript" and the library page
    as "has-partial".  (Recordings with a full transcript are taken to
    have a transcript.) *)
Theorem status_classes_compared (recordings : list Recording) (d : Date) :
  (forall r, In r recordings ->
     hasFullTranscript r = true -> hasTranscript r = true) ->
  let full :=
    exists r, In r recordings /\ date r = d /\ hasFullTranscript r = true in
  let partial :=
    exists r, In r recordings /\ date r = d /\
              hasTranscript r && negb (hasFullTranscript r) = true in
  (full /\ partial ->
   calendarViewClass recordings d = str "has-transcript" /\
   statusClass recordings d = str "has-partial") /\
  (~ (full /\ partial) ->
   calendarViewClass recordings d = statusClass recordings d).
Proof.
  intros Hwf full partial.
  rewrite calendarViewClass_flags, statusClass_flags, (dayHas_transcript _ _ Hwf).
  pose proof (dayHas_spec hasFullTranscript recordings d) as HF.
  pose proof (dayHas_spec
                (fun r => hasTranscript r && negb (hasFullTranscript r))
                recordings d) as HP.
  fold full in HF. fold partial in HP.
  pose proof (dayHas_any hasFullTranscript recordings d) as HRF.
  pose proof (dayHas_any
                (fun r => hasTranscript r && negb (hasFullTranscript r))
                recordings d) as HRP.
  destruct (dayHas hasFullTranscript recordings d) eqn:EF;
    destruct (dayHas (fun r => hasTranscript r && negb (hasFullTranscript r))
                recordings d) eqn:EP;
    try rewrite (HRF eq_refl); try rewrite (HRP eq_refl); cbn.
  - split; [now split | intros H; contradiction H; split; tauto].
  - split; [intros [_ H]; apply HP in H; discriminate | reflexivity].
  - split; [intros [H _]; apply HF in H; discriminate | reflexivity].
  - split; [intros [H _]; apply HF in H; discriminate |].
    destruct (dayHas (fun _ => true) recordings d); reflexivity.
Qed.

Lemma status_classes_compared_witness :
  calendarViewClass mockRecordings (newDate 2025 2 6) = str "has-transcript" /\
  statusClass mockRecordings (newDate 2025 2 6) = str "has-partial".
Proof.
  apply (proj1 (status_classes_compared mockRecordings (newDate 2025 2 6)
                  ltac:(intros r Hr; cbn in Hr;
                        repeat (destruct Hr as [<- | Hr]; [reflexivity |]);
                        destruct Hr))).
  split.
  - exists (nth 0 mockRecordings weeklyTeamMeeting).
    split; [now left | split; reflexivity].
  - exists (nth 1 mockRecordings weeklyTeamMeeting).
    split; [right; now left | split; reflexivity].
Defined.

End DayFacts.

(** ** Month navigation of the library page

    [previousMonth] and [nextMonth] copy [currentMonth] and call
    [setMonth] on the copy.  [setMonth(month)] keeps the year, the day of
    the month and the time of day of the date and goes through [MakeDay]
    (ECMA-262, 21.4.4.25), so a day that the target month does not have
    runs over into the month after it. *)
Module LibraryNavigation.

Import JSTime.

Definition previousMonth (tz : TimeZone) (currentMonth : DateObject)
  : DateObject :=
  let prevMonth := currentMonth in
  setMonth tz prevMonth (minus (getMonth tz prevMonth) (Some 1)).

Definition nextMonth (tz : TimeZone) (currentMonth : DateObject)
  : DateObject :=
  let nextMonth := currentMonth in
  setMonth tz nextMonth (plus (getMonth tz nextMonth) (Some 1)).

End LibraryNavigation.

Section NavigationFacts.

Import LibraryNavigation.

(** The number of the month of a day, months counted from year 0. *)
Definition monthNumber (t : Date) : Z := 12 * getFullYear t + getMonth t.

(** The local days that [setMonth] makes of a local day [t] for the month
    after and the month before. *)
Definition dayNextMonth (t : Date) : Date :=
  MakeDay (YearFromTime t) (getMonth t + 1) (DateFromTime t).

Definition dayPreviousMonth (t : Date) : Date :=
  MakeDay (YearFromTime t) (getMonth t - 1) (DateFromTime t).

Lemma dayNextMonth_eq (t : Date) :
  dayNextMonth t = FirstOfMonth (monthNumber t + 1) + getDate t - 1.
Proof.
  unfold dayNextMonth, monthNumber, getFullYear, getMonth, getDate.
  rewrite MakeDay_FirstOfMonth. do 3 f_equal. lia.
Qed.

Lemma dayPreviousMonth_eq (t : Date) :
  dayPreviousMonth t = FirstOfMonth (monthNumber t - 1) + getDate t - 1.
Proof.
  unfold dayPreviousMonth, monthNumber, getFullYear, getMonth, getDate.
  rewrite MakeDay_FirstOfMonth. do 3 f_equal. lia.
Qed.

Lemma date_in_month (t : Date) :
  FirstOfMonth (monthNumber t) <= t < FirstOfMonth (monthNumber t + 1) /\
  getDate t = t - FirstOfMonth (monthNumber t) + 1 /\
  1 <= getDate t <= MonthLength (monthNumber t).
Proof.
  destruct (month_of_day t) as (_ & H & Hd). cbv zeta in H, Hd.
  fold (monthNumber t) in H, Hd.
  pose proof (FirstOfMonth_succ (monthNumber t)). repeat split; lia.
Qed.

Lemma landed (t : Date) (n : Z) :
  FirstOfMonth n <= t < FirstOfMonth (n + 1) ->
  monthNumber t = n /\ getDate t = t - FirstOfMonth n + 1.
Proof.
  intros H. split; [now apply month_unique |].
  now destruct (getters_in_month t n H) as (_ & _ & Hd).
Qed.

Lemma round_trip_by_day (t : Date) :
  getDate t <= 28 ->
  monthNumber (dayNextMonth t) = monthNumber t + 1 /\
  getDate (dayNextMonth t) = getDate t /\
  monthNumber (dayPreviousMonth t) = monthNumber t - 1 /\
  getDate (dayPreviousMonth t) = getDate t /\
  dayPreviousMonth (dayNextMonth t) = t /\
  dayNextMonth (dayPreviousMonth t) = t.
Proof.
  intros H28.
  destruct (date_in_month t) as (Hin & Hd & Hrange).
  set (n := monthNumber t) in *.
  pose proof (MonthLength_bounds (n + 1)) as Hn.
  pose proof (MonthLength_bounds (n - 1)) as Hp.
  pose proof (FirstOfMonth_succ (n + 1)) as Hs.
  pose proof (FirstOfMonth_pred n) as Hpred.
  assert (Hnext : monthNumber (dayNextMonth t) = n + 1 /\
                  getDate (dayNextMonth t) = getDate t).
  { destruct (landed (dayNextMonth t) (n + 1)) as [H1 H2].
    - rewrite dayNextMonth_eq. fold n. lia.
    - split; [exact H1 |]. rewrite H2, dayNextMonth_eq. fold n. lia. }
  assert (Hprev : monthNumber (dayPreviousMonth t) = n - 1 /\
                  getDate (dayPreviousMonth t) = getDate t).
  { destruct (landed (dayPreviousMonth t) (n - 1)) as [H1 H2].
    - rewrite dayPreviousMonth_eq. fold n. replace (n - 1 + 1) with n by lia. lia.
    - split; [exact H1 |]. rewrite H2, dayPreviousMonth_eq. fold n. lia. }
  destruct Hnext as [Hn1 Hn2]. destruct Hprev as [Hp1 Hp2].
  repeat split; try assumption.
  - rewrite dayPreviousMonth_eq, Hn1, Hn2. replace (n + 1 - 1) with n by lia. lia.
  - rewrite dayNextMonth_eq, Hp1, Hp2. replace (n - 1 + 1) with n by lia. lia.
Qed.

Lemma overflow_by_day (t : Date) :
  (monthNumber (dayNextMonth t) = monthNumber t + 1 \/
   monthNumber (dayNextMonth t) = monthNumber t + 2 /\
   getDate (dayNextMonth t) < getDate t /\ 28 < getDate t) /\
  (monthNumber (dayPreviousMonth t) = monthNumber t - 1 \/
   monthNumber (dayPreviousMonth t) = monthNumber t /\
   getDate (dayPreviousMonth t) < getDate t /\ 28 < getDate t).
Proof.
  destruct (date_in_month t) as (Hin & Hd & Hrange).
  set (n := monthNumber t) in *.
  pose proof (MonthLength_bounds n) as Hl.
  pose proof (MonthLength_bounds (n + 1)) as Hn.
  pose proof (MonthLength_bounds (n + 2)) as Hn2.
  pose proof (MonthLength_bounds (n - 1)) as Hp.
  pose proof (FirstOfMonth_succ n) as Hs0.
  pose proof (FirstOfMonth_succ (n + 1)) as Hs.
  pose proof (FirstOfMonth_succ (n + 2)) as Hs2.
  pose proof (FirstOfMonth_pred n) as Hpred.
  replace (n + 1 + 1) with (n + 2) in Hs by lia.
  replace (n + 2 + 1) with (n + 3) in Hs2 by lia.
  split.
  - destruct (Z_le_gt_dec (getDate t) (MonthLength (n + 1))) as [Hle | Hgt].
    + left. apply (landed (dayNextMonth t) (n + 1)).
      rewrite dayNextMonth_eq. fold n. replace (n + 1 + 1) with (n + 2) by lia. lia.
    + right. destruct (landed (dayNextMonth t) (n + 2)) as [H1 H2].
      * rewrite dayNextMonth_eq. fold n. replace (n + 2 + 1) with (n + 3) by lia.
        lia.
      * split; [exact H1 |]. rewrite H2, dayNextMonth_eq. fold n. lia.
  - destruct (Z_le_gt_dec (getDate t) (MonthLength (n - 1))) as [Hle | Hgt].
    + left. apply (landed (dayPreviousMonth t) (n - 1)).
      rewrite dayPreviousMonth_eq. fold n. replace (n - 1 + 1) with n by lia. lia.
    + right. destruct (landed (dayPreviousMonth t) n) as [H1 H2].
      * rewrite dayPreviousMonth_eq. fold n. lia.
      * split; [exact H1 |]. rewrite H2, dayPreviousMonth_eq. fold n. lia.
Qed.

(** The days that [setMonth] makes of the days of the months from
    December -271821 to January 275760 are inside the range of [Date]. *)
Lemma dayNextMonth_range (t : Date) :
  -3261842 <= monthNumber t <= 3309119 ->
  -99999998 <= dayNextMonth t <= 99999998.
Proof.
  intros H. rewrite dayNextMonth_eq.
  pose proof (getDate_bounds t).
  pose proof (FirstOfMonth_range (monthNumber t + 1) ltac:(lia)). lia.
Qed.

Lemma dayPreviousMonth_range (t : Date) :
  -3261840 <= monthNumber t <= 3309121 ->
  -99999998 <= dayPreviousMonth t <= 99999998.
Proof.
  intros H. rewrite dayPreviousMonth_eq.
  pose proof (getDate_bounds t).
  pose proof (FirstOfMonth_range (monthNumber t - 1) ltac:(lia)). lia.
Qed.

Lemma year_in_range (t : Date) :
  -271820 <= getFullYear t <= 275759 -> -3261840 <= monthNumber t <= 3309119.
Proof.
  intros H. destruct (month_of_day t) as (Hm & _ & _). unfold monthNumber. lia.
Qed.

Variable tz : JSTime.TimeZone.
Hypothesis civil : JSTime.Civil tz.

Lemma localDay_nextMonth (currentMonth : JSTime.DateObject) (D : Date) :
  JSTime.localDay tz currentMonth = Some D ->
  -3261842 <= monthNumber D <= 3309119 ->
  JSTime.localDay tz (nextMonth tz currentMonth) = Some (dayNextMonth D).
Proof.
  intros HD Hrange. unfold nextMonth, JSTime.getMonth. cbv zeta.
  rewrite HD. cbn [option_map JSTime.plus].
  apply (localDay_setMonth tz civil currentMonth D (getMonth D + 1) HD).
  exact (dayNextMonth_range D Hrange).
Qed.

Lemma localDay_previousMonth (currentMonth : JSTime.DateObject) (D : Date) :
  JSTime.localDay tz currentMonth = Some D ->
  -3261840 <= monthNumber D <= 3309121 ->
  JSTime.localDay tz (previousMonth tz currentMonth) = Some (dayPreviousMonth D).
Proof.
  intros HD Hrange. unfold previousMonth, JSTime.getMonth. cbv zeta.
  rewrite HD. cbn [option_map JSTime.minus].
  apply (localDay_setMonth tz civil currentMonth D (getMonth D - 1) HD).
  exact (dayPreviousMonth_range D Hrange).
Qed.

End NavigationFacts.

Section NavigationTheorems.

Import LibraryNavigation.

(** In a civil time zone, from a date of a year within the range of
    [Date] whose day of the month is at most 28, [nextMonth] goes to the
    same day of the following month and [previousMonth] to the same day
    of the month before, and each undoes the other as far as the calendar
    day goes. *)
Theorem navigation_round_trip (tz : JSTime.TimeZone)
    (currentMonth : JSTime.DateObject) (year date : Z) :
  JSTime.Civil tz ->
  JSTime.getFullYear tz currentMonth = Some year ->
  -271820 <= year <= 275759 ->
  JSTime.getDate tz currentMonth = Some date ->
  date <= 28 ->
  exists D,
    JSTime.localDay tz currentMonth = Some D /\
    option_map monthNumber (JSTime.localDay tz (nextMonth tz currentMonth))
    = Some (monthNumber D + 1) /\
    JSTime.getDate tz (nextMonth tz currentMonth) = Some date /\
    option_map monthNumber (JSTime.localDay tz (previousMonth tz currentMonth))
    = Some (monthNumber D - 1) /\
    JSTime.getDate tz (previousMonth tz currentMonth) = Some date /\
    JSTime.localDay tz (previousMonth tz (nextMonth tz currentMonth)) = Some D /\
    JSTime.localDay tz (nextMonth tz (previousMonth tz currentMonth)) = Some D.
Proof.
  intros Hcivil Hyear Hrange Hdate H28.
  destruct (localDay_year tz currentMonth year Hyear) as (D & HD & HY).
  assert (Hd : getDate D = date).
  { unfold JSTime.getDate in Hdate. rewrite HD in Hdate.
    cbn [option_map] in Hdate. now injection Hdate. }
  pose proof (year_in_range D ltac:(lia)) as Hn.
  destruct (round_trip_by_day D ltac:(lia))
    as (Hn1 & Hn2 & Hp1 & Hp2 & Hpn & Hnp).
  pose proof (localDay_nextMonth tz Hcivil currentMonth D HD ltac:(lia)) as Hnext.
  pose proof (localDay_previousMonth tz Hcivil currentMonth D HD ltac:(lia))
    as Hprev.
  exists D. split; [exact HD |].
  split; [rewrite Hnext; cbn [option_map]; now rewrite Hn1 |].
  split; [unfold JSTime.getDate; rewrite Hnext; cbn [option_map]; congruence |].
  split; [rewrite Hprev; cbn [option_map]; now rewrite Hp1 |].
  split; [unfold JSTime.getDate; rewrite Hprev; cbn [option_map]; congruence |].
  split.
  - rewrite (localDay_previousMonth tz Hcivil _ _ Hnext) by lia.
    now rewrite Hpn.
  - rewrite (localDay_nextMonth tz Hcivil _ _ Hprev) by lia.
    now rewrite Hnp.
Qed.

Lemma navigation_round_trip_witness :
  let tz := JSTime.fixedOffset 3600000 in
  let currentMonth := JSTime.construct tz (Some 2025) (Some 2) (Some 6) in
  JSTime.localDay tz (previousMonth tz (nextMonth tz currentMonth))
  = JSTime.localDay tz currentMonth /\
  JSTime.getDate tz (nextMonth tz currentMonth) = Some 6.
Proof.
  destruct (navigation_round_trip (JSTime.fixedOffset 3600000)
              (JSTime.construct (JSTime.fixedOffset 3600000)
                 (Some 2025) (Some 2) (Some 6))
              2025 6
              (fixedOffset_civil 3600000 ltac:(vm_compute; discriminate))
              ltac:(vm_compute; reflexivity) ltac:(lia)
              ltac:(vm_compute; reflexivity) ltac:(lia))
    as (D & HD & _ & Hdate & _ & _ & Hback & _).
  cbv zeta. split; [now rewrite Hback, HD | exact Hdate].
Defined.

(** Under the same conditions on the zone and the year, but for any day
    of the month: [nextMonth] moves forward by one month, or by two when
    the next month has no such day; [previousMonth] moves back by one
    month, or stays in the month it is in when the month before has no
    such day.  31 January 2025 goes forward to 3 March, and 31 March 2025
    goes back to 3 March. *)
Theorem navigation_overflow (tz : JSTime.TimeZone)
    (currentMonth : JSTime.DateObject) (year : Z) :
  JSTime.Civil tz ->
  JSTime.getFullYear tz currentMonth = Some year ->
  -271820 <= year <= 275759 ->
  (exists D Dn Dp,
     JSTime.localDay tz currentMonth = Some D /\
     JSTime.localDay tz (nextMonth tz currentMonth) = Some Dn /\
     JSTime.localDay tz (previousMonth tz currentMonth) = Some Dp /\
     (monthNumber Dn = monthNumber D + 1 \/
      monthNumber Dn = monthNumber D + 2 /\
      getDate Dn < getDate D /\ 28 < getDate D) /\
     (monthNumber Dp = monthNumber D - 1 \/
      monthNumber Dp = monthNumber D /\
      getDate Dp < getDate D /\ 28 < getDate D)) /\
  JSTime.localDay tz
    (nextMonth tz (JSTime.construct tz (Some 2025) (Some 0) (Some 31)))
  = Some (newDate 2025 2 3) /\
  JSTime.localDay tz
    (previousMonth tz (JSTime.construct tz (Some 2025) (Some 2) (Some 31)))
  = Some (newDate 2025 2 3).
Proof.
  intros Hcivil Hyear Hrange.
  destruct (localDay_year tz currentMonth year Hyear) as (D & HD & HY).
  pose proof (year_in_range D ltac:(lia)) as Hn.
  destruct (overflow_by_day D) as [Hnext Hprev].
  split; [| split].
  - exists D, (dayNextMonth D), (dayPreviousMonth D).
    split; [exact HD |].
    split; [apply localDay_nextMonth; [exact Hcivil | exact HD | lia] |].
    split; [apply localDay_previousMonth; [exact Hcivil | exact HD | lia] |].
    split; [exact Hnext | exact Hprev].
  - rewrite (localDay_nextMonth tz Hcivil _ (newDate 2025 0 31)).
    + reflexivity.
    + apply (localDay_construct tz Hcivil). vm_compute. split; discriminate.
    + vm_compute. split; discriminate.
  - rewrite (localDay_previousMonth tz Hcivil _ (newDate 2025 2 31)).
    + reflexivity.
    + apply (localDay_construct tz Hcivil). vm_compute. split; discriminate.
    + vm_compute. split; discriminate.
Qed.

Lemma navigation_overflow_witness :
  let tz := JSTime.fixedOffset 3600000 in
  JSTime.localDay tz
    (nextMonth tz (JSTime.construct tz (Some 2025) (Some 0) (Some 31)))
  = Some (newDate 2025 2 3).
Proof.
  exact (proj1 (proj2
           (navigation_overflow (JSTime.fixedOffset 3600000)
              (JSTime.construct (JSTime.fixedOffset 3600000)
                 (Some 2025) (Some 2) (Some 6))
              2025
              (fixedOffset_civil 3600000 ltac:(vm_compute; discriminate))
              ltac:(vm_compute; reflexivity) ltac:(lia)))).
Defined.

End NavigationTheorems.

(** ** Selection in the file list

    [handleSelectRecording] and [handleSelectAll] of [FileListView], with
    the [checked] of its select-all box; the library page has the same
    toggle under the same name.  Ids are strings, compared by
    [Array.prototype.includes] and [!==]. *)
Module Selection.

Import FileListView DayStatus.

(** [prev.includes(id)]. *)
Definition includesId (prev : list jsstring) (id0 : jsstring) : bool :=
  existsb (strEq id0) prev.

(** [setSelectedRecordings((prev) => prev.includes(id) ?
    prev.filter((recId) => recId !== id) : [...prev, id])]. *)
Definition handleSelectRecording (prev : list jsstring) (id0 : jsstring)
  : list jsstring :=
  if includesId prev id0 then filter (fun recId => negb (strEq recId id0)) prev
  else prev ++ [id0].

Definition handleSelectAll (selectedRecordings : list jsstring)
    (filteredRecordings : list Recording) : list jsstring :=
  if (length selectedRecordings =? length filteredRecordings)%nat then []
  else map id filteredRecordings.

(** [checked] of the select-all box. *)
Definition selectAllChecked (selectedRecordings : list jsstring)
    (filteredRecordings : list Recording) : bool :=
  (length selectedRecordings =? length filteredRecordings)%nat
  && (0 <? length filteredRecordings)%nat.

End Selection.

Section SelectionFacts.

Import FileListView DayStatus Selection.

Lemma strEq_true (a b : jsstring) : strEq a b = true <-> a = b.
Proof.
  unfold strEq. destruct (list_eq_dec ascii_dec a b); split; congruence.
Qed.

Lemma strEq_false (a b : jsstring) : strEq a b = false <-> a <> b.
Proof.
  unfold strEq. destruct (list_eq_dec ascii_dec a b); split; congruence.
Qed.

Lemma includesId_In (prev : list jsstring) (id0 : jsstring) :
  includesId prev id0 = true <-> In id0 prev.
Proof.
  unfold includesId. rewrite existsb_exists. split.
  - intros (x & Hx & E). apply strEq_true in E. now subst.
  - intros H. exists id0. split; [exact H | now apply strEq_true].
Qed.

(** Clicking a recording's box flips whether its id is selected and
    leaves every other id as it was; a selection without duplicates stays
    without duplicates; and two clicks on a recording that was not
    selected give back the very list there was. *)
Theorem handleSelectRecording_toggles (prev : list jsstring) (id0 : jsstring) :
  (In id0 (handleSelectRecording prev id0) <-> ~ In id0 prev) /\
  (forall x, x <> id0 -> In x (handleSelectRecording prev id0) <-> In x prev) /\
  (NoDup prev -> NoDup (handleSelectRecording prev id0)) /\
  (~ In id0 prev ->
   handleSelectRecording (handleSelectRecording prev id0) id0 = prev).
Proof.
  unfold handleSelectRecording at 1 2 3.
  destruct (includesId prev id0) eqn:E.
  - apply includesId_In in E.
    split; [| split; [| split]].
    + rewrite filter_In. split.
      * intros [_ H]. apply negb_true_iff, strEq_false in H. congruence.
      * intros H. contradiction.
    + intros x Hx. rewrite filter_In. split; [tauto |].
      intros H. split; [exact H |]. now apply negb_true_iff, strEq_false.
    + apply NoDup_filter.
    + intros H. contradiction.
  - assert (Hnot : ~ In id0 prev).
    { intros H. apply includesId_In in H. congruence. }
    split; [| split; [| split]].
    + split; [tauto |]. intros _. apply in_or_app. right. now left.
    + intros x Hx. rewrite in_app_iff. cbn. intuition congruence.
    + intros Hnd. apply NoDup_app; [exact Hnd | repeat constructor; intros [] |].
      intros a Ha [<- | []]. contradiction.
    + intros _. unfold handleSelectRecording.
      assert (Hin : includesId (prev ++ [id0]) id0 = true).
      { apply includesId_In, in_or_app. right. now left. }
      rewrite E, Hin, filter_app. cbn [filter].
      assert (Hself : strEq id0 id0 = true) by now apply strEq_true.
      rewrite Hself. cbn [negb]. rewrite app_nil_r.
      apply filter_all. intros x Hx. apply negb_true_iff, strEq_false.
      congruence.
Qed.

Lemma handleSelectRecording_toggles_witness :
  NoDup (handleSelectRecording [str "1"; str "3"] (str "2")) /\
  handleSelectRecording (handleSelectRecording [str "1"; str "3"] (str "2"))
    (str "2")
  = [str "1"; str "3"].
Proof.
  destruct (handleSelectRecording_toggles [str "1"; str "3"] (str "2"))
    as (_ & _ & Hnd & Htwice).
  split.
  - apply Hnd. repeat constructor; cbn; intuition discriminate.
  - apply Htwice. cbn. intuition discriminate.
Defined.

(** With distinct ids on display and a duplicate-free selection taken
    from them, the select-all box is checked exactly when the list is not
    empty and every recording on display is selected, and a click on it
    clears the selection when all are selected and selects all of them
    otherwise. *)
Theorem handleSelectAll_all_or_none (selectedRecordings : list jsstring)
    (filteredRecordings : list Recording) :
  NoDup (map id filteredRecordings) ->
  NoDup selectedRecordings ->
  incl selectedRecordings (map id filteredRecordings) ->
  let all := forall r, In r filteredRecordings -> In (id r) selectedRecordings in
  (selectAllChecked selectedRecordings filteredRecordings = true <->
   filteredRecordings <> [] /\ all) /\
  (all -> handleSelectAll selectedRecordings filteredRecordings = []) /\
  (~ all ->
   handleSelectAll selectedRecordings filteredRecordings
   = map id filteredRecordings).
Proof.
  intros Hids Hsel Hincl all.
  assert (Hlen : length selectedRecordings = length filteredRecordings <-> all).
  { split.
    - intros Hl r Hr.
      assert (Hback : incl (map id filteredRecordings) selectedRecordings).
      { apply NoDup_length_incl; [exact Hsel | | exact Hincl].
        rewrite length_map. lia. }
      apply Hback. now apply in_map.
    - intros Hall.
      apply Nat.le_antisymm.
      + rewrite <- (length_map id filteredRecordings).
        now apply NoDup_incl_length.
      + rewrite <- (length_map id filteredRecordings).
        apply NoDup_incl_length; [exact Hids |].
        intros x Hx. apply in_map_iff in Hx as (r & <- & Hr). now apply Hall. }
  unfold selectAllChecked, handleSelectAll.
  split; [| split].
  - rewrite andb_true_iff, Nat.eqb_eq, Nat.ltb_lt, Hlen.
    destruct filteredRecordings; cbn; split; intros [H1 H2]; split;
      try assumption; try lia; congruence.
  - intros Hall. apply Hlen in Hall. apply Nat.eqb_eq in Hall. now rewrite Hall.
  - intros Hnot.
    destruct (Nat.eqb_spec (length selectedRecordings) (length filteredRecordings))
      as [E | E]; [| reflexivity].
    apply Hlen in E. contradiction.
Qed.

Lemma handleSelectAll_all_or_none_witness :
  handleSelectAll [str "2"] mockRecordings = map id mockRecordings /\
  handleSelectAll (map id mockRecordings) mockRecordings = [].
Proof.
  assert (Hids : NoDup (map id mockRecordings))
    by (repeat constructor; cbn; intuition discriminate).
  split.
  - apply (proj2 (proj2 (handleSelectAll_all_or_none [str "2"] mockRecordings
                           Hids
                           ltac:(repeat constructor; intros [])
                           ltac:(intros x [<- | []]; cbn; tauto)))).
    intros Hall. specialize (Hall weeklyTeamMeeting (or_introl eq_refl)).
    cbn in Hall. intuition discriminate.
  - apply (proj1 (proj2 (handleSelectAll_all_or_none (map id mockRecordings)
                           mockRecordings Hids Hids (incl_refl _)))).
    intros r Hr. now apply in_map.
Defined.

End SelectionFacts.

Section SearchEdges.

Import FileListView.

Lemma split_chars (sep : ascii) (q w : jsstring) (c : ascii) :
  In w (split sep q) -> In c w -> In c q.
Proof.
  revert w. induction q as [| a q IH]; intros w Hw Hc; cbn [split] in Hw.
  - destruct Hw as [<- | []]. destruct Hc.
  - destruct (Ascii.eqb a sep).
    + destruct Hw as [Hw | Hw]; [subst w; contradiction |].
      right. now apply (IH w).
    + pose proof (split_nonempty sep q) as Hne.
      destruct (split sep q) as [| w0 ws]; [contradiction |].
      destruct Hw as [Hw | Hw].
      * subst w. destruct Hc as [Hc | Hc]; [now left |].
        right. apply (IH w0); [now left | exact Hc].
      * right. apply (IH w); [now right | exact Hc].
Qed.

Lemma includes_empty (s : jsstring) : includes s [] = true.
Proof. destruct s; reflexivity. Qed.

(** A query without [*] in which a lone "-" stands between spaces (as it
    does while an exclusion is being typed, and in the title "Client
    Interview - Project Alpha") hides every recording: the term excluded
    is the empty string, which every title contains. *)
Theorem lone_dash_hides_all (recordings : list Recording) (q : jsstring) :
  ~ In "*"%char q -> In (str "-") (split " " q) ->
  filteredRecordings recordings q = [].
Proof.
  intros Hstar Hdash. unfold filteredRecordings.
  apply filter_none. intros r _. unfold keeps.
  assert (Hin : In "-"%char q)
    by (apply (split_chars " " q (str "-")); [exact Hdash | now left]).
  assert (Ht : truthy q = true) by (destruct q; [destruct Hin | reflexivity]).
  rewrite Ht. cbn [negb].
  change (str "*") with ["*"%char]. change (str "-") with ["-"%char].
  apply includes_unit_false in Hstar. apply includes_unit in Hin.
  rewrite Hstar, Hin. cbv zeta.
  apply andb_false_iff. right. apply negb_false_iff.
  apply existsb_exists. exists []. split; [| apply includes_empty].
  apply in_map_iff. exists ["-"%char]. split; [reflexivity |].
  apply filter_In. split; [exact Hdash | reflexivity].
Qed.

Lemma lone_dash_hides_all_witness :
  filteredRecordings [weeklyTeamMeeting] (str "team -") = [] /\
  filteredRecordings DayStatus.mockRecordings
    (str "Client Interview - Project Alpha") = [].
Proof.
  split.
  - apply lone_dash_hides_all.
    + cbn. intuition discriminate.
    + cbn. tauto.
  - apply lone_dash_hides_all.
    + cbn. intuition discriminate.
    + cbn. tauto.
Defined.

Lemma split_only_separators (sep : ascii) (q : jsstring) :
  (forall c, In c q -> c = sep) -> Forall (fun w => w = []) (split sep q).
Proof.
  induction q as [| a q IH]; intros H; cbn [split]; [repeat constructor |].
  rewrite (H a (or_introl eq_refl)), Ascii.eqb_refl.
  constructor; [reflexivity |]. apply IH. intros c Hc. apply H. now right.
Qed.

(** The empty query, and a query made of nothing but stars, keep every
    recording. *)
Theorem stars_only_keep_all (recordings : list Recording) (q : jsstring) :
  (forall c, In c q -> c = "*"%char) ->
  filteredRecordings recordings q = recordings.
Proof.
  intros H. unfold filteredRecordings. apply filter_all. intros r _.
  unfold keeps. destruct q as [| a q'] eqn:E; [reflexivity |]. rewrite <- E in *.
  assert (Ht : truthy q = true) by now subst q.
  rewrite Ht. cbn [negb]. change (str "*") with ["*"%char].
  assert (Hin : In "*"%char q).
  { subst q. left. apply H. now left. }
  apply includes_unit in Hin. rewrite Hin.
  rewrite (filter_none truthy); [reflexivity |].
  intros w Hw. pose proof (split_only_separators "*" q H) as Hall.
  rewrite Forall_forall in Hall. now rewrite (Hall w Hw).
Qed.

Lemma stars_only_keep_all_witness :
  filteredRecordings DayStatus.mockRecordings (str "**")
  = DayStatus.mockRecordings.
Proof.
  apply stars_only_keep_all. intros c [<- | [<- | []]]; reflexivity.
Defined.

End SearchEdges.

(** ** The two lists of the curiosity engine

    [unansweredQuestions] and [answeredQuestions], the filters on
    [q.answered] (a missing [answered] is falsy) that the component
    renders. *)
Module CuriosityLists.

Import CuriosityEngine.

(** Truthiness of [q.answered]. *)
Definition isAnswered (q : Question) : bool :=
  match answered q with
  | Some b => b
  | None => false
  end.

Definition unansweredQuestions (st : State) : list Question :=
  filter (fun q => negb (isAnswered q)) (questions st).

Definition answeredQuestions (st : State) : list Question :=
  filter (fun q => isAnswered q) (questions st).

End CuriosityLists.

Section CuriosityFacts.

Import CuriosityEngine CuriosityLists.

Lemma submitAnswer_blank (st : State) (qid : Z) :
  Blank (currentAnswer st) -> submitAnswer st qid = st.
Proof.
  intros H. unfold submitAnswer. apply blank_guard in H. now rewrite H.
Qed.

Lemma submitAnswer_clears (st : State) (qid : Z) :
  Blank (currentAnswer (submitAnswer st qid)).
Proof.
  unfold submitAnswer.
  destruct (negb (truthy (trim (currentAnswer st)))) eqn:E.
  - now apply blank_guard.
  - constructor.
Qed.

(** A second [submitAnswer] straight after a first (Enter pressed twice,
    or the button clicked after Enter) changes nothing, whatever question
    it is for: the first has either done nothing or emptied the answer
    field. *)
Theorem submitAnswer_twice (st : State) (qid qid' : Z) :
  submitAnswer (submitAnswer st qid) qid' = submitAnswer st qid.
Proof. apply submitAnswer_blank, submitAnswer_clears. Qed.

(** An answer that is not blank moves the questions of the given id out
    of the unanswered list, which keeps the others in their order, and
    into the answered list, which loses none of the questions it had; the
    number of questions stays the same. *)
Theorem submitAnswer_moves (st : State) (qid : Z) :
  ~ Blank (currentAnswer st) ->
  let st' := submitAnswer st qid in
  unansweredQuestions st'
  = filter (fun q => negb (id q =? qid)) (unansweredQuestions st) /\
  length (answeredQuestions st')
  = (length (answeredQuestions st)
     + length (filter (fun q => (id q =? qid)%Z) (unansweredQuestions st)))%nat /\
  (forall q, In q (answeredQuestions st') -> id q = qid \/
             In q (answeredQuestions st)) /\
  length (questions st') = length (questions st).
Proof.
  intros Hb st'. unfold st', submitAnswer.
  destruct (negb (truthy (trim (currentAnswer st)))) eqn:E;
    [now apply blank_guard in E |].
  unfold unansweredQuestions, answeredQuestions. cbn [questions].
  generalize (currentAnswer st) as a. intros a.
  split; [| split; [| split]].
  - induction (questions st) as [| q l IH]; [reflexivity |].
    cbn [map filter]. destruct (id q =? qid) eqn:Eq.
    + cbn [isAnswered answered withAnswer negb]. rewrite IH.
      destruct (negb (isAnswered q)); [cbn [filter]; now rewrite Eq | reflexivity].
    + rewrite IH. destruct (negb (isAnswered q)); [| reflexivity].
      cbn [filter]. now rewrite Eq.
  - induction (questions st) as [| q l IH]; [reflexivity |].
    cbn [map filter]. destruct (id q =? qid) eqn:Eq.
    + cbn [isAnswered answered withAnswer negb length]. rewrite IH.
      destruct (isAnswered q); cbn [negb filter length]; [lia |].
      rewrite Eq. cbn [length]. lia.
    + destruct (isAnswered q); cbn [negb filter length]; rewrite ?Eq, IH;
        reflexivity.
  - intros q Hq. apply filter_In in Hq as [Hq Ha].
    apply in_map_iff in Hq as (q0 & Hq0 & Hin).
    destruct (id q0 =? qid) eqn:Eq.
    + left. subst q. cbn. now apply Z.eqb_eq.
    + right. subst q. apply filter_In. now split.
  - apply length_map.
Qed.

Lemma submitAnswer_moves_witness :
  unansweredQuestions
    (submitAnswer {| questions := demoQuestions; currentAnswer := str "Dana" |} 2)
  = filter (fun q => negb (id q =? 2))
      (unansweredQuestions
         {| questions := demoQuestions; currentAnswer := str "Dana" |}).
Proof.
  apply (proj1 (submitAnswer_moves
                  {| questions := demoQuestions; currentAnswer := str "Dana" |} 2
                  ltac:(cbn [currentAnswer]; intros H; apply Forall_inv in H;
                        discriminate))).
Defined.

(** [skipQuestion] removes the questions of the given id and no other,
    keeps the rest in their order and leaves the answer field alone; a
    [submitAnswer] for the skipped id then changes no question. *)
Theorem skipQuestion_removes (st : State) (qid : Z) :
  (forall q, In q (questions (skipQuestion st qid)) <->
             In q (questions st) /\ id q <> qid) /\
  currentAnswer (skipQuestion st qid) = currentAnswer st /\
  questions (submitAnswer (skipQuestion st qid) qid)
  = questions (skipQuestion st qid) /\
  skipQuestion (skipQuestion st qid) qid = skipQuestion st qid.
Proof.
  split; [| split; [reflexivity | split]].
  - intros q. cbn [skipQuestion questions]. rewrite filter_In.
    rewrite negb_true_iff, Z.eqb_neq. reflexivity.
  - unfold submitAnswer.
    destruct (negb (truthy (trim (currentAnswer (skipQuestion st qid)))));
      [reflexivity |].
    cbn [questions skipQuestion].
    induction (questions st) as [| q l IH]; [reflexivity |].
    cbn [filter]. destruct (id q =? qid) eqn:Eq; cbn [negb]; [exact IH |].
    cbn [map]. now rewrite Eq, IH.
  - unfold skipQuestion. cbn [questions currentAnswer]. f_equal.
    induction (questions st) as [| q l IH]; [reflexivity |].
    cbn [filter]. destruct (id q =? qid) eqn:Eq; cbn [negb]; [exact IH |].
    cbn [filter]. now rewrite Eq, IH.
Qed.

End CuriosityFacts.

Section TranscriptRun.

Import LiveTranscript.

Lemma join_cons (sep : ascii) (a : jsstring) (l : list jsstring) :
  join sep (a :: l) = a ++ concat (map (fun w => sep :: w) l).
Proof.
  revert a. induction l as [| b l IH]; intros a.
  - cbn. now rewrite app_nil_r.
  - change (join sep (a :: b :: l)) with (a ++ sep :: join sep (b :: l)).
    rewrite IH. reflexivity.
Qed.

Lemma ingest_all (l : list jsstring) (prev : jsstring) :
  prev <> [] ->
  fold_left ingest l prev = prev ++ concat (map (fun w => " "%char :: w) l).
Proof.
  revert prev. induction l as [| w l IH]; intros prev Hne.
  - cbn. now rewrite app_nil_r.
  - cbn [fold_left map concat]. rewrite IH.
    + unfold ingest. destruct prev as [| c prev]; [contradiction |].
      cbn [truthy]. change (str " ") with [" "%char].
      now rewrite <- !app_assoc.
    + unfold ingest. destruct prev; [contradiction | discriminate].
Qed.

Lemma ingest_all_join (l : list jsstring) :
  Forall (fun w => w <> []) l -> fold_left ingest l [] = join " " l.
Proof.
  intros Hall. destruct l as [| a l]; [reflexivity |].
  apply Forall_inv in Hall. cbn [fold_left].
  change (ingest [] a) with a. rewrite ingest_all by exact Hall.
  now rewrite join_cons.
Qed.

(** The texts that the updaters of successive ticks read, the first tick
    finding [currentIndex] at [i]: [texts[currentIndex]] for an updater
    that React runs at the [setTranscript] call, [texts[currentIndex + 1]]
    for one that it runs at the next render, where the element past the
    last one is [undefined]. *)
Fixpoint readings (texts : list jsstring) (i : nat) (eager : list bool)
  : list jsstring :=
  match eager with
  | [] => []
  | e :: rest =>
      nth (if e then i else S i) (texts ++ [str "undefined"]) []
      :: readings texts (S i) rest
  end.

Lemma textAt_nth (texts : list jsstring) (i : nat) :
  (i <= length texts)%nat ->
  textAt texts i = nth i (texts ++ [str "undefined"]) [].
Proof.
  intros Hi. unfold textAt.
  destruct (Nat.eq_dec i (length texts)) as [-> | E].
  - rewrite nth_overflow by lia.
    now rewrite app_nth2, Nat.sub_diag by lia.
  - rewrite app_nth1 by lia. apply nth_indep. lia.
Qed.

Lemma ticks_ingest (texts : list jsstring) (eager : list bool)
    (recording : bool) (t : jsstring) (i : nat) :
  (i + length eager <= length texts)%nat ->
  run texts {| isRecording := recording; transcript := t; interval := Some i |}
    (map Tick eager)
  = {| isRecording := recording;
       transcript := fold_left ingest (readings texts i eager) t;
       interval := Some (i + length eager)%nat |}.
Proof.
  revert t i. induction eager as [| e rest IH]; intros t i Hlen.
  - cbn. now rewrite Nat.add_0_r.
  - cbn [length] in Hlen.
    cbn [map readings]. unfold run. cbn [fold_left].
    change (fold_left (step texts) (map Tick rest) ?x)
      with (run texts x (map Tick rest)).
    cbn [step interval].
    destruct (Nat.ltb_spec i (length texts)) as [_ | Hge]; [| lia].
    cbn [isRecording transcript].
    rewrite textAt_nth by (destruct e; lia).
    rewrite IH by lia. cbn [fold_left length].
    replace (S i + length rest)%nat with (i + S (length rest))%nat by lia.
    reflexivity.
Qed.

Lemma readings_nonempty (texts : list jsstring) (i : nat) (eager : list bool) :
  Forall (fun w => w <> []) texts ->
  (i + length eager <= length texts)%nat ->
  Forall (fun w => w <> []) (readings texts i eager).
Proof.
  intros Hall. revert i. induction eager as [| e rest IH]; intros i Hlen.
  - constructor.
  - cbn [length] in Hlen. cbn [readings]. constructor; [| apply IH; lia].
    assert (Hall' : Forall (fun w => w <> []) (texts ++ [str "undefined"])).
    { apply Forall_app. split; [exact Hall |].
      constructor; [discriminate | constructor]. }
    rewrite Forall_forall in Hall'. apply Hall'. apply nth_In.
    rewrite length_app. cbn [length]. destruct e; lia.
Qed.

Lemma readings_eager (texts : list jsstring) (i n : nat) :
  (i + n <= length texts)%nat ->
  readings texts i (repeat true n) = firstn n (skipn i texts).
Proof.
  revert i. induction n as [| n IH]; intros i Hlen; [reflexivity |].
  cbn [repeat readings]. rewrite IH by lia.
  rewrite app_nth1 by lia.
  clear IH. revert i Hlen. induction texts as [| a l IHl]; intros i Hlen.
  - cbn in Hlen. lia.
  - destruct i as [| i].
    + reflexivity.
    + cbn [nth skipn]. apply IHl. cbn in Hlen. lia.
Qed.

Lemma skipn_nth {A : Type} (l : list A) (k : nat) (d : A) :
  (k < length l)%nat -> skipn k l = nth k l d :: skipn (S k) l.
Proof.
  revert l. induction k as [| k IH]; intros l Hk.
  - destruct l; [cbn in Hk; lia | reflexivity].
  - destruct l as [| a l]; [cbn in Hk; lia |].
    cbn [nth]. rewrite !skipn_cons. apply IH. cbn in Hk. lia.
Qed.

Lemma readings_lazy (texts : list jsstring) (i n : nat) :
  (i + n = length texts)%nat ->
  readings texts i (repeat false n) = skipn (S i) (texts ++ [str "undefined"]).
Proof.
  revert i. induction n as [| n IH]; intros i Hlen.
  - cbn [repeat readings]. rewrite skipn_all2; [reflexivity |].
    rewrite length_app. cbn [length]. lia.
  - cbn [repeat readings]. rewrite IH by lia.
    symmetry. apply skipn_nth. rewrite length_app. cbn [length]. lia.
Qed.

(** Left to run its course while recording, the interval has the
    transcript end as the texts that its updaters read, joined by single
    spaces (none of the texts being empty); the tick after the last text
    clears the interval, and from then on ticks change nothing.  Were
    every updater run at its [setTranscript] call, the texts read would be
    the array itself.  With the first updater run at the call and the
    later ones at the next render, after [currentIndex++], they are the
    first text, then the third and those after it, then "undefined": the
    second text is never shown. *)
Theorem transcript_runs_out (texts : list jsstring) (eager : list bool)
    (last : bool) (more : list bool) :
  Forall (fun w => w <> []) texts ->
  length eager = length texts ->
  run texts (step texts mounted (Render true)) (map Tick (eager ++ last :: more))
  = {| isRecording := true;
       transcript := join " " (readings texts 0 eager);
       interval := None |} /\
  (eager = repeat true (length texts) -> readings texts 0 eager = texts) /\
  (forall a rest, texts = a :: rest ->
     eager = true :: repeat false (length rest) ->
     readings texts 0 eager = a :: skipn 1 (rest ++ [str "undefined"])).
Proof.
  intros Hall Hlen. split; [| split].
  - rewrite map_app. unfold run. rewrite fold_left_app.
    change (step texts mounted (Render true))
      with {| isRecording := true; transcript := []; interval := Some 0%nat |}.
    pose proof (ticks_ingest texts eager true [] 0 ltac:(lia)) as H.
    unfold run in H. rewrite H.
    rewrite ingest_all_join by (apply readings_nonempty; [exact Hall | lia]).
    cbn [Nat.add map fold_left step interval].
    rewrite Hlen, Nat.ltb_irrefl. cbn [isRecording transcript].
    induction more as [| m more IH]; [reflexivity |].
    cbn [map fold_left step interval]. exact IH.
  - intros ->. rewrite readings_eager by lia.
    cbn [skipn]. apply firstn_all.
  - intros a rest -> ->. cbn [readings nth app].
    rewrite readings_lazy by (cbn [length]; lia).
    reflexivity.
Qed.

Lemma transcript_runs_out_witness :
  transcript (run demoTexts (step demoTexts mounted (Render true))
                (map Tick ([true; false; false; false; false; false] ++ [false])))
  = join " " (readings demoTexts 0 [true; false; false; false; false; false]) /\
  readings demoTexts 0 [true; false; false; false; false; false]
  = [ nth 0 demoTexts []; nth 2 demoTexts []; nth 3 demoTexts [];
      nth 4 demoTexts []; nth 5 demoTexts []; str "undefined" ].
Proof.
  destruct (transcript_runs_out demoTexts
              [true; false; false; false; false; false] false []
              ltac:(repeat constructor; discriminate) eq_refl)
    as (Hrun & _ & Hlazy).
  split.
  - exact (f_equal transcript Hrun).
  - exact (Hlazy _ _ eq_refl eq_refl).
Defined.

End TranscriptRun.

Section InsightAccounting.

Import InsightSimulation.

Lemma fireAt_split (k : nat) (intervals : list nat) (i : nat)
    (before after : list nat) :
  fireAt k intervals = Some (i, before, after) ->
  intervals = before ++ i :: after.
Proof.
  revert k before. induction intervals as [| j rest IH]; intros k before H.
  - destruct k; discriminate.
  - destruct k as [| k]; cbn in H.
    + now injection H as <- <- <-.
    + destruct (fireAt k rest) as [[[j' b'] a'] |] eqn:E; [| discriminate].
      injection H as <- <- <-. cbn. f_equal. now apply IH with k.
Qed.

(** The entries that the live intervals have still to add. *)
Definition pending (intervals : list nat) : nat :=
  list_sum (map (fun currentIndex => length demoInsights - currentIndex)%nat
              intervals).

Lemma pending_app (a b : list nat) : pending (a ++ b) = (pending a + pending b)%nat.
Proof. unfold pending. now rewrite map_app, list_sum_app. Qed.

Lemma pending_cons (i : nat) (l : list nat) :
  pending (i :: l) = (5 - i + pending l)%nat.
Proof. reflexivity. Qed.

(** The number of calls of [simulateAIInsights] among the events. *)
Definition starts (events : list Event) : nat :=
  length (filter (fun e => match e with SimulateAIInsights => true | _ => false end)
            events).

Lemma step_accounting (st : State) (e : Event) :
  (length (aiInsights (step st e)) + pending (intervals (step st e)))%nat
  = (length (aiInsights st) + pending (intervals st) + 5 * starts [e])%nat /\
  (forall x, In x (aiInsights (step st e)) ->
     In x (aiInsights st) \/
     exists i, (1 <= i <= 5)%nat /\ x = nth_error demoInsights i \/
               (i < 5)%nat /\ x = nth_error demoInsights i).
Proof.
  destruct e as [| k eager]; cbn [step].
  - cbn [aiInsights intervals]. rewrite pending_app.
    split; [cbn; lia | tauto].
  - destruct (fireAt k (intervals st)) as [[[i before] after] |] eqn:E.
    + apply fireAt_split in E.
      destruct (Nat.ltb_spec i (length demoInsights)) as [Hlt | Hge];
        cbn [aiInsights intervals]; rewrite E, !pending_app.
      * split.
        -- rewrite length_app, !pending_cons. cbn [length starts filter].
           cbn in Hlt. lia.
        -- intros x Hx. apply in_app_or in Hx as [Hx | [<- | []]]; [now left |].
           right. cbn in Hlt. destruct eager.
           ++ exists i. right. split; [lia | reflexivity].
           ++ exists (S i). left. split; [lia | reflexivity].
      * split; [| tauto]. rewrite !pending_cons.
        cbn [length starts filter]. cbn in Hge. lia.
    + split; [cbn; lia | tauto].
Qed.

(** However the intervals of successive recordings interleave, whenever
    React runs their updaters, and whether or not a recording was stopped,
    every call of [simulateAIInsights] accounts for five entries of
    [aiInsights]: those added and those the live intervals have still to
    add are five per call.  Every entry is read from [demoInsights] at an
    index from 0 to 5, so that it is one of the demo insights or, at index
    5, [undefined].  With every updater run at the render that follows,
    one recording shows the second to the fifth insight and then
    [undefined]: the first is never shown. *)
Theorem insights_five_per_start (events : list Event) :
  let st := run {| aiInsights := []; intervals := [] |} events in
  (length (aiInsights st) + pending (intervals st))%nat = (5 * starts events)%nat /\
  (forall x, In x (aiInsights st) ->
     x = None \/ exists insight, x = Some insight /\ In insight demoInsights) /\
  (intervals st = [] -> length (aiInsights st) = (5 * starts events)%nat) /\
  (forall last,
     run {| aiInsights := []; intervals := [] |}
       (SimulateAIInsights :: repeat (Fire 0 false) 5 ++ [Fire 0 last])
     = {| aiInsights := map Some (skipn 1 demoInsights) ++ [None];
          intervals := [] |}).
Proof.
  cbv zeta.
  assert (H : forall st0,
             let st := run st0 events in
             (length (aiInsights st) + pending (intervals st))%nat
             = (length (aiInsights st0) + pending (intervals st0)
                + 5 * starts events)%nat /\
             (forall x, In x (aiInsights st) ->
                In x (aiInsights st0) \/
                x = None \/ exists insight, x = Some insight /\ In insight demoInsights)).
  { induction events as [| e events IH]; intros st0; cbv zeta.
    - cbn. split; [lia | tauto].
    - cbn [run fold_left]. fold (run (step st0 e) events).
      destruct (IH (step st0 e)) as [H1 H2].
      destruct (step_accounting st0 e) as [H3 H4].
      split.
      + rewrite H1, H3. unfold starts. cbn [filter].
        destruct e; cbn [length]; lia.
      + intros x Hx. destruct (H2 x Hx) as [Hx' | Hx']; [| now right].
        destruct (H4 x Hx') as [Hold | (i & Hi)]; [now left |].
        right. assert (Hi5 : (i <= 5)%nat) by (destruct Hi as [[? _] | [? _]]; lia).
        assert (Hx0 : x = nth_error demoInsights i) by (destruct Hi as [[_ ?] | [_ ?]]; assumption).
        destruct (nth_error demoInsights i) as [insight |] eqn:En.
        * right. exists insight. split; [exact Hx0 |].
          eapply nth_error_In. exact En.
        * now left. }
  destruct (H {| aiInsights := []; intervals := [] |}) as [H1 H2].
  cbn [aiInsights intervals length] in H1, H2.
  split; [exact H1 |]. split; [| split].
  - intros x Hx. destruct (H2 x Hx) as [[] | Hx']. exact Hx'.
  - intros Hnil. rewrite Hnil in H1. cbn in H1. lia.
  - intros last. destruct last; reflexivity.
Qed.

End InsightAccounting.

(** ** Answers on the record page: [handleAnswerQuestion]

    The record page keeps its own questions, with string ids, and answers
    one through the updater [(prev) => prev.map(...)]. *)
Module RecordQuestions.

Record Question := {
  id : jsstring;
  text : jsstring;
  answered : bool;
  answer : option jsstring
}.

Definition handleAnswerQuestion (prev : list Question) (id0 answer0 : jsstring)
  : list Question :=
  map (fun q =>
         if DayStatus.strEq (id q) id0
         then {| id := id q; text := text q; answered := true;
                 answer := Some answer0 |}
         else q)
    prev.

End RecordQuestions.

Section RecordQuestionFacts.

Import RecordQuestions.

(** A second answer to a question replaces the first, so that answering
    twice with the same text is answering once; answers to different
    questions can be given in either order; and no answer changes the
    number, the order, the ids or the texts of the questions. *)
Theorem handleAnswerQuestion_composes (prev : list Question)
    (id1 id2 a b : jsstring) :
  handleAnswerQuestion (handleAnswerQuestion prev id1 a) id1 b
  = handleAnswerQuestion prev id1 b /\
  (id1 <> id2 ->
   handleAnswerQuestion (handleAnswerQuestion prev id1 a) id2 b
   = handleAnswerQuestion (handleAnswerQuestion prev id2 b) id1 a) /\
  map id (handleAnswerQuestion prev id1 a) = map id prev /\
  map text (handleAnswerQuestion prev id1 a) = map text prev.
Proof.
  unfold handleAnswerQuestion. rewrite !map_map.
  split; [| split; [| split]].
  - apply map_ext. intros q.
    destruct (DayStatus.strEq (id q) id1) eqn:E; cbn [id]; now rewrite E.
  - intros Hne. apply map_ext. intros q.
    destruct (DayStatus.strEq (id q) id1) eqn:E1;
      destruct (DayStatus.strEq (id q) id2) eqn:E2; cbn [id];
      rewrite ?E1, ?E2; try reflexivity.
    apply strEq_true in E1, E2. congruence.
  - apply map_ext. intros q. now destruct (DayStatus.strEq (id q) id1).
  - apply map_ext. intros q. now destruct (DayStatus.strEq (id q) id1).
Qed.

Lemma handleAnswerQuestion_composes_witness :
  let qs := [ {| id := str "q-1"; text := str "A?"; answered := false;
                 answer := None |};
              {| id := str "q-2"; text := str "B?"; answered := false;
                 answer := None |} ] in
  handleAnswerQuestion (handleAnswerQuestion qs (str "q-1") (str "x"))
    (str "q-2") (str "y")
  = handleAnswerQuestion (handleAnswerQuestion qs (str "q-2") (str "y"))
      (str "q-1") (str "x").
Proof.
  cbv zeta.
  apply (proj1 (proj2 (handleAnswerQuestion_composes _ (str "q-1") (str "q-2")
                         (str "x") (str "y")))).
  discriminate.
Defined.

End RecordQuestionFacts.

(** ** The clock of the record page: [formatTime]

    [recordingTime] counts whole seconds, so [formatTime] is given an
    integer.  On the integers that a JavaScript number holds exactly, up
    to 2^53 - 1 in size, [Math.floor(a / b)] is [Z.div], [a % b] is
    [Z.rem] and [toString()] is the decimal numeral.  Beyond them the
    code computes on rounded doubles (and prints an exponent from 10^21
    on), which these definitions do not follow: the facts below are
    stated within that bound. *)
Module RecordTime.

Definition digitChar (d : Z) : ascii := ascii_of_nat (48 + Z.to_nat d).

(** The decimal digits of [n], most significant first, in front of
    [acc]. *)
Fixpoint digitsOf (fuel : nat) (n : Z) (acc : jsstring) : jsstring :=
  match fuel with
  | O => acc
  | S fuel' =>
      let acc' := digitChar (n mod 10) :: acc in
      if n <? 10 then acc' else digitsOf fuel' (n / 10) acc'
  end.

(** [n.toString()]. *)
Definition numberToString (n : Z) : jsstring :=
  let fuel := S (Z.to_nat (Z.log2 (Z.abs n))) in
  if n <? 0 then "-"%char :: digitsOf fuel (- n) [] else digitsOf fuel n [].

(** [s.padStart(targetLength, padString)]. *)
Definition padStart (s : jsstring) (targetLength : nat) (padString : jsstring)
  : jsstring :=
  let missing := (targetLength - length s)%nat in
  match padString with
  | [] => s
  | _ => firstn missing (concat (repeat padString missing)) ++ s
  end.

Definition formatTime (seconds : Z) : jsstring :=
  let hrs := seconds / 3600 in
  let mins := Z.rem seconds 3600 / 60 in
  let secs := Z.rem seconds 60 in
  padStart (numberToString hrs) 2 (str "0") ++ str ":" ++
  padStart (numberToString mins) 2 (str "0") ++ str ":" ++
  padStart (numberToString secs) 2 (str "0").

End RecordTime.

(** Reading a clock back: the value of a decimal numeral, and of
    "h:m:s". *)
Definition readDecimal (s : jsstring) : Z :=
  fold_left (fun acc c => 10 * acc + (Z.of_nat (nat_of_ascii c) - 48)) s 0.

Definition readClock (s : jsstring) : option Z :=
  match split ":" s with
  | [h; m; sec] => Some (3600 * readDecimal h + 60 * readDecimal m + readDecimal sec)
  | _ => None
  end.

Example formatTime_examples :
  RecordTime.formatTime 0 = str "00:00:00" /\
  RecordTime.formatTime 3725 = str "01:02:05" /\
  RecordTime.formatTime 360000 = str "100:00:00" /\
  readClock (str "01:02:05") = Some 3725.
Proof. repeat split. Qed.

Section ClockFacts.

Import RecordTime.

Definition isDigit (c : ascii) : Prop := (48 <= nat_of_ascii c <= 57)%nat.

Definition readFrom (a : Z) (s : jsstring) : Z :=
  fold_left (fun acc c => 10 * acc + (Z.of_nat (nat_of_ascii c) - 48)) s a.

Lemma digitChar_spec (d : Z) :
  0 <= d <= 9 ->
  isDigit (digitChar d) /\ Z.of_nat (nat_of_ascii (digitChar d)) - 48 = d.
Proof.
  intros H. unfold digitChar, isDigit.
  rewrite nat_ascii_embedding by lia. lia.
Qed.

Lemma readFrom_app (a : Z) (s t : jsstring) :
  readFrom a (s ++ t) = readFrom (readFrom a s) t.
Proof. unfold readFrom. apply fold_left_app. Qed.

Lemma digitsOf_spec (fuel : nat) (n : Z) (acc : jsstring) :
  (0 < fuel)%nat -> 0 <= n < 10 ^ Z.of_nat fuel ->
  exists ds,
    digitsOf fuel n acc = ds ++ acc /\
    Forall isDigit ds /\
    (forall a, readFrom a ds = a * 10 ^ Z.of_nat (length ds) + n) /\
    (1 <= length ds)%nat /\
    (n < 10 -> length ds = 1%nat) /\
    (n < 100 -> (length ds <= 2)%nat).
Proof.
  revert n acc. induction fuel as [| fuel IH]; intros n acc Hf Hn; [lia |].
  cbn [digitsOf].
  assert (Hd : 0 <= n mod 10 <= 9) by (Z.div_mod_to_equations; lia).
  destruct (digitChar_spec (n mod 10) Hd) as [Hdig Hval].
  destruct (Z.ltb_spec n 10) as [Hlt | Hge].
  - exists [digitChar (n mod 10)].
    split; [reflexivity |]. split; [| split; [| split; [| split]]].
    + constructor; [exact Hdig | constructor].
    + intros a. unfold readFrom. cbn [fold_left length]. rewrite Hval.
      change (Z.of_nat 1) with 1. rewrite Z.pow_1_r, Z.mod_small by lia. lia.
    + cbn. lia.
    + reflexivity.
    + cbn. lia.
  - assert (Hfuel : (0 < fuel)%nat).
    { destruct fuel; [| lia]. cbn in Hn. lia. }
    destruct (IH (n / 10) (digitChar (n mod 10) :: acc) Hfuel) as
      (ds & Heq & Hall & Hread & Hlen1 & Hone & Htwo).
    { rewrite Nat2Z.inj_succ, Z.pow_succ_r in Hn by lia.
      Z.div_mod_to_equations. lia. }
    exists (ds ++ [digitChar (n mod 10)]).
    split; [| split; [| split; [| split; [| split]]]].
    + rewrite Heq, <- app_assoc. reflexivity.
    + apply Forall_app. split; [exact Hall |].
      constructor; [exact Hdig | constructor].
    + intros a. rewrite readFrom_app, Hread. unfold readFrom at 1.
      cbn [fold_left]. rewrite Hval, length_app. cbn [length].
      rewrite Nat2Z.inj_add, Z.pow_add_r by lia.
      change (10 ^ Z.of_nat 1) with 10. Z.div_mod_to_equations. lia.
    + rewrite length_app. cbn. lia.
    + lia.
    + intros H100. rewrite length_app. cbn [length].
      rewrite Hone; [lia |]. Z.div_mod_to_equations. lia.
Qed.

Lemma fuel_enough (n : Z) :
  0 <= n -> n < 10 ^ Z.of_nat (S (Z.to_nat (Z.log2 n))).
Proof.
  intros Hn. rewrite Nat2Z.inj_succ, Z2Nat.id by apply Z.log2_nonneg.
  destruct (Z.eq_dec n 0) as [-> | Hne]; [cbn; lia |].
  destruct (Z.log2_spec n ltac:(lia)) as [_ Hlt].
  eapply Z.lt_le_trans; [exact Hlt |].
  apply Z.pow_le_mono_l. pose proof (Z.log2_nonneg n). lia.
Qed.

(** One field of the clock: the numeral of [n], padded to two places. *)
Lemma field_spec (n : Z) :
  0 <= n ->
  let field := padStart (numberToString n) 2 (str "0") in
  Forall isDigit field /\ readDecimal field = n /\
  (2 <= length field)%nat /\ (n < 100 -> length field = 2%nat).
Proof.
  intros Hn. cbv zeta. unfold numberToString.
  destruct (Z.ltb_spec n 0); [lia |]. rewrite Z.abs_eq by lia.
  destruct (digitsOf_spec (S (Z.to_nat (Z.log2 n))) n [] ltac:(lia))
    as (ds & Heq & Hall & Hread & Hlen1 & Hone & Htwo).
  { split; [lia | now apply fuel_enough]. }
  rewrite Heq, app_nil_r. unfold padStart. cbn [str list_ascii_of_string].
  destruct ds as [| c1 [| c2 ds]]; [cbn in Hlen1; lia | |].
  - cbn [length Nat.sub repeat concat firstn app].
    split; [| split; [| split]].
    + constructor; [| exact Hall]. unfold isDigit. cbn. lia.
    + specialize (Hread 0). unfold readFrom in Hread.
      cbn [fold_left length] in Hread.
      change (Z.of_nat 1) with 1 in Hread. rewrite Z.pow_1_r in Hread.
      unfold readDecimal. cbn [fold_left].
      change (10 * 0 + (Z.of_nat (nat_of_ascii "0") - 48)) with 0. lia.
    + cbn. lia.
    + reflexivity.
  - cbn [length Nat.sub firstn app]. split; [| split; [| split]].
    + exact Hall.
    + specialize (Hread 0). unfold readDecimal. unfold readFrom in Hread.
      rewrite Hread. lia.
    + cbn. lia.
    + intros H100. specialize (Htwo H100). cbn in Htwo |- *. lia.
Qed.

Lemma digits_no_colon (s : jsstring) : Forall isDigit s -> ~ In ":"%char s.
Proof.
  intros H Hin. rewrite Forall_forall in H. specialize (H _ Hin).
  unfold isDigit in H. cbn in H. lia.
Qed.

Lemma formatTime_read (seconds : Z) :
  0 <= seconds ->
  readClock (formatTime seconds) = Some seconds /\
  (seconds < 360000 -> length (formatTime seconds) = 8%nat).
Proof.
  intros Hs. unfold formatTime. cbv zeta.
  rewrite !Z.rem_mod_nonneg by lia.
  set (hrs := seconds / 3600). set (mins := seconds mod 3600 / 60).
  set (secs := seconds mod 60).
  assert (Hh : 0 <= hrs) by (unfold hrs; Z.div_mod_to_equations; lia).
  assert (Hm : 0 <= mins < 60) by (unfold mins; Z.div_mod_to_equations; lia).
  assert (Hsc : 0 <= secs < 60) by (unfold secs; Z.div_mod_to_equations; lia).
  assert (Hsum : 3600 * hrs + 60 * mins + secs = seconds)
    by (unfold hrs, mins, secs; Z.div_mod_to_equations; lia).
  destruct (field_spec hrs Hh) as (Dh & Rh & Lh & Lh2).
  destruct (field_spec mins (proj1 Hm)) as (Dm & Rm & _ & Lm).
  destruct (field_spec secs (proj1 Hsc)) as (Ds & Rs & _ & Ls).
  set (H := padStart (numberToString hrs) 2 (str "0")) in *.
  set (M := padStart (numberToString mins) 2 (str "0")) in *.
  set (S := padStart (numberToString secs) 2 (str "0")) in *.
  split.
  - unfold readClock. change (str ":") with [":"%char]. cbn [app].
    rewrite split_app by now apply digits_no_colon.
    rewrite split_app by now apply digits_no_colon.
    rewrite split_sepfree by now apply digits_no_colon.
    now rewrite Rh, Rm, Rs, Hsum.
  - intros Hlt. rewrite !length_app. cbn [str list_ascii_of_string length].
    rewrite Lh2, Lm, Ls; try lia; unfold hrs; Z.div_mod_to_equations; lia.
Qed.

(** For a whole number of seconds from 0 to 2^53 - 1, the clock reads back
    as that number: "h:m:s" with [3600 h + 60 m + s] the seconds given, so
    that different times in that range never show the same clock; and
    below a hundred hours the clock has exactly eight characters. *)
Theorem formatTime_round_trip (seconds : Z) :
  0 <= seconds <= 9007199254740991 ->
  readClock (formatTime seconds) = Some seconds /\
  (seconds < 360000 -> length (formatTime seconds) = 8%nat) /\
  (forall other, 0 <= other <= 9007199254740991 ->
     formatTime other = formatTime seconds -> other = seconds).
Proof.
  intros [Hs _]. destruct (formatTime_read seconds Hs) as [Hr Hl].
  split; [exact Hr |]. split; [exact Hl |].
  intros other [Ho _] Heq. destruct (formatTime_read other Ho) as [Hr' _].
  rewrite Heq, Hr in Hr'. now injection Hr' as ->.
Qed.

Lemma formatTime_round_trip_witness :
  readClock (formatTime 3725) = Some 3725 /\ length (formatTime 3725) = 8%nat.
Proof.
  destruct (formatTime_round_trip 3725 ltac:(lia)) as (Hr & Hl & _).
  split; [exact Hr | apply Hl; lia].
Defined.

End ClockFacts.

(** ** The intervals of the record page

    [timerRef] and [recordingTime] of the record page, next to the
    recorder modelled above, and every interval that the page sets.
    [startRecording] and [resumeRecording] put a new interval that counts
    seconds in [timerRef.current]; [pauseRecording] and the [onstop]
    handler clear the one that is there; [clearInterval] leaves the ref
    as it is.  [startRecording] also calls [simulateLiveTranscription],
    [simulateAIInsights] and [simulateCuriosityEngine], each of which
    sets an interval of its own that the page keeps no handle on: it
    clears itself at the firing that finds its array used up.  What the
    simulations write is followed in [LiveTranscript] and
    [InsightSimulation]; here it is the lives of the intervals.

    [startRecording] is asynchronous: a click on Record only begins it,
    and the rest runs when [getUserMedia] answers, the button staying on
    the page in between.  [pendingStarts] counts the calls that wait for
    that answer. *)
Module RecordClock.

(** What an interval does when it fires; the simulations carry the
    [currentIndex] of their closure. *)
Inductive Callback :=
| CountSecond                              (* setRecordingTime(prev => prev + 1) *)
| LiveTranscription (currentIndex : nat)
| AIInsights (currentIndex : nat)
| CuriosityEngine (currentIndex : nat).

Definition countsSeconds (cb : Callback) : bool :=
  match cb with
  | CountSecond => true
  | _ => false
  end.

(** [currentIndex < demo.length] and [currentIndex++]: [demoTexts] has
    six elements, [demoInsights] and [demoQuestions] five each. *)
Definition hasNext (cb : Callback) : bool :=
  match cb with
  | CountSecond => true
  | LiveTranscription i => (i <? 6)%nat
  | AIInsights i => (i <? 5)%nat
  | CuriosityEngine i => (i <? 5)%nat
  end.

Definition next (cb : Callback) : Callback :=
  match cb with
  | CountSecond => CountSecond
  | LiveTranscription i => LiveTranscription (S i)
  | AIInsights i => AIInsights (S i)
  | CuriosityEngine i => CuriosityEngine (S i)
  end.

Record Clock := {
  timerRef : option nat;                (* timerRef.current *)
  liveTimers : list (nat * Callback);   (* the intervals set and not cleared *)
  nextTimer : nat;                      (* the id that setInterval returns next *)
  recordingTime : Z;
  pendingStarts : nat                   (* startRecording calls awaiting getUserMedia *)
}.

Definition initialClock : Clock :=
  {| timerRef := None; liveTimers := []; nextTimer := 1; recordingTime := 0;
     pendingStarts := 0 |}.

(** [setInterval(cb, ...)], its result dropped or kept by the caller. *)
Definition setInterval (cb : Callback) (c : Clock) : Clock :=
  {| timerRef := timerRef c; liveTimers := liveTimers c ++ [(nextTimer c, cb)];
     nextTimer := S (nextTimer c); recordingTime := recordingTime c;
     pendingStarts := pendingStarts c |}.

(** [timerRef.current = setInterval(...)] with the callback that counts
    seconds. *)
Definition setTimer (c : Clock) : Clock :=
  let c' := setInterval CountSecond c in
  {| timerRef := Some (nextTimer c); liveTimers := liveTimers c';
     nextTimer := nextTimer c'; recordingTime := recordingTime c';
     pendingStarts := pendingStarts c' |}.

Definition clearInterval (t : nat) (c : Clock) : Clock :=
  {| timerRef := timerRef c;
     liveTimers := filter (fun e => negb (fst e =? t)%nat) (liveTimers c);
     nextTimer := nextTimer c; recordingTime := recordingTime c;
     pendingStarts := pendingStarts c |}.

(** [if (timerRef.current) clearInterval(timerRef.current)]: an interval
    id is a positive number, or a [Timeout] object, and so truthy. *)
Definition clearTimer (c : Clock) : Clock :=
  match timerRef c with
  | Some t => clearInterval t c
  | None => c
  end.

(** The part of [startRecording] after [setIsPaused(false)]. *)
Definition startIntervals (c : Clock) : Clock :=
  setInterval (CuriosityEngine 0)
    (setInterval (AIInsights 0)
       (setInterval (LiveTranscription 0) (setTimer c))).

Section Clock.

Context {Chunk : Type}.

Import RecordPage.

Inductive ClockEvent :=
| ClickRecord                  (* startRecording() begins *)
| Microphone (granted : bool)  (* getUserMedia answers the oldest call *)
| ClickPause
| ClickResume
| ClickStop
| Recorder (e : Event Chunk)   (* dataavailable and stop of the recorder *)
| TimerTick (t : nat).         (* the interval with id t fires *)

Definition step (s : Page Chunk * Clock) (e : ClockEvent) : Page Chunk * Clock :=
  let p := fst s in
  let c := snd s in
  match e with
  | ClickRecord =>
      (p, {| timerRef := timerRef c; liveTimers := liveTimers c;
             nextTimer := nextTimer c; recordingTime := recordingTime c;
             pendingStarts := S (pendingStarts c) |})
  | Microphone granted =>
      match pendingStarts c with
      | O => s
      | S waiting =>
          let c' := {| timerRef := timerRef c; liveTimers := liveTimers c;
                       nextTimer := nextTimer c; recordingTime := recordingTime c;
                       pendingStarts := waiting |} in
          (RecordPage.step p (StartRecording granted),
           if granted then startIntervals c' else c')
      end
  | ClickPause =>
      (RecordPage.step p PauseRecording,
       match mediaRecorder p with
       | Some recording => clearTimer c
       | _ => c
       end)
  | ClickResume =>
      (RecordPage.step p ResumeRecording,
       match mediaRecorder p with
       | Some paused => setTimer c
       | _ => c
       end)
  | ClickStop => (RecordPage.step p StopRecording, c)
  | Recorder (DataAvailable data) => (RecordPage.step p (DataAvailable data), c)
  | Recorder Stopped =>
      (RecordPage.step p Stopped, if onstop p then clearTimer c else c)
  | Recorder _ => s
  | TimerTick t =>
      match find (fun e => (fst e =? t)%nat) (liveTimers c) with
      | None => s
      | Some (_, CountSecond) =>
          (p, {| timerRef := timerRef c; liveTimers := liveTimers c;
                 nextTimer := nextTimer c;
                 recordingTime := recordingTime c + 1;
                 pendingStarts := pendingStarts c |})
      | Some (_, cb) =>
          if hasNext cb then
            (p, {| timerRef := timerRef c;
                   liveTimers :=
                     map (fun e => if (fst e =? t)%nat then (fst e, next (snd e))
                                   else e)
                       (liveTimers c);
                   nextTimer := nextTimer c; recordingTime := recordingTime c;
                   pendingStarts := pendingStarts c |})
          else (p, clearInterval t c)
      end
  end.

Definition run (s : Page Chunk * Clock) (events : list ClockEvent)
  : Page Chunk * Clock :=
  fold_left step events s.

(** The buttons that the page renders: Record when not recording, Resume
    when recording and paused, Pause when recording and not paused, Stop
    when recording. *)
Definition rendered (p : Page Chunk) (e : ClockEvent) : bool :=
  match e with
  | ClickRecord => negb (isRecording p)
  | ClickResume => isRecording p && isPaused p
  | ClickPause => isRecording p && negb (isPaused p)
  | ClickStop => isRecording p
  | _ => true
  end.

(** The states the page gets into through the buttons it renders and the
    events of its recorder and timers, Record not being clicked again
    while a call of [startRecording] waits for the microphone. *)
Inductive Reachable : Page Chunk * Clock -> Prop :=
| reach_initial : Reachable (initial, initialClock)
| reach_step s e :
    Reachable s -> rendered (fst s) e = true ->
    (e = ClickRecord -> pendingStarts (snd s) = 0%nat) ->
    Reachable (step s e).

End Clock.

(** The live intervals that count seconds, and the live intervals of the
    simulations. *)
Definition counting (c : Clock) : list (nat * Callback) :=
  filter (fun e => countsSeconds (snd e)) (liveTimers c).

Definition simulations (c : Clock) : list (nat * Callback) :=
  filter (fun e => negb (countsSeconds (snd e))) (liveTimers c).

End RecordClock.

Section ClockTimerFacts.

Import RecordPage RecordClock.

Context {Chunk : Type}.

(** Ids are handed out in increasing order, and the id in [timerRef]
    was given to an interval that counts seconds. *)
Definition idsInv (c : Clock) : Prop :=
  (forall e, In e (liveTimers c) -> (fst e < nextTimer c)%nat) /\
  (forall t, timerRef c = Some t ->
     (t < nextTimer c)%nat /\
     forall e, In e (liveTimers c) -> fst e = t -> snd e = CountSecond).

Lemma idsInv_setInterval (cb : Callback) (c : Clock) :
  idsInv c -> idsInv (setInterval cb c).
Proof.
  intros [Hfresh Href]. split; cbn [setInterval liveTimers nextTimer timerRef].
  - intros e He. apply in_app_or in He as [He | [<- | []]].
    + specialize (Hfresh e He). lia.
    + cbn. lia.
  - intros t Ht. destruct (Href t Ht) as [Hlt Hcount]. split; [lia |].
    intros e He Hid. apply in_app_or in He as [He | [<- | []]].
    + now apply Hcount.
    + cbn in Hid. lia.
Qed.

Lemma idsInv_setTimer (c : Clock) : idsInv c -> idsInv (setTimer c).
Proof.
  intros [Hfresh Href]. split; cbn [setTimer setInterval liveTimers nextTimer timerRef].
  - intros e He. apply in_app_or in He as [He | [<- | []]].
    + specialize (Hfresh e He). lia.
    + cbn. lia.
  - intros t Ht. injection Ht as <-. split; [lia |].
    intros e He Hid. apply in_app_or in He as [He | [<- | []]].
    + specialize (Hfresh e He). lia.
    + reflexivity.
Qed.

Lemma idsInv_sublist (c : Clock) (l : list (nat * Callback)) :
  idsInv c -> (forall e, In e l -> In e (liveTimers c)) ->
  idsInv {| timerRef := timerRef c; liveTimers := l; nextTimer := nextTimer c;
            recordingTime := recordingTime c; pendingStarts := pendingStarts c |}.
Proof.
  intros [Hfresh Href] Hsub. split; cbn [liveTimers nextTimer timerRef].
  - intros e He. auto.
  - intros t Ht. destruct (Href t Ht) as [Hlt Hcount]. split; [exact Hlt |].
    intros e He. auto.
Qed.

Lemma idsInv_clearInterval (t : nat) (c : Clock) :
  idsInv c -> idsInv (clearInterval t c).
Proof.
  intros H. apply (idsInv_sublist c); [exact H |].
  intros e He. now apply filter_In in He.
Qed.

Lemma idsInv_clearTimer (c : Clock) : idsInv c -> idsInv (clearTimer c).
Proof.
  intros H. unfold clearTimer. destruct (timerRef c); [| exact H].
  now apply idsInv_clearInterval.
Qed.

Lemma counting_setInterval (cb : Callback) (c : Clock) :
  counting (setInterval cb c)
  = counting c ++ (if countsSeconds cb then [(nextTimer c, cb)] else []).
Proof.
  unfold counting. cbn [setInterval liveTimers]. rewrite filter_app.
  cbn [filter snd]. now destruct (countsSeconds cb).
Qed.

Lemma counting_setTimer (c : Clock) :
  counting (setTimer c) = counting c ++ [(nextTimer c, CountSecond)].
Proof.
  unfold counting. cbn [setTimer setInterval liveTimers]. rewrite filter_app.
  reflexivity.
Qed.

Lemma counting_startIntervals (c : Clock) :
  counting (startIntervals c) = counting c ++ [(nextTimer c, CountSecond)].
Proof.
  unfold startIntervals. rewrite !counting_setInterval. cbn [countsSeconds].
  rewrite !app_nil_r. apply counting_setTimer.
Qed.

Lemma timerRef_startIntervals (c : Clock) :
  timerRef (startIntervals c) = Some (nextTimer c).
Proof. reflexivity. Qed.

Lemma counting_clearInterval (t : nat) (c : Clock) :
  counting (clearInterval t c)
  = filter (fun e => negb (fst e =? t)%nat) (counting c).
Proof.
  unfold counting. cbn [clearInterval liveTimers].
  induction (liveTimers c) as [| e l IH]; [reflexivity |].
  cbn [filter].
  destruct (fst e =? t)%nat eqn:E, (countsSeconds (snd e)) eqn:Ec;
    cbn [negb filter]; rewrite ?E, ?Ec; cbn [negb]; now rewrite IH.
Qed.

Lemma simulations_clearInterval (t : nat) (c : Clock) :
  (forall e, In e (liveTimers c) -> fst e = t -> snd e = CountSecond) ->
  simulations (clearInterval t c) = simulations c.
Proof.
  unfold simulations. cbn [clearInterval liveTimers].
  induction (liveTimers c) as [| e l IH]; intros H; [reflexivity |].
  cbn [filter]. destruct (Nat.eqb_spec (fst e) t) as [E | E]; cbn [negb].
  - rewrite (H e (or_introl eq_refl) E). cbn [countsSeconds negb].
    apply IH. intros e' He'. apply H. now right.
  - cbn [filter]. destruct (countsSeconds (snd e)); cbn [negb];
      rewrite IH; try reflexivity; intros e' He'; apply H; now right.
Qed.

Lemma simulations_clearTimer (c : Clock) :
  idsInv c -> simulations (clearTimer c) = simulations c.
Proof.
  intros [_ Href]. unfold clearTimer.
  destruct (timerRef c) as [t |] eqn:E; [| reflexivity].
  apply simulations_clearInterval. apply (Href t eq_refl).
Qed.

Lemma simulations_setTimer (c : Clock) :
  simulations (setTimer c) = simulations c.
Proof.
  unfold simulations. cbn [setTimer setInterval liveTimers]. rewrite filter_app.
  cbn. apply app_nil_r.
Qed.

Lemma counting_advance (t : nat) (l : list (nat * Callback)) :
  filter (fun e => countsSeconds (snd e))
    (map (fun e => if (fst e =? t)%nat then (fst e, next (snd e)) else e) l)
  = filter (fun e => countsSeconds (snd e)) l.
Proof.
  induction l as [| [i cb] l IH]; [reflexivity |].
  cbn [map filter fst snd]. destruct (i =? t)%nat; cbn [snd]; rewrite IH.
  - now destruct cb.
  - reflexivity.
Qed.

(** How the interval that counts seconds stands to the recorder. *)
Definition timersInv (p : Page Chunk) (c : Clock) : Prop :=
  match mediaRecorder p with
  | None => isRecording p = false /\ onstop p = false /\ counting c = []
  | Some recording =>
      isRecording p = true /\ isPaused p = false /\ onstop p = false /\
      exists t, timerRef c = Some t /\ counting c = [(t, CountSecond)]
  | Some paused =>
      isRecording p = true /\ isPaused p = true /\ onstop p = false /\
      counting c = []
  | Some inactive =>
      onstop p = true /\ (isRecording p = false -> counting c = []) /\
      (counting c = [] \/
       exists t, timerRef c = Some t /\ counting c = [(t, CountSecond)])
  end.

Definition clockInv (s : Page Chunk * Clock) : Prop :=
  (pendingStarts (snd s) <= 1)%nat /\
  (pendingStarts (snd s) = 1%nat -> isRecording (fst s) = false) /\
  idsInv (snd s) /\
  timersInv (fst s) (snd s).

Lemma timersInv_ext (p : Page Chunk) (c c' : Clock) :
  timerRef c' = timerRef c -> counting c' = counting c ->
  timersInv p c -> timersInv p c'.
Proof. unfold timersInv. intros -> ->. exact (fun H => H). Qed.

Lemma timersInv_ids (p : Page Chunk) (c : Clock) :
  timersInv p c -> forall e, In e (counting c) -> timerRef c = Some (fst e).
Proof.
  unfold timersInv. intros H e He.
  destruct (mediaRecorder p) as [[] |].
  - destruct H as (_ & _ & [H | (t & Ht & H)]); rewrite H in He;
      [destruct He | destruct He as [<- | []]; exact Ht].
  - destruct H as (_ & _ & _ & t & Ht & H). rewrite H in He.
    destruct He as [<- | []]. exact Ht.
  - destruct H as (_ & _ & _ & H). rewrite H in He. destruct He.
  - destruct H as (_ & _ & H). rewrite H in He. destruct He.
Qed.

Lemma timersInv_stopped (p : Page Chunk) (c : Clock) :
  timersInv p c -> isRecording p = false -> counting c = [].
Proof.
  unfold timersInv. intros H Hf.
  destruct (mediaRecorder p) as [[] |].
  - now apply (proj1 (proj2 H)).
  - destruct H as (H & _). congruence.
  - destruct H as (H & _). congruence.
  - apply H.
Qed.

Lemma counting_clearTimer (p : Page Chunk) (c : Clock) :
  timersInv p c -> counting (clearTimer c) = [].
Proof.
  intros H. unfold clearTimer.
  destruct (timerRef c) as [t |] eqn:Et.
  - rewrite counting_clearInterval. apply filter_none.
    intros e He. apply (timersInv_ids p c H) in He. rewrite Et in He.
    injection He as ->. now rewrite Nat.eqb_refl.
  - destruct (counting c) as [| e l] eqn:E; [reflexivity |].
    pose proof (timersInv_ids p c H e) as He. rewrite E in He.
    specialize (He (or_introl eq_refl)). congruence.
Qed.

Lemma timerRef_clearTimer (c : Clock) : timerRef (clearTimer c) = timerRef c.
Proof.
  unfold clearTimer. destruct (timerRef c) eqn:E; [exact E | exact E].
Qed.

Lemma pendingStarts_clearTimer (c : Clock) :
  pendingStarts (clearTimer c) = pendingStarts c.
Proof. unfold clearTimer. now destruct (timerRef c). Qed.

Lemma clockInv_step (s : Page Chunk * Clock) (e : ClockEvent) :
  clockInv s -> rendered (fst s) e = true ->
  (e = ClickRecord -> pendingStarts (snd s) = 0%nat) ->
  clockInv (step s e).
Proof.
  destruct s as [p c]. unfold clockInv. cbn [fst snd].
  intros (Hp1 & Hp2 & Hids & Hinv) Hr Hcalm.
  destruct e as [| granted | | | | e | t]; cbn [step fst snd rendered] in *.
  - apply negb_true_iff in Hr. cbn [pendingStarts].
    rewrite (Hcalm eq_refl). split; [lia |]. split; [intros _; exact Hr |].
    split; [exact Hids | exact Hinv].
  - destruct (pendingStarts c) as [| waiting] eqn:Ew.
    + cbn [fst snd]. rewrite Ew.
      split; [lia |]. split; [discriminate |]. split; [exact Hids | exact Hinv].
    + assert (waiting = 0%nat) by lia. subst waiting.
      specialize (Hp2 eq_refl).
      pose proof (timersInv_stopped p c Hinv Hp2) as Hnone.
      set (c' := {| timerRef := timerRef c; liveTimers := liveTimers c;
                    nextTimer := nextTimer c; recordingTime := recordingTime c;
                    pendingStarts := 0 |}).
      assert (Hids' : idsInv c') by exact Hids.
      assert (Hnone' : counting c' = []) by exact Hnone.
      destruct granted; cbn [fst snd RecordPage.step].
      * split; [cbn; lia |]. split; [discriminate |].
        split.
        { unfold startIntervals.
          now repeat apply idsInv_setInterval; apply idsInv_setTimer. }
        unfold timersInv. cbn [mediaRecorder isRecording isPaused onstop].
        repeat split. exists (nextTimer c).
        rewrite timerRef_startIntervals, counting_startIntervals, Hnone'.
        now split.
      * split; [cbn; lia |]. split; [discriminate |].
        split; [exact Hids' |].
        apply (timersInv_ext p c); [reflexivity | reflexivity | exact Hinv].
  - destruct (mediaRecorder p) as [[] |] eqn:E; cbn [RecordPage.step];
      rewrite ?E;
      try (split; [exact Hp1 | split; [exact Hp2 | split; [exact Hids | exact Hinv]]]).
    rewrite pendingStarts_clearTimer.
    split; [exact Hp1 |].
    split; [cbn [isRecording]; unfold timersInv in Hinv; rewrite E in Hinv;
            destruct Hinv as (H1 & _); intros Hp; specialize (Hp2 Hp); congruence |].
    split; [now apply idsInv_clearTimer |].
    pose proof (counting_clearTimer p c Hinv) as Hc.
    unfold timersInv in *. rewrite E in Hinv.
    cbn [mediaRecorder isRecording isPaused onstop].
    destruct Hinv as (H1 & H2 & H3 & _). now repeat split.
  - destruct (mediaRecorder p) as [[] |] eqn:E; cbn [RecordPage.step];
      rewrite ?E;
      try (split; [exact Hp1 | split; [exact Hp2 | split; [exact Hids | exact Hinv]]]).
    split; [exact Hp1 |].
    split; [cbn [isRecording setTimer setInterval pendingStarts];
            unfold timersInv in Hinv; rewrite E in Hinv;
            destruct Hinv as (H1 & _); intros Hp; specialize (Hp2 Hp); congruence |].
    split; [now apply idsInv_setTimer |].
    unfold timersInv in *. rewrite E in Hinv.
    cbn [mediaRecorder isRecording isPaused onstop].
    destruct Hinv as (H1 & H2 & H3 & Hl).
    repeat split; try assumption. exists (nextTimer c).
    rewrite counting_setTimer, Hl. now split.
  - split; [exact Hp1 |].
    unfold timersInv in *.
    destruct (mediaRecorder p) as [[] |] eqn:E; cbn [RecordPage.step];
      rewrite ?E; cbn [mediaRecorder isRecording isPaused onstop];
      try (split; [exact Hp2 | split; [exact Hids | exact Hinv]]).
    + split; [exact Hp2 |]. split; [exact Hids |].
      destruct Hinv as (H1 & H2 & H3). now repeat split.
    + split; [exact Hp2 |]. split; [exact Hids |].
      destruct Hinv as (H1 & H2 & H3 & t & Ht & Hl).
      split; [reflexivity |]. split; [congruence |]. right. now exists t.
    + split; [exact Hp2 |]. split; [exact Hids |].
      destruct Hinv as (H1 & H2 & H3 & Hl).
      split; [reflexivity |]. split; [congruence |]. now left.
  - destruct e as [granted | | | | data |]; cbn [fst snd];
      try (split; [exact Hp1 | split; [exact Hp2 | split; [exact Hids | exact Hinv]]]).
    + split; [exact Hp1 |].
      unfold timersInv in *.
      destruct (mediaRecorder p) as [[] |] eqn:E; cbn [RecordPage.step];
        rewrite ?E; cbn [mediaRecorder isRecording isPaused onstop];
        (split; [exact Hp2 | split; [exact Hids | exact Hinv]]).
    + cbn [RecordPage.step].
      destruct (onstop p) eqn:Eo.
      * rewrite pendingStarts_clearTimer.
        split; [exact Hp1 |]. split; [intros _; reflexivity |].
        split; [now apply idsInv_clearTimer |].
        pose proof (counting_clearTimer p c Hinv) as Hc.
        unfold timersInv in *.
        cbn [mediaRecorder isRecording isPaused onstop]. rewrite ?Eo.
        destruct (mediaRecorder p) as [[] |] eqn:E.
        -- split; [reflexivity |]. split; [intros _; exact Hc | now left].
        -- destruct Hinv as (_ & _ & H & _). congruence.
        -- destruct Hinv as (_ & _ & H & _). congruence.
        -- destruct Hinv as (_ & H & _). congruence.
      * split; [exact Hp1 |]. split; [exact Hp2 |].
        split; [exact Hids | exact Hinv].
  - destruct (find (fun e => (fst e =? t)%nat) (liveTimers c))
      as [[i cb] |] eqn:Ef;
      [| split; [exact Hp1 | split; [exact Hp2 | split; [exact Hids | exact Hinv]]]].
    apply find_some in Ef. destruct Ef as [Hin Hid]. cbn [fst] in Hid.
    apply Nat.eqb_eq in Hid. subst i.
    assert (Hsim : cb <> CountSecond ->
              forall e, In e (counting c) -> (fst e =? t)%nat = false).
    { intros Hcb e He. apply Nat.eqb_neq. intros Heq.
      apply (timersInv_ids p c Hinv) in He. rewrite Heq in He.
      destruct Hids as [_ Href]. destruct (Href t He) as [_ Hcount].
      apply Hcb. exact (Hcount (t, cb) Hin eq_refl). }
    assert (Hadv : cb <> CountSecond ->
              clockInv (p, {| timerRef := timerRef c;
                   liveTimers :=
                     map (fun e => if (fst e =? t)%nat then (fst e, next (snd e))
                                   else e)
                       (liveTimers c);
                   nextTimer := nextTimer c; recordingTime := recordingTime c;
                   pendingStarts := pendingStarts c |})).
    { intros Hcb. unfold clockInv. cbn [fst snd pendingStarts].
      split; [exact Hp1 |]. split; [exact Hp2 |]. split.
      - destruct Hids as [Hfresh Href]. split; cbn [liveTimers nextTimer timerRef].
        + intros e He. apply in_map_iff in He as (e0 & <- & He0).
          specialize (Hfresh e0 He0). now destruct (fst e0 =? t)%nat.
        + intros tr Htr. destruct (Href tr Htr) as [Hlt Hcount].
          split; [exact Hlt |]. intros e He Hid.
          apply in_map_iff in He as (e0 & <- & He0).
          destruct (fst e0 =? t)%nat; cbn [fst snd] in *.
          * now rewrite (Hcount e0 He0 Hid).
          * now apply Hcount.
      - apply (timersInv_ext p c); [reflexivity | | exact Hinv].
        unfold counting. cbn [liveTimers]. apply counting_advance. }
    assert (Hclr : cb <> CountSecond -> clockInv (p, clearInterval t c)).
    { intros Hcb. unfold clockInv. cbn [fst snd].
      split; [exact Hp1 |]. split; [exact Hp2 |]. split.
      - now apply idsInv_clearInterval.
      - apply (timersInv_ext p c); [reflexivity | | exact Hinv].
        rewrite counting_clearInterval. apply filter_all.
        intros e He. now rewrite (Hsim Hcb e He). }
    destruct cb as [| i | i | i]; cbn [hasNext].
    + split; [exact Hp1 | split; [exact Hp2 | split; [exact Hids | exact Hinv]]].
    + destruct (i <? 6)%nat; [apply Hadv | apply Hclr]; discriminate.
    + destruct (i <? 5)%nat; [apply Hadv | apply Hclr]; discriminate.
    + destruct (i <? 5)%nat; [apply Hadv | apply Hclr]; discriminate.
Qed.

Lemma clockInv_reachable (s : Page Chunk * Clock) : Reachable s -> clockInv s.
Proof.
  induction 1 as [| s e _ IH Hr Hcalm].
  - unfold clockInv, timersInv, idsInv. cbn.
    repeat split; try lia; try discriminate; try (intros e []).
  - now apply clockInv_step.
Qed.

(** Of the intervals that the page has set, at most one counts seconds,
    through the buttons that the page renders and as long as Record is
    not clicked again while a call of [startRecording] waits for the
    microphone: exactly one while the recorder records, none while it is
    paused and none when the page is not recording.  The clock then never
    runs at double speed and stands still in a pause.  The intervals of
    the three simulations are of another kind: Pause, Resume, Stop and
    the recorder's stop event clear none of them. *)
Theorem clock_has_one_timer (s : Page Chunk * Clock) :
  Reachable s ->
  (length (counting (snd s)) <= 1)%nat /\
  (mediaRecorder (fst s) = Some recording ->
   length (counting (snd s)) = 1%nat) /\
  (mediaRecorder (fst s) = Some paused -> counting (snd s) = []) /\
  (isRecording (fst s) = false -> counting (snd s) = []) /\
  (forall e, e = ClickPause \/ e = ClickResume \/ e = ClickStop \/
             e = Recorder Stopped ->
     simulations (snd (step s e)) = simulations (snd s)).
Proof.
  intros H. apply clockInv_reachable in H.
  destruct H as (_ & _ & Hids & H). unfold timersInv in H.
  split; [| split; [| split; [| split]]].
  - destruct (mediaRecorder (fst s)) as [[] |].
    + destruct H as (_ & _ & [H | (t & _ & H)]); rewrite H; cbn; lia.
    + destruct H as (_ & _ & _ & t & _ & H). rewrite H. cbn. lia.
    + destruct H as (_ & _ & _ & H). rewrite H. cbn. lia.
    + destruct H as (_ & _ & H). rewrite H. cbn. lia.
  - intros E. rewrite E in H. destruct H as (_ & _ & _ & t & _ & H).
    now rewrite H.
  - intros E. rewrite E in H. apply H.
  - intros Hf. destruct (mediaRecorder (fst s)) as [[] |].
    + now apply (proj1 (proj2 H)).
    + destruct H as (H & _). congruence.
    + destruct H as (H & _). congruence.
    + apply H.
  - intros e [-> | [-> | [-> | ->]]]; cbn [step snd].
    + destruct (mediaRecorder (fst s)) as [[] |]; try reflexivity.
      now apply simulations_clearTimer.
    + destruct (mediaRecorder (fst s)) as [[] |]; try reflexivity.
      apply simulations_setTimer.
    + reflexivity.
    + destruct (onstop (fst s)); [| reflexivity].
      now apply simulations_clearTimer.
Qed.

(** The flags that choose the buttons agree with the recorder: while it
    records the page shows Pause and Stop, while it is paused Resume and
    Stop, and when the page shows Record the recorder is absent or
    inactive. *)
Theorem buttons_match_recorder (s : Page Chunk * Clock) :
  Reachable s ->
  (mediaRecorder (fst s) = Some recording ->
   isRecording (fst s) = true /\ isPaused (fst s) = false) /\
  (mediaRecorder (fst s) = Some paused ->
   isRecording (fst s) = true /\ isPaused (fst s) = true) /\
  (isRecording (fst s) = false ->
   mediaRecorder (fst s) = None \/ mediaRecorder (fst s) = Some inactive).
Proof.
  intros H. apply clockInv_reachable in H.
  destruct H as (_ & _ & _ & H). unfold timersInv in H.
  destruct (mediaRecorder (fst s)) as [[] |].
  - repeat split; try discriminate. intros _. now right.
  - destruct H as (H1 & H2 & _). repeat split; try assumption; try discriminate.
    congruence.
  - destruct H as (H1 & H2 & _). repeat split; try assumption; try discriminate.
    congruence.
  - repeat split; try discriminate. intros _. now left.
Qed.

End ClockTimerFacts.

Section ClockTimerRuns.

Import RecordPage RecordClock.

(** Record, the microphone is granted, pause. *)
Definition pausedPage : Page nat * Clock :=
  run (@initial nat, initialClock) [ClickRecord; Microphone true; ClickPause].

(** Record, the microphone is granted, pause, resume. *)
Definition resumedPage : Page nat * Clock :=
  run (@initial nat, initialClock)
    [ClickRecord; Microphone true; ClickPause; ClickResume].

Lemma pausedPage_reachable : Reachable pausedPage.
Proof.
  unfold pausedPage, run. cbn [fold_left].
  repeat (apply reach_step; [| reflexivity | try discriminate; try reflexivity]).
  apply reach_initial.
Qed.

Lemma resumedPage_reachable : Reachable resumedPage.
Proof.
  unfold resumedPage, run. cbn [fold_left].
  repeat (apply reach_step; [| reflexivity | try discriminate; try reflexivity]).
  apply reach_initial.
Qed.

Lemma clock_has_one_timer_witness :
  counting (snd pausedPage) = [] /\
  simulations (snd (step pausedPage ClickResume)) = simulations (snd pausedPage) /\
  length (simulations (snd pausedPage)) = 3%nat.
Proof.
  destruct (clock_has_one_timer pausedPage pausedPage_reachable)
    as (_ & _ & Hpaused & _ & Hframe).
  split; [apply Hpaused; reflexivity |].
  split; [apply Hframe; right; left; reflexivity | reflexivity].
Defined.

Lemma buttons_match_recorder_witness :
  isRecording (fst resumedPage) = true /\ isPaused (fst resumedPage) = false.
Proof.
  apply (proj1 (buttons_match_recorder resumedPage resumedPage_reachable)).
  reflexivity.
Defined.

(** Record clicked twice before the microphone answers: both calls go
    through, and two intervals count the seconds. *)
Example record_clicked_twice :
  let s := run (@initial nat, initialClock)
             [ClickRecord; ClickRecord; Microphone true; Microphone true;
              TimerTick 1; TimerTick 5] in
  map fst (counting (snd s)) = [1; 5]%nat /\ recordingTime (snd s) = 2.
Proof. split; reflexivity. Qed.

End ClockTimerRuns.
